(** * ChainBreak AI: the analysis request pipeline of [src/app/api/analyze/route.ts]

    A shallow embedding of the route handler [POST] and of the helpers it
    calls ([buildUserPrompt], [totalInputLength], [extractText],
    [sanitizeOutput], [callGemini], [parseGeminiJson]), with the
    ECMAScript built-ins they rely on ([String.prototype.trim],
    [JSON.stringify], [JSON.parse], [RegExp.prototype.test],
    [String.prototype.replace]) written out as far as the code uses them. *)

From Stdlib Require Import String Ascii DecimalString.
From Stdlib Require Import List NArith PeanoNat Lia Bool.
Import ListNotations.
Local Open Scope N_scope.
Local Open Scope list_scope.

Set Implicit Arguments.

(** ** Strings

    An ECMAScript string is a sequence of 16-bit code units; [length] of the
    list is the [.length] of the string. *)

Definition code_unit := N.
Definition jsstring := list code_unit.

(** An ASCII literal of the source as a [jsstring]. *)
Definition js (s : string) : jsstring := map N_of_ascii (list_ascii_of_string s).
Arguments js s%_string.

Definition LF : jsstring := [10].
Definition DQUOTE : code_unit := 34.
Definition BACKSLASH : code_unit := 92.

Fixpoint jsstring_eqb (a b : jsstring) : bool :=
  match a, b with
  | [], [] => true
  | x :: a', y :: b' => (x =? y) && jsstring_eqb a' b'
  | _, _ => false
  end.

(** [WhiteSpace] and [LineTerminator] of ECMA-262, the code units that
    [String.prototype.trim] strips. *)
Definition isWhiteSpace (c : code_unit) : bool :=
  (c =? 0x9) || (c =? 0xB) || (c =? 0xC) || (c =? 0x20) || (c =? 0xA0) ||
  (c =? 0x1680) || ((0x2000 <=? c) && (c <=? 0x200A)) ||
  (c =? 0x202F) || (c =? 0x205F) || (c =? 0x3000) || (c =? 0xFEFF).

Definition isLineTerminator (c : code_unit) : bool :=
  (c =? 0xA) || (c =? 0xD) || (c =? 0x2028) || (c =? 0x2029).

Definition isTrimmed (c : code_unit) : bool := isWhiteSpace c || isLineTerminator c.

Fixpoint trimStart (s : jsstring) : jsstring :=
  match s with
  | c :: s' => if isTrimmed c then trimStart s' else s
  | [] => []
  end.

Definition trimEnd (s : jsstring) : jsstring := rev (trimStart (rev s)).

(** [s.trim()] *)
Definition trim (s : jsstring) : jsstring := trimEnd (trimStart s).

(** [parts.join("")] *)
Definition join_empty (parts : list jsstring) : jsstring := concat parts.

(** [parts.join(sep)] *)
Fixpoint join (sep : jsstring) (parts : list jsstring) : jsstring :=
  match parts with
  | [] => []
  | [p] => p
  | p :: rest => p ++ sep ++ join sep rest
  end.

(** [`${n}`] for a non-negative integer [n]. *)
Definition decimal (n : N) : jsstring := js (NilZero.string_of_uint (N.to_uint n)).

(** ** Optional values

    For a value that the code only ever tests with [??], [?.] and [!], which
    treat [undefined] and [null] alike, the two are both [None]. *)

(** [x ?? d] *)
Definition nullish {A} (x : option A) (d : A) : A :=
  match x with Some v => v | None => d end.
Infix "??" := nullish (at level 45, left associativity).

(** [x?.f] for an optional property [f] *)
Definition chain {A B} (x : option A) (f : A -> option B) : option B :=
  match x with Some v => f v | None => None end.
Infix "?." := chain (at level 40, left associativity).

(** [x?.m()] for a method [m] that always returns *)
Definition chain_call {A B} (x : option A) (m : A -> B) : option B :=
  match x with Some v => Some (m v) | None => None end.

(** [!s] for an optional string: [undefined], [null] and the empty string are
    falsy. *)
Definition falsy (s : option jsstring) : bool :=
  match s with
  | None => true
  | Some [] => true
  | Some (_ :: _) => false
  end.

(** A field that the code also prints in a template literal, where
    [undefined] and [null] are told apart. *)
Inductive nullable (A : Type) : Type :=
| Undefined
| Null
| Present (v : A).

Arguments Undefined {A}.
Arguments Null {A}.

(** The field as [??], [?.], [!] and a property read see it. *)
Definition tested {A} (x : nullable A) : option A :=
  match x with
  | Present v => Some v
  | Undefined | Null => None
  end.

(** ** The types of the route: [GeminiResponse] and [AnalysisInput] *)

Record Part := { text : option jsstring }.
Record Content := { parts : option (list Part) }.
Record Candidate := { content : option Content }.
Record GeminiResponse := { candidates : option (list Candidate) }.

Record Snippets := {
  config : option jsstring;
  logs : option jsstring;
  code : option jsstring
}.

(** [system_text] is declared required, but the body is an unchecked cast of
    the request's JSON and [POST] tests the field at run time: it is optional
    and told apart from [undefined] and [null] here. [what_if] is
    [string | null | undefined]. *)
Record AnalysisInput := {
  project_name : option jsstring;
  system_text : nullable jsstring;
  diagram_summary : option jsstring;
  snippets : option Snippets;
  what_if : option jsstring
}.

Definition MAX_TOTAL_CHARS : N := 25000.

Definition EXPLOIT_KEYWORDS : list jsstring :=
  [ js "payload";
    js "reverse shell";
    js "metasploit";
    js "sqlmap";
    js "exploit";
    js "shellcode";
    js "cmd.exe";
    js "powershell -enc";
    js "dropper" ].

(** A value interpolated in a template literal: [undefined] and [null] print
    as the words. *)
Definition interpolate (s : nullable jsstring) : jsstring :=
  match s with
  | Present v => v
  | Undefined => js "undefined"
  | Null => js "null"
  end.

(** [buildUserPrompt], route.ts:113 *)
Definition buildUserPrompt (input : AnalysisInput) : jsstring :=
  (js "system_text:" ++ LF ++ interpolate (system_text input) ++ LF ++ LF) ++
  (js "diagram_summary:" ++ LF ++ (diagram_summary input ?? []) ++ LF ++ LF) ++
  (js "snippets:" ++ LF ++
   js "config:" ++ LF ++ (snippets input ?. config ?? []) ++ LF ++
   js "logs:" ++ LF ++ (snippets input ?. logs ?? []) ++ LF ++
   js "code:" ++ LF ++ (snippets input ?. code ?? []) ++ LF ++ LF) ++
  (js "what_if:" ++ LF ++ (what_if input ?? js "NONE")).

(** [s?.length] *)
Definition length_opt (s : option jsstring) : option N :=
  chain_call s (fun v => N.of_nat (length v)).

(** [extractText], route.ts:130 *)
Definition extractText (response : GeminiResponse) : jsstring :=
  let text :=
    chain_call
      (chain_call
         (candidates response ?. (fun cs => nth_error cs 0) ?. content ?. parts)
         (map (fun part => text part ?? [])))
      join_empty in
  chain_call text trim ?? [].

(** [totalInputLength], route.ts:120. [input.system_text.length] has no [?.]:
    reading [length] of an absent [system_text] raises a [TypeError], which is
    the [None] here. *)
Definition totalInputLength (input : AnalysisInput) : option N :=
  match tested (system_text input) with
  | None => None
  | Some st =>
      Some (N.of_nat (length st) +
            (length_opt (diagram_summary input) ?? 0) +
            (length_opt (snippets input ?. config) ?? 0) +
            (length_opt (snippets input ?. logs) ?? 0) +
            (length_opt (snippets input ?. code) ?? 0))
  end.

(** ** Regular expressions, as far as [new RegExp(keyword, "gi")] needs them

    The nine keywords contain no regular-expression syntax character other
    than the dot of ["cmd.exe"], so a pattern is a sequence of atoms: a
    literal code unit, or the wildcard [.] *)

Inductive atom :=
| Lit (c : code_unit)
| AnyChar.

Definition pattern := list atom.

Definition FULL_STOP : code_unit := 46.

Definition compile (source : jsstring) : pattern :=
  map (fun c => if c =? FULL_STOP then AnyChar else Lit c) source.

(** [Canonicalize] under the [i] flag without [u]: the upper-case mapping of a
    code unit. An ASCII letter maps to its capital. A code unit from 128 on
    never canonicalizes to a code unit below 128, so it never equals the
    canonical form of an ASCII pattern character: it is left as it is. *)
Definition Canonicalize (c : code_unit) : code_unit :=
  if (97 <=? c) && (c <=? 122) then c - 32 else c.

(** [.] without the [s] flag matches every code unit but a line terminator. *)
Definition atom_match (a : atom) (c : code_unit) : bool :=
  match a with
  | Lit x => Canonicalize x =? Canonicalize c
  | AnyChar => negb (isLineTerminator c)
  end.

(** The pattern matches a prefix of [s]. *)
Fixpoint match_at (p : pattern) (s : jsstring) : bool :=
  match p, s with
  | [], _ => true
  | _ :: _, [] => false
  | a :: p', c :: s' => atom_match a c && match_at p' s'
  end.

(** Index of the leftmost match of [p] in [s]. *)
Fixpoint search (p : pattern) (s : jsstring) : option nat :=
  if match_at p s then Some O
  else match s with
       | [] => None
       | _ :: s' => option_map S (search p s')
       end.

(** A regular expression object carries [lastIndex], which the [g] flag makes
    [test] read and write. *)
Record RegExp := {
  re_pattern : pattern;
  lastIndex : nat
}.

(** [new RegExp(source, "gi")] *)
Definition new_RegExp (source : jsstring) : RegExp :=
  {| re_pattern := compile source; lastIndex := 0 |}.

(** [regex.test(s)] for a global regular expression: the search starts at
    [lastIndex], which is left after the match, or reset on failure. *)
Definition RegExp_test (regex : RegExp) (s : jsstring) : bool * RegExp :=
  match search (re_pattern regex) (skipn (lastIndex regex) s) with
  | Some k =>
      (true, {| re_pattern := re_pattern regex;
                lastIndex := lastIndex regex + k + length (re_pattern regex) |})
  | None => (false, {| re_pattern := re_pattern regex; lastIndex := 0 |})
  end.

(** The scan of a global replace with a non-empty pattern: at a match the
    replacement is written and the rest of the match ([skip] code units) is
    passed over; elsewhere the code unit is kept. *)
Fixpoint replace_from (p : pattern) (r : jsstring) (skip : nat) (s : jsstring) : jsstring :=
  match s with
  | [] => []
  | c :: s' =>
      match skip with
      | S k => replace_from p r k s'
      | O =>
          if match_at p s then r ++ replace_from p r (pred (length p)) s'
          else c :: replace_from p r 0 s'
      end
  end.

(** [s.replace(regex, r)] for a global regular expression and a replacement
    without [$]: [lastIndex] is set to 0 before the scan and is 0 after it. *)
Definition String_replace (s : jsstring) (regex : RegExp) (r : jsstring) : jsstring * RegExp :=
  (replace_from (re_pattern regex) r 0 s,
   {| re_pattern := re_pattern regex; lastIndex := 0 |}).

Definition REDACTED : jsstring := js "[redacted]".

(** One iteration of the loop of [sanitizeOutput] over the state
    [(sanitized, redacted)]. *)
Definition sanitize_keyword (st : jsstring * bool) (keyword : jsstring) : jsstring * bool :=
  let (sanitized, redacted) := st in
  let regex := new_RegExp keyword in
  let (found, regex) := RegExp_test regex sanitized in
  if found then (fst (String_replace sanitized regex REDACTED), true)
  else (sanitized, redacted).

(** [sanitizeOutput], route.ts:135; the result is [(sanitized, redacted)]. *)
Definition sanitizeOutput (jsonString : jsstring) : jsstring * bool :=
  fold_left sanitize_keyword EXPLOIT_KEYWORDS (jsonString, false).

(** The pattern matches somewhere in [s]. *)
Fixpoint occurs (p : pattern) (s : jsstring) : bool :=
  match_at p s || match s with [] => false | _ :: s' => occurs p s' end.

(** The pattern and the text disagree inside their common length. *)
Fixpoint clash (p : pattern) (x : jsstring) : bool :=
  match p, x with
  | a :: p', c :: x' => negb (atom_match a c) || clash p' x'
  | _, _ => false
  end.

(** The non-empty suffixes of a list. *)
Fixpoint tails {A} (l : list A) : list (list A) :=
  match l with
  | [] => []
  | _ :: t => l :: tails t
  end.

(** No match of [q] can overlap an occurrence of the text [m]: wherever the
    window of [q] meets [m], some code unit of [m] inside the window is
    refused by [q]. *)
Definition apart (q : pattern) (m : jsstring) : bool :=
  match q with
  | [] => false
  | _ :: _ =>
      forallb (fun q' => clash q' m) (tails q) && forallb (fun m' => clash q m') (tails m)
  end.

(** [k] occurs in [s] up to the case of ASCII letters. *)
Definition same_letter (x y : code_unit) : Prop := Canonicalize x = Canonicalize y.

Definition occurs_ignoring_case (k s : jsstring) : Prop :=
  exists a k' b, s = a ++ k' ++ b /\ Forall2 same_letter k k'.

(** ** The engine

    What the model takes from the ECMAScript engine as it is: the Number type
    (IEEE doubles), the conversion of a JSON number token to a Number, the
    text [JSON.stringify] writes for a Number, the wording of the messages
    of the errors the engine itself raises, and the depth of its stack:
    [JSON.stringify] recurses into arrays and objects and throws a
    [RangeError] on a value nested deeper than the stack takes, while
    [JSON.parse] reads a text of any nesting. *)

Inductive EngineFault :=
| JSON_SyntaxError (text : jsstring)       (* JSON.parse on a text that is not JSON *)
| ReadOfNullish (property : jsstring)      (* property read on undefined or null *)
| WriteOnPrimitive (property : jsstring)   (* property write on a primitive, strict mode *)
| StackExhausted.                          (* RangeError: recursion deeper than the stack *)

(** The nesting of the response schema of [DEVELOPER_PROMPT]: the object,
    its [attack_paths], a path, its [steps], a step, its [defender_signals]. *)
Definition SCHEMA_NESTING : nat := 6.

(** The stack of an engine takes at least the nesting of the schema. *)
Class Engine := {
  number : Type;
  StringToNumber : jsstring -> number;
  NumberToJSON : number -> jsstring;
  fault_message : EngineFault -> jsstring;
  stack_depth : nat;
  stack_depth_ample : Nat.leb SCHEMA_NESTING stack_depth = true
}.

(** A thrown value: an instance of [Error] (also [TypeError], [SyntaxError])
    with its [message], or anything else. *)
Inductive thrown :=
| ErrorObject (message : jsstring)
| NotAnError.

Definition raise `{Engine} (f : EngineFault) : thrown := ErrorObject (fault_message f).

(** ** JSON values

    What [JSON.parse] returns. The properties of an object are kept in the
    order in which [JSON.stringify] enumerates them. *)

Unset Elimination Schemes.
Inductive json `{Engine} :=
| JNull
| JBool (b : bool)
| JNum (n : number)
| JStr (s : jsstring)
| JArr (items : list json)
| JObj (props : list (jsstring * json)).
Set Elimination Schemes.

Section JSON.
Context `{Engine}.

(** *** [JSON.stringify(value, null, 2)] *)

Definition hex_digit (d : N) : code_unit := if d <? 10 then 48 + d else 87 + d.

(** [UnicodeEscape]: [\uXXXX] with lower-case hexadecimal digits. *)
Definition UnicodeEscape (c : code_unit) : jsstring :=
  [BACKSLASH; 117; hex_digit (c / 4096 mod 16); hex_digit (c / 256 mod 16);
   hex_digit (c / 16 mod 16); hex_digit (c mod 16)].

Definition isLeadingSurrogate (c : code_unit) : bool := (0xD800 <=? c) && (c <=? 0xDBFF).
Definition isTrailingSurrogate (c : code_unit) : bool := (0xDC00 <=? c) && (c <=? 0xDFFF).

(** The escape of one code unit that is not a surrogate. *)
Definition escape_unit (c : code_unit) : jsstring :=
  if c =? 8 then [BACKSLASH; 98]
  else if c =? 9 then [BACKSLASH; 116]
  else if c =? 10 then [BACKSLASH; 110]
  else if c =? 12 then [BACKSLASH; 102]
  else if c =? 13 then [BACKSLASH; 114]
  else if c =? DQUOTE then [BACKSLASH; DQUOTE]
  else if c =? BACKSLASH then [BACKSLASH; BACKSLASH]
  else if c <? 32 then UnicodeEscape c
  else [c].

(** The characters of [QuoteJSONString] between the quotes: a surrogate pair
    is kept, a lone surrogate is escaped. *)
Fixpoint quote_chars (s : jsstring) : jsstring :=
  match s with
  | [] => []
  | c :: s' =>
      if isLeadingSurrogate c then
        match s' with
        | d :: s'' =>
            if isTrailingSurrogate d then c :: d :: quote_chars s''
            else UnicodeEscape c ++ quote_chars s'
        | [] => UnicodeEscape c
        end
      else if isTrailingSurrogate c then UnicodeEscape c ++ quote_chars s'
      else escape_unit c ++ quote_chars s'
  end.

Definition QuoteJSONString (s : jsstring) : jsstring :=
  [DQUOTE] ++ quote_chars s ++ [DQUOTE].

(** The gap of an indentation of 2. *)
Definition gap : jsstring := js "  ".

(** [SerializeJSONProperty] with [SerializeJSONArray] and
    [SerializeJSONObject], for a non-empty gap. *)
Fixpoint SerializeJSONProperty (indent : jsstring) (value : json) : jsstring :=
  match value with
  | JNull => js "null"
  | JBool true => js "true"
  | JBool false => js "false"
  | JNum n => NumberToJSON n
  | JStr s => QuoteJSONString s
  | JArr items =>
      let stepback := indent in
      let indent := indent ++ gap in
      match items with
      | [] => js "[]"
      | _ =>
          let partial := map (SerializeJSONProperty indent) items in
          js "[" ++ LF ++ indent ++ join (js "," ++ LF ++ indent) partial ++
          LF ++ stepback ++ js "]"
      end
  | JObj props =>
      let stepback := indent in
      let indent := indent ++ gap in
      match props with
      | [] => js "{}"
      | _ =>
          let partial :=
            map (fun kv => QuoteJSONString (fst kv) ++ js ":" ++ js " " ++
                           SerializeJSONProperty indent (snd kv)) props in
          js "{" ++ LF ++ indent ++ join (js "," ++ LF ++ indent) partial ++
          LF ++ stepback ++ js "}"
      end
  end.

(** The text that [JSON.stringify(value, null, 2)] writes when it
    completes. *)
Definition serialization (value : json) : jsstring := SerializeJSONProperty [] value.

(** How deep the arrays and objects of a value are nested. *)
Fixpoint nesting (value : json) : nat :=
  match value with
  | JArr items => S (fold_right (fun item n => Nat.max (nesting item) n) O items)
  | JObj props => S (fold_right (fun kv n => Nat.max (nesting (snd kv)) n) O props)
  | _ => O
  end.

(** [JSON.stringify(value, null, 2)]: the text, or the [RangeError] of a
    value nested deeper than the stack takes. *)
Definition JSON_stringify_2 (value : json) : thrown + jsstring :=
  if Nat.leb (nesting value) stack_depth then inr (serialization value)
  else inl (raise StackExhausted).

(** *** Own properties of an ordinary object *)

Fixpoint get_own (props : list (jsstring * json)) (key : jsstring) : option json :=
  match props with
  | [] => None
  | (k, v) :: rest => if jsstring_eqb k key then Some v else get_own rest key
  end.

Definition isDigit (c : code_unit) : bool := (48 <=? c) && (c <=? 57).

Definition digits_value (ds : jsstring) : N :=
  fold_left (fun acc d => 10 * acc + (d - 48)) ds 0.

(** An array index: the canonical decimal text of an integer below 2^32 - 1. *)
Definition array_index (key : jsstring) : option N :=
  match key with
  | [] => None
  | d :: ds =>
      if forallb isDigit key && (negb (d =? 48) || match ds with [] => true | _ => false end)
         && Nat.leb (length key) 10 && (digits_value key <? 4294967295)
      then Some (digits_value key)
      else None
  end.

(** Where a new index key goes: before the first property that is not an
    array index or has a larger index. *)
Fixpoint insert_index (props : list (jsstring * json)) (i : N) (key : jsstring) (v : json)
  : list (jsstring * json) :=
  match props with
  | [] => [(key, v)]
  | (k, w) :: rest =>
      match array_index k with
      | Some j => if j <? i then (k, w) :: insert_index rest i key v
                  else (key, v) :: props
      | None => (key, v) :: props
      end
  end.

Fixpoint overwrite (props : list (jsstring * json)) (key : jsstring) (v : json)
  : list (jsstring * json) :=
  match props with
  | [] => []
  | (k, w) :: rest =>
      if jsstring_eqb k key then (k, v) :: rest else (k, w) :: overwrite rest key v
  end.

(** [CreateDataProperty] and [Set] on an ordinary object: an existing property
    keeps its place and takes the value; a new one is enumerated after the
    existing ones, array indices first, in ascending order. *)
Definition set_own (props : list (jsstring * json)) (key : jsstring) (v : json)
  : list (jsstring * json) :=
  match get_own props key with
  | Some _ => overwrite props key v
  | None =>
      match array_index key with
      | Some i => insert_index props i key v
      | None => props ++ [(key, v)]
      end
  end.

End JSON.

(** *** [JSON.parse(text)]

    A recursive-descent reading of the JSON grammar of ECMA-262. The fuel
    bounds the number of nested calls; [JSON_parse] gives one more than twice
    the length of the text, which is never used up ([JSON_parse_fuel]). *)

Section Parse.
Context `{Engine}.

Inductive parse_result (A : Type) :=
| OutOfFuel
| Unexpected
| Parsed (v : A) (rest : jsstring).
Arguments OutOfFuel {A}.
Arguments Unexpected {A}.

Definition isJSONWhiteSpace (c : code_unit) : bool :=
  (c =? 0x9) || (c =? 0xA) || (c =? 0xD) || (c =? 0x20).

Fixpoint skip_ws (s : jsstring) : jsstring :=
  match s with
  | c :: s' => if isJSONWhiteSpace c then skip_ws s' else s
  | [] => []
  end.

Definition hex_value (c : code_unit) : option N :=
  if isDigit c then Some (c - 48)
  else if (97 <=? c) && (c <=? 102) then Some (c - 87)
  else if (65 <=? c) && (c <=? 70) then Some (c - 55)
  else None.

Definition hex4 (h1 h2 h3 h4 : code_unit) : option code_unit :=
  match hex_value h1, hex_value h2, hex_value h3, hex_value h4 with
  | Some a, Some b, Some c, Some d => Some (4096 * a + 256 * b + 16 * c + d)
  | _, _, _, _ => None
  end.

(** The code unit of the escape [\e], for [e] other than [u]. *)
Definition simple_escape (e : code_unit) : option code_unit :=
  if e =? DQUOTE then Some DQUOTE
  else if e =? BACKSLASH then Some BACKSLASH
  else if e =? 47 then Some 47
  else if e =? 98 then Some 8
  else if e =? 102 then Some 12
  else if e =? 110 then Some 10
  else if e =? 114 then Some 13
  else if e =? 116 then Some 9
  else None.

Definition cons_char (c : code_unit) (r : option (jsstring * jsstring))
  : option (jsstring * jsstring) :=
  match r with
  | Some (str, rest) => Some (c :: str, rest)
  | None => None
  end.

(** The characters of a string after its opening quote, up to and including
    the closing quote. *)
Fixpoint parse_chars (s : jsstring) : option (jsstring * jsstring) :=
  match s with
  | [] => None
  | c :: s' =>
      if c =? DQUOTE then Some ([], s')
      else if c =? BACKSLASH then
        match s' with
        | [] => None
        | e :: s'' =>
            if e =? 117 then
              match s'' with
              | h1 :: h2 :: h3 :: h4 :: s4 =>
                  match hex4 h1 h2 h3 h4 with
                  | Some u => cons_char u (parse_chars s4)
                  | None => None
                  end
              | _ => None
              end
            else
              match simple_escape e with
              | Some u => cons_char u (parse_chars s'')
              | None => None
              end
        end
      else if c <? 32 then None
      else cons_char c (parse_chars s')
  end.

Fixpoint span_digits (s : jsstring) : jsstring * jsstring :=
  match s with
  | c :: s' =>
      if isDigit c then let (ds, rest) := span_digits s' in (c :: ds, rest)
      else ([], s)
  | [] => ([], [])
  end.

Definition scan_sign (allowed : code_unit -> bool) (s : jsstring) : jsstring * jsstring :=
  match s with
  | c :: s' => if allowed c then ([c], s') else ([], s)
  | [] => ([], [])
  end.

(** The optional fraction of a number token. *)
Definition scan_fraction (s : jsstring) : option (jsstring * jsstring) :=
  match s with
  | c :: s' =>
      if c =? FULL_STOP then
        match span_digits s' with
        | ([], _) => None
        | (ds, rest) => Some (c :: ds, rest)
        end
      else Some ([], s)
  | [] => Some ([], [])
  end.

(** The optional exponent of a number token. *)
Definition scan_exponent (s : jsstring) : option (jsstring * jsstring) :=
  match s with
  | c :: s' =>
      if (c =? 101) || (c =? 69) then
        let (sign, s1) := scan_sign (fun x => (x =? 43) || (x =? 45)) s' in
        match span_digits s1 with
        | ([], _) => None
        | (ds, rest) => Some (c :: sign ++ ds, rest)
        end
      else Some ([], s)
  | [] => Some ([], [])
  end.

(** A number token: an optional minus, then 0 or a digit string without a
    leading 0, then an optional fraction and an optional exponent. *)
Definition scan_number (s : jsstring) : option (jsstring * jsstring) :=
  let (sign, s1) := scan_sign (fun x => x =? 45) s in
  match s1 with
  | [] => None
  | d :: r =>
      if isDigit d then
        let (int, s2) := if d =? 48 then ([d], r) else span_digits s1 in
        match scan_fraction s2 with
        | None => None
        | Some (frac, s3) =>
            match scan_exponent s3 with
            | None => None
            | Some (exp, s4) => Some (sign ++ int ++ frac ++ exp, s4)
            end
        end
      else None
  end.

Fixpoint strip_prefix (word s : jsstring) : option jsstring :=
  match word, s with
  | [], _ => Some s
  | w :: word', c :: s' => if w =? c then strip_prefix word' s' else None
  | _ :: _, [] => None
  end.

Definition parse_literal (s : jsstring) : parse_result json :=
  match strip_prefix (js "null") s with
  | Some rest => Parsed JNull rest
  | None =>
  match strip_prefix (js "true") s with
  | Some rest => Parsed (JBool true) rest
  | None =>
  match strip_prefix (js "false") s with
  | Some rest => Parsed (JBool false) rest
  | None =>
  match scan_number s with
  | Some (token, rest) => Parsed (JNum (StringToNumber token)) rest
  | None => Unexpected
  end end end end.

Definition LEFT_BRACE : code_unit := 123.
Definition RIGHT_BRACE : code_unit := 125.
Definition LEFT_BRACKET : code_unit := 91.
Definition RIGHT_BRACKET : code_unit := 93.
Definition COMMA : code_unit := 44.
Definition COLON : code_unit := 58.

(** One level of the parser, with the parsers of the next level as arguments:
    [value_step] reads a value after white space; [members_step] the members
    of an object after its first brace and [elements_step] the elements of an
    array after its first bracket, both up to and including the closing one.
    A repeated key keeps its first place and takes the last value. *)
Definition value_step
    (members : list (jsstring * json) -> jsstring -> parse_result json)
    (elements : list json -> jsstring -> parse_result json)
    (s : jsstring) : parse_result json :=
  match skip_ws s with
  | [] => Unexpected
  | c :: r =>
      if c =? LEFT_BRACE then
        match skip_ws r with
        | c' :: r' =>
            if c' =? RIGHT_BRACE then Parsed (JObj []) r'
            else members [] r
        | [] => Unexpected
        end
      else if c =? LEFT_BRACKET then
        match skip_ws r with
        | c' :: r' =>
            if c' =? RIGHT_BRACKET then Parsed (JArr []) r'
            else elements [] r
        | [] => Unexpected
        end
      else if c =? DQUOTE then
        match parse_chars r with
        | Some (str, rest) => Parsed (JStr str) rest
        | None => Unexpected
        end
      else parse_literal (c :: r)
  end.

Definition members_step
    (value : jsstring -> parse_result json)
    (members : list (jsstring * json) -> jsstring -> parse_result json)
    (acc : list (jsstring * json)) (s : jsstring) : parse_result json :=
  match skip_ws s with
  | [] => Unexpected
  | q :: r =>
      if q =? DQUOTE then
        match parse_chars r with
        | None => Unexpected
        | Some (key, r1) =>
            match skip_ws r1 with
            | [] => Unexpected
            | colon :: r2 =>
                if colon =? COLON then
                  match value r2 with
                  | OutOfFuel => OutOfFuel
                  | Unexpected => Unexpected
                  | Parsed v r3 =>
                      let acc := set_own acc key v in
                      match skip_ws r3 with
                      | [] => Unexpected
                      | d :: r4 =>
                          if d =? COMMA then members acc r4
                          else if d =? RIGHT_BRACE then Parsed (JObj acc) r4
                          else Unexpected
                      end
                  end
                else Unexpected
            end
        end
      else Unexpected
  end.

Definition elements_step
    (value : jsstring -> parse_result json)
    (elements : list json -> jsstring -> parse_result json)
    (acc : list json) (s : jsstring) : parse_result json :=
  match value s with
  | OutOfFuel => OutOfFuel
  | Unexpected => Unexpected
  | Parsed v r =>
      let acc := acc ++ [v] in
      match skip_ws r with
      | [] => Unexpected
      | d :: r' =>
          if d =? COMMA then elements acc r'
          else if d =? RIGHT_BRACKET then Parsed (JArr acc) r'
          else Unexpected
      end
  end.

(** The levels, one unit of fuel each. *)
Fixpoint parse_value (fuel : nat) (s : jsstring) : parse_result json :=
  match fuel with
  | O => OutOfFuel
  | S fuel => value_step (parse_members fuel) (parse_elements fuel) s
  end
with parse_members (fuel : nat) (acc : list (jsstring * json)) (s : jsstring) : parse_result json :=
  match fuel with
  | O => OutOfFuel
  | S fuel => members_step (parse_value fuel) (parse_members fuel) acc s
  end
with parse_elements (fuel : nat) (acc : list json) (s : jsstring) : parse_result json :=
  match fuel with
  | O => OutOfFuel
  | S fuel => elements_step (parse_value fuel) (parse_elements fuel) acc s
  end.

(** [JSON.parse(text)]: [None] is the [SyntaxError]. *)
Definition JSON_parse (text : jsstring) : option json :=
  match parse_value (S (2 * length text)) text with
  | Parsed v rest =>
      match skip_ws rest with
      | [] => Some v
      | _ :: _ => None
      end
  | _ => None
  end.

End Parse.
Arguments OutOfFuel {A}.
Arguments Unexpected {A}.

(** ** The instruction texts

    [SYSTEM_PROMPT] (route.ts:3) and [DEVELOPER_PROMPT] (route.ts:23), line by
    line; [dq] is the double quote. *)

Definition dq : jsstring := [DQUOTE].

Definition SYSTEM_PROMPT : jsstring :=
  join LF
    [ js "You are " ++ dq ++ js "Attack Path Reasoning Agent" ++ dq ++ js " " ++ [0x2014] ++ js " a defensive security assistant.";
      js "Goal: help users understand and reduce risk by reasoning about likely attack paths in a system, prioritizing fixes, and running what-if analysis.";
      [];
      js "Strict safety rules:";
      js "- Do NOT provide step-by-step exploitation instructions, weaponized payloads, malware, or instructions to gain unauthorized access.";
      js "- Do NOT output specific exploit code or commands to compromise systems.";
      js "- You MAY discuss vulnerabilities at a high level, risk implications, detection ideas, and remediation/mitigation steps.";
      js "- If the user asks for offensive instructions, refuse and redirect to defensive guidance.";
      [];
      js "Operating principles:";
      js "- Assume the target is an authorized, controlled environment (e.g., deliberately vulnerable demo app).";
      js "- Prefer reasoning and clear explanations over listing generic vulnerabilities.";
      js "- Focus on attack chains (how small issues combine), not just single findings.";
      js "- Be concrete: reference the provided architecture/config/log/code snippets.";
      js "- Be honest about uncertainty; if inputs are missing, state assumptions.";
      [];
      js "Output requirements:";
      js "- Always produce a structured response in the specified JSON format.";
      js "- Keep it actionable for defenders: prioritize fixes by risk reduction and feasibility." ].

Definition DEVELOPER_PROMPT : jsstring :=
  join LF
    [ js "You will receive:";
      js "(A) System description (text), optionally (B) an architecture diagram summary, (C) config/log/code excerpts, and (D) an optional " ++ dq ++ js "what_if" ++ dq ++ js " change.";
      [];
      js "Tasks:";
      js "1) Summarize system components and trust boundaries.";
      js "2) Identify 1" ++ [0x2013] ++ js "3 plausible attacker entry points (defensive, high-level).";
      js "3) Construct up to 2 attack paths (chains) from entry " ++ [0x2192] ++ js " impact.";
      js "   - Each step must be described WITHOUT exploit instructions.";
      js "   - Each step must include: why it is plausible, required preconditions, and defensive signals to watch.";
      js "4) Provide a prioritized mitigation plan that breaks the chain early.";
      js "5) If " ++ dq ++ js "what_if" ++ dq ++ js " is provided, update the attack paths and mitigation priorities accordingly, and explain what changed.";
      [];
      js "Return JSON exactly following this schema:";
      js "{";
      js "  " ++ dq ++ js "system_summary" ++ dq ++ js ": {";
      js "    " ++ dq ++ js "assets" ++ dq ++ js ": [" ++ dq ++ js "..." ++ dq ++ js "],";
      js "    " ++ dq ++ js "components" ++ dq ++ js ": [" ++ dq ++ js "..." ++ dq ++ js "],";
      js "    " ++ dq ++ js "trust_boundaries" ++ dq ++ js ": [" ++ dq ++ js "..." ++ dq ++ js "],";
      js "    " ++ dq ++ js "assumptions" ++ dq ++ js ": [" ++ dq ++ js "..." ++ dq ++ js "]";
      js "  },";
      js "  " ++ dq ++ js "top_risks" ++ dq ++ js ": [";
      js "    {" ++ dq ++ js "risk" ++ dq ++ js ": " ++ dq ++ js "..." ++ dq ++ js ", " ++ dq ++ js "why_it_matters" ++ dq ++ js ": " ++ dq ++ js "..." ++ dq ++ js ", " ++ dq ++ js "likelihood" ++ dq ++ js ": " ++ dq ++ js "low|medium|high" ++ dq ++ js ", " ++ dq ++ js "impact" ++ dq ++ js ": " ++ dq ++ js "low|medium|high" ++ dq ++ js "}";
      js "  ],";
      js "  " ++ dq ++ js "attack_paths" ++ dq ++ js ": [";
      js "    {";
      js "      " ++ dq ++ js "name" ++ dq ++ js ": " ++ dq ++ js "..." ++ dq ++ js ",";
      js "      " ++ dq ++ js "entry_point" ++ dq ++ js ": " ++ dq ++ js "..." ++ dq ++ js ",";
      js "      " ++ dq ++ js "preconditions" ++ dq ++ js ": [" ++ dq ++ js "..." ++ dq ++ js "],";
      js "      " ++ dq ++ js "steps" ++ dq ++ js ": [";
      js "        {";
      js "          " ++ dq ++ js "step" ++ dq ++ js ": 1,";
      js "          " ++ dq ++ js "action_high_level" ++ dq ++ js ": " ++ dq ++ js "..." ++ dq ++ js ",";
      js "          " ++ dq ++ js "why_plausible" ++ dq ++ js ": " ++ dq ++ js "..." ++ dq ++ js ",";
      js "          " ++ dq ++ js "defender_signals" ++ dq ++ js ": [" ++ dq ++ js "..." ++ dq ++ js "],";
      js "          " ++ dq ++ js "mitigations" ++ dq ++ js ": [" ++ dq ++ js "..." ++ dq ++ js "]";
      js "        }";
      js "      ],";
      js "      " ++ dq ++ js "end_impact" ++ dq ++ js ": " ++ dq ++ js "..." ++ dq ++ js ",";
      js "      " ++ dq ++ js "overall_risk" ++ dq ++ js ": " ++ dq ++ js "low|medium|high" ++ dq;
      js "    }";
      js "  ],";
      js "  " ++ dq ++ js "what_if" ++ dq ++ js ": {";
      js "    " ++ dq ++ js "change" ++ dq ++ js ": " ++ dq ++ js "..." ++ dq ++ js ",";
      js "    " ++ dq ++ js "delta_summary" ++ dq ++ js ": [" ++ dq ++ js "..." ++ dq ++ js "],";
      js "    " ++ dq ++ js "updated_risks" ++ dq ++ js ": [" ++ dq ++ js "..." ++ dq ++ js "]";
      js "  },";
      js "  " ++ dq ++ js "priority_fixes" ++ dq ++ js ": [";
      js "    {" ++ dq ++ js "fix" ++ dq ++ js ": " ++ dq ++ js "..." ++ dq ++ js ", " ++ dq ++ js "breaks_chain_at" ++ dq ++ js ": " ++ dq ++ js "path_name:step#" ++ dq ++ js ", " ++ dq ++ js "effort" ++ dq ++ js ": " ++ dq ++ js "low|medium|high" ++ dq ++ js ", " ++ dq ++ js "risk_reduction" ++ dq ++ js ": " ++ dq ++ js "low|medium|high" ++ dq ++ js "}";
      js "  ],";
      js "  " ++ dq ++ js "safe_notes" ++ dq ++ js ": [" ++ dq ++ js "..." ++ dq ++ js "]";
      js "}";
      [];
      js "Formatting rules:";
      js "- No markdown fences in the final output, only JSON.";
      js "- No offensive payloads, no commands for compromise.";
      js "- Keep each string concise; this is for an interactive demo UI." ].

(** ** The world outside the handler

    The process environment, the model backend behind [fetch], and the record
    of the calls made to it. The backend answers the [n]-th call (from 0) to a
    request either by failing the network call, or with a response. *)

Record ProcessEnv := {
  GEMINI_API_KEY : option jsstring;
  GEMINI_MODEL : option jsstring
}.

(** [{ role, parts: [{ text }] }] *)
Record Message := {
  role : jsstring;
  msg_parts : list Part
}.

Record GenerationConfig := {
  temperature : jsstring;      (* the decimal literal *)
  maxOutputTokens : N
}.

(** The arguments of one [fetch]; the body is kept as the object that
    [JSON.stringify] is applied to, whose serialization always completes: it
    is nested five deep, less than the schema. *)
Record FetchCall := {
  url : jsstring;
  method : jsstring;
  headers : list (jsstring * jsstring);
  contents : list Message;
  generationConfig : GenerationConfig
}.

(** A [Response] of [fetch]: its status and what [text()] and [json()]
    resolve to, or reject with. *)
Record FetchResponse := {
  status : N;
  response_text : thrown + jsstring;
  response_json : thrown + GeminiResponse
}.

(** [response.ok] *)
Definition ok (response : FetchResponse) : bool :=
  (200 <=? status response) && (status response <=? 299).

Definition Backend := nat -> FetchCall -> thrown + FetchResponse.

Record World := {
  env : ProcessEnv;
  backend : Backend;
  calls : list FetchCall
}.

(** A computation that reads and changes the world and returns, or throws. *)
Definition M (A : Type) : Type := World -> (thrown + A) * World.

Definition ret {A} (a : A) : M A := fun w => (inr a, w).

Definition throw {A} (e : thrown) : M A := fun w => (inl e, w).

Definition bind {A B} (m : M A) (k : A -> M B) : M B :=
  fun w =>
    match m w with
    | (inl e, w') => (inl e, w')
    | (inr a, w') => k a w'
    end.

Notation "x <- m ;; k" := (bind m (fun x => k))
  (at level 61, m at next level, right associativity).

(** [try { m } catch (error) { handler }] *)
Definition try_catch {A} (m : M A) (handler : thrown -> M A) : M A :=
  fun w =>
    match m w with
    | (inl e, w') => handler e w'
    | (inr a, w') => (inr a, w')
    end.

(** An operation that returns or throws without touching the world. *)
Definition settle {A} (r : thrown + A) : M A := fun w => (r, w).

(** [process.env] *)
Definition process_env : M ProcessEnv := fun w => (inr (env w), w).

(** [await fetch(...)]: the call is recorded, the backend answers. *)
Definition fetch (call : FetchCall) : M FetchResponse :=
  fun w =>
    (backend w (length (calls w)) call,
     {| env := env w; backend := backend w; calls := calls w ++ [call] |}).

(** ** The Model Client and the JSON Resolver *)

Section Route.
Context `{Engine}.

Definition text_part (t : jsstring) : Part := {| text := Some t |}.

(** [callGemini], route.ts:148 *)
Definition callGemini (apiKey model : jsstring) (messages : list Message) : M GeminiResponse :=
  response <- fetch
    {| url := js "https://generativelanguage.googleapis.com/v1beta/models/" ++ model ++
              js ":generateContent?key=" ++ apiKey;
       method := js "POST";
       headers := [(js "Content-Type", js "application/json")];
       contents := messages;
       generationConfig := {| temperature := js "0.3"; maxOutputTokens := 2048 |} |} ;;
  if negb (ok response) then
    details <- settle (response_text response) ;;
    throw (ErrorObject (js "Gemini API error: " ++ decimal (status response) ++
                        js " " ++ details))
  else
    settle (response_json response).

(** [{ parsed, raw }] *)
Record Resolved := {
  parsed : json;
  raw : jsstring
}.

(** [JSON.parse(text)] inside [try]: the [SyntaxError] as a thrown value. *)
Definition JSON_parse_or_throw (t : jsstring) : thrown + json :=
  match JSON_parse t with
  | Some v => inr v
  | None => inl (raise (JSON_SyntaxError t))
  end.

(** [a || b] on strings *)
Definition or_else (a b : jsstring) : jsstring :=
  match a with [] => b | _ :: _ => a end.

(** [parseGeminiJson], route.ts:174 *)
Definition parseGeminiJson (apiKey model userPrompt : jsstring) : M Resolved :=
  let baseMessages :=
    [ {| role := js "system"; msg_parts := [text_part SYSTEM_PROMPT] |};
      {| role := js "user"; msg_parts := [text_part DEVELOPER_PROMPT] |};
      {| role := js "user"; msg_parts := [text_part userPrompt] |} ] in
  initialResponse <- callGemini apiKey model baseMessages ;;
  let initialText := extractText initialResponse in
  try_catch
    (v <- settle (JSON_parse_or_throw initialText) ;;
     ret {| parsed := v; raw := initialText |})
    (fun _ =>
       let repairMessages :=
         [ {| role := js "system"; msg_parts := [text_part SYSTEM_PROMPT] |};
           {| role := js "user";
              msg_parts := [text_part (js "Return valid JSON only matching the required schema. Fix the following output.")] |};
           {| role := js "user"; msg_parts := [text_part initialText] |} ] in
       repairResponse <- callGemini apiKey model repairMessages ;;
       let repairText := extractText repairResponse in
       try_catch
         (v <- settle (JSON_parse_or_throw repairText) ;;
          ret {| parsed := v; raw := repairText |})
         (fun _ => throw (ErrorObject (or_else repairText initialText)))).

(** ** The handler *)

(** What the response of [NextResponse.json(body, { status })] carries. *)
Record NextResponse := {
  response_body : json;
  response_status : N
}.

Definition NextResponse_json (body : json) (status : N) : NextResponse :=
  {| response_body := body; response_status := status |}.

(** The call [NextResponse.json(body, { status })]: the body is serialized
    at once, as by [JSON.stringify(body)], and what that throws is thrown;
    the text, written without indentation, is not kept here. *)
Definition respond (body : json) (status : N) : M NextResponse :=
  settle match JSON_stringify_2 body with
         | inl e => inl e
         | inr _ => inr (NextResponse_json body status)
         end.

Definition NOTE : jsstring := js "Some potentially unsafe terms were redacted.".

Definition SAFE_NOTES : jsstring := js "safe_notes".

(** The statement of route.ts:255,
    [sanitizedJson.safe_notes = Array.isArray(sanitizedJson.safe_notes) ? [NOTE, ...sanitizedJson.safe_notes] : [NOTE]],
    on each kind of value. An object takes the property. An array takes it
    too, as a property that is not an element, which the serialization of the
    response leaves out. On [null] the property read throws, and on a string,
    number or boolean the write throws, the module being in strict mode. *)
Definition prepend_note (sanitizedJson : json) : thrown + json :=
  match sanitizedJson with
  | JObj props =>
      let notes :=
        match get_own props SAFE_NOTES with
        | Some (JArr safe_notes) => JStr NOTE :: safe_notes
        | _ => [JStr NOTE]
        end in
      inr (JObj (set_own props SAFE_NOTES (JArr notes)))
  | JArr items => inr (JArr items)
  | JNull => inl (raise (ReadOfNullish SAFE_NOTES))
  | JBool _ | JNum _ | JStr _ => inl (raise (WriteOnPrimitive SAFE_NOTES))
  end.

(** The Redaction Filter: route.ts:250-258, the statements of [POST] between
    the resolver and the response. *)
Definition redaction_filter (parsed : json) : thrown + json :=
  match JSON_stringify_2 parsed with
  | inl e => inl e
  | inr rawString =>
      let (sanitized, redacted) := sanitizeOutput rawString in
      match JSON_parse_or_throw sanitized with
      | inl e => inl e
      | inr sanitizedJson =>
          if redacted then prepend_note sanitizedJson else inr sanitizedJson
      end
  end.

(** The incoming request: what [await request.json()] resolves to, cast to
    [AnalysisInput], or rejects with. *)
Record Request := {
  request_json : thrown + AnalysisInput
}.

Definition error_body (error : jsstring) : json := JObj [(js "error", JStr error)].

(** The body of the [catch] of [POST]; [raw_output: undefined] is left out by
    the serialization. *)
Definition failure_body (error : thrown) : json :=
  match error with
  | ErrorObject message =>
      JObj [(js "error", JStr (js "Failed to analyze attack paths."));
            (js "details", JStr message);
            (js "raw_output", JStr message)]
  | NotAnError =>
      JObj [(js "error", JStr (js "Failed to analyze attack paths."));
            (js "details", JStr (js "Unknown error."))]
  end.

(** [POST], route.ts:222 *)
Definition POST (request : Request) : M NextResponse :=
  try_catch
    (penv <- process_env ;;
     let apiKey := GEMINI_API_KEY penv in
     let model := GEMINI_MODEL penv ?? js "gemini-3" in
     if falsy apiKey then
       respond (error_body (js "Missing GEMINI_API_KEY environment variable.")) 500
     else
       let apiKey := apiKey ?? [] in
       body <- settle (request_json request) ;;
       if falsy (tested (system_text body)) ||
          Nat.eqb (length (trim (tested (system_text body) ?? []))) 0
       then
         respond (error_body (js "System snapshot is required.")) 400
       else
         total <- settle match totalInputLength body with
                         | Some n => inr n
                         | None => inl (raise (ReadOfNullish (js "length")))
                         end ;;
         if MAX_TOTAL_CHARS <? total then
           respond
             (error_body (js "Input too large. Please keep total input under 25k characters."))
             400
         else
           let userPrompt := buildUserPrompt body in
           resolved <- parseGeminiJson apiKey model userPrompt ;;
           sanitizedJson <- settle (redaction_filter (parsed resolved)) ;;
           respond sanitizedJson 200)
    (fun error => respond (failure_body error) 500).

End Route.

(** ** The page: [HomePage], the caller of the route

    The state of the component (its [useState] cells) as a record, and its
    event handlers as functions on the state. The route is seen from the page
    as [api]: what [fetch("/api/analyze", ...)] resolves to for the object
    whose serialization is the body of the request, or rejects with. *)

Module Page.

Inductive TabKey := Summary | AttackPaths | PriorityFixes | WhatChanged.

(** What [fetch] resolves to: [response.ok] and what [response.json()]
    resolves to, or rejects with. *)
Record ApiResponse `{Engine} := {
  api_ok : bool;
  api_json : thrown + json
}.

Record State `{Engine} := {
  systemText : jsstring;
  diagramSummary : jsstring;
  configSnippet : jsstring;
  logSnippet : jsstring;
  codeSnippet : jsstring;
  analysis : option json;
  error : option json;
  loading : bool;
  activeTab : TabKey;
  rawOutput : option jsstring;
  lastWhatIf : option jsstring
}.

Section HomePage.
Context `{Engine}.

Definition initial : State :=
  {| systemText := []; diagramSummary := []; configSnippet := []; logSnippet := [];
     codeSnippet := []; analysis := None; error := None; loading := false;
     activeTab := Summary; rawOutput := None; lastWhatIf := None |}.

Definition setAnalysis (v : option json) (st : State) : State :=
  {| systemText := systemText st; diagramSummary := diagramSummary st;
     configSnippet := configSnippet st; logSnippet := logSnippet st;
     codeSnippet := codeSnippet st; analysis := v; error := error st;
     loading := loading st; activeTab := activeTab st; rawOutput := rawOutput st;
     lastWhatIf := lastWhatIf st |}.

Definition setError (v : option json) (st : State) : State :=
  {| systemText := systemText st; diagramSummary := diagramSummary st;
     configSnippet := configSnippet st; logSnippet := logSnippet st;
     codeSnippet := codeSnippet st; analysis := analysis st; error := v;
     loading := loading st; activeTab := activeTab st; rawOutput := rawOutput st;
     lastWhatIf := lastWhatIf st |}.

Definition setLoading (v : bool) (st : State) : State :=
  {| systemText := systemText st; diagramSummary := diagramSummary st;
     configSnippet := configSnippet st; logSnippet := logSnippet st;
     codeSnippet := codeSnippet st; analysis := analysis st; error := error st;
     loading := v; activeTab := activeTab st; rawOutput := rawOutput st;
     lastWhatIf := lastWhatIf st |}.

Definition setActiveTab (v : TabKey) (st : State) : State :=
  {| systemText := systemText st; diagramSummary := diagramSummary st;
     configSnippet := configSnippet st; logSnippet := logSnippet st;
     codeSnippet := codeSnippet st; analysis := analysis st; error := error st;
     loading := loading st; activeTab := v; rawOutput := rawOutput st;
     lastWhatIf := lastWhatIf st |}.

Definition setRawOutput (v : option jsstring) (st : State) : State :=
  {| systemText := systemText st; diagramSummary := diagramSummary st;
     configSnippet := configSnippet st; logSnippet := logSnippet st;
     codeSnippet := codeSnippet st; analysis := analysis st; error := error st;
     loading := loading st; activeTab := activeTab st; rawOutput := v;
     lastWhatIf := lastWhatIf st |}.

Definition setLastWhatIf (v : option jsstring) (st : State) : State :=
  {| systemText := systemText st; diagramSummary := diagramSummary st;
     configSnippet := configSnippet st; logSnippet := logSnippet st;
     codeSnippet := codeSnippet st; analysis := analysis st; error := error st;
     loading := loading st; activeTab := activeTab st; rawOutput := rawOutput st;
     lastWhatIf := v |}.

(** A parsed payload as a state value: the JSON [null] is the [null] of the
    state. *)
Definition nullable (payload : json) : option json :=
  match payload with
  | JNull => None
  | _ => Some payload
  end.

(** [isAnalyzeDisabled], page:109 *)
Definition isAnalyzeDisabled (st : State) : bool :=
  loading st || Nat.eqb (length (trim (systemText st))) 0.

(** The object of page:130-140 whose serialization is the body of the
    request; it is nested two deep, and the serialization completes. *)
Definition request_body (st : State) (whatIf : option jsstring) : AnalysisInput :=
  {| project_name := Some (js "ChainBreak AI");
     system_text := Present (systemText st);
     diagram_summary := Some (diagramSummary st);
     snippets := Some {| config := Some (configSnippet st);
                         logs := Some (logSnippet st);
                         code := Some (codeSnippet st) |};
     what_if := whatIf |}.

(** The [catch] of [runAnalysis], page:153-158 *)
Definition request_failed (requestError : thrown) (st : State) : State :=
  let st :=
    setError
      (Some (JObj [(js "error", JStr (js "Unable to reach the analysis service."));
                   (js "details",
                    JStr match requestError with
                         | ErrorObject message => message
                         | NotAnError => js "Unknown error."
                         end)]))
      st in
  setAnalysis None st.

(** [runAnalysis], page:118, run to its end; the state updates are applied in
    the order in which they are requested. *)
Definition runAnalysis (api : AnalysisInput -> thrown + ApiResponse)
    (whatIf : option jsstring) (st : State) : State :=
  let body := request_body st whatIf in
  let st := setLoading true st in
  let st := setError None st in
  let st := setRawOutput None st in
  let st := setLastWhatIf whatIf st in
  let st :=
    match api body with
    | inl requestError => request_failed requestError st
    | inr response =>
        match api_json response with
        | inl requestError => request_failed requestError st
        | inr payload =>
            if negb (api_ok response) then
              let st := setError (nullable payload) st in
              setAnalysis None st
            else
              let st := setAnalysis (nullable payload) st in
              setActiveTab Summary st
        end
    end in
  setLoading false st.

End HomePage.

End Page.

(** ** Notions the properties are stated with *)

(** A code unit that [QuoteJSONString] writes as it is, whatever is next to
    it. *)
Definition plain (c : code_unit) : bool :=
  negb (c <? 32) && negb (c =? DQUOTE) && negb (c =? BACKSLASH) &&
  negb ((0xD800 <=? c) && (c <=? 0xDFFF)).

(** The code units the keywords are written with: small letters, the space,
    the hyphen and the full stop. *)
Definition keyword_unit (c : code_unit) : bool :=
  ((97 <=? c) && (c <=? 122)) || (c =? 32) || (c =? 45) || (c =? FULL_STOP).

(** No match of the pattern of the keyword can overlap a redaction marker. *)
Definition keyword_apart (k : jsstring) : Prop := apart (compile k) REDACTED = true.

(** A part of the parser that, on the text [s], does not run out of fuel and
    reads at least one code unit. *)
Definition fuelled {A : Type} (run : jsstring -> parse_result A) (s : jsstring) : Prop :=
  run s <> OutOfFuel /\
  forall v rest, run s = Parsed v rest -> (length rest < length s)%nat.

(** The world after one more call. *)
Definition record_call (w : World) (call : FetchCall) : World :=
  {| env := env w; backend := backend w; calls := calls w ++ [call] |}.

(** The request the Model Client sends for a sequence of messages. *)
Definition generate_call (apiKey model : jsstring) (messages : list Message) : FetchCall :=
  {| url := js "https://generativelanguage.googleapis.com/v1beta/models/" ++ model ++
            js ":generateContent?key=" ++ apiKey;
     method := js "POST";
     headers := [(js "Content-Type", js "application/json")];
     contents := messages;
     generationConfig := {| temperature := js "0.3"; maxOutputTokens := 2048 |} |}.

(** The primary prompt: the safety instruction, the task instruction, the
    user content. *)
Definition primary_messages (userPrompt : jsstring) : list Message :=
  [ {| role := js "system"; msg_parts := [{| text := Some SYSTEM_PROMPT |}] |};
    {| role := js "user"; msg_parts := [{| text := Some DEVELOPER_PROMPT |}] |};
    {| role := js "user"; msg_parts := [{| text := Some userPrompt |}] |} ].

(** The repair prompt: the safety instruction, the repair directive, the text
    to repair. *)
Definition repair_messages (initialText : jsstring) : list Message :=
  [ {| role := js "system"; msg_parts := [{| text := Some SYSTEM_PROMPT |}] |};
    {| role := js "user";
       msg_parts := [{| text := Some (js "Return valid JSON only matching the required schema. Fix the following output.") |}] |};
    {| role := js "user"; msg_parts := [{| text := Some initialText |}] |} ].

(** The answer of the backend to the next call of a world. *)
Definition next_answer (w : World) (call : FetchCall) : thrown + FetchResponse :=
  backend w (length (calls w)) call.

(** The two calls of the resolver for a user prompt, the second for the text
    extracted from the first answer. *)
Definition primary_call (apiKey model userPrompt : jsstring) : FetchCall :=
  generate_call apiKey model (primary_messages userPrompt).

Definition repair_call (apiKey model initialText : jsstring) : FetchCall :=
  generate_call apiKey model (repair_messages initialText).

(** A text made of white space and line terminators only; the empty text is
    one. *)
Definition whitespace_only (s : jsstring) : bool := forallb isTrimmed s.

(** A [system_text] that is missing, empty or white space only. *)
Definition missing_or_blank (o : nullable jsstring) : bool :=
  match o with
  | Undefined | Null => true
  | Present st => whitespace_only st
  end.

(** The length of an optional text, 0 when it is absent. *)
Definition text_length (o : option jsstring) : N :=
  match o with
  | Some s => N.of_nat (length s)
  | None => 0
  end.

(** A field of the optional [snippets]. *)
Definition snippet (body : AnalysisInput) (field : Snippets -> option jsstring) : option jsstring :=
  match snippets body with
  | Some sn => field sn
  | None => None
  end.

(** The sum of the lengths of [system_text], [diagram_summary] and the three
    snippets. *)
Definition counted_length (body : AnalysisInput) : N :=
  text_length (tested (system_text body)) + text_length (diagram_summary body) +
  text_length (snippet body config) + text_length (snippet body logs) +
  text_length (snippet body code).

(** The sum of the lengths of all the text fields, [what_if] included. *)
Definition all_text_length (body : AnalysisInput) : N :=
  counted_length body + text_length (what_if body).

(** The text fragments of the content of the first candidate of a response,
    in order; none when there is no candidate, no content or no parts. *)
Definition text_fragments (response : GeminiResponse) : list jsstring :=
  match candidates response with
  | Some (first :: _) =>
      match content first with
      | Some c =>
          match parts c with
          | Some ps => flat_map (fun part => match text part with
                                             | Some t => [t]
                                             | None => []
                                             end) ps
          | None => []
          end
      | None => []
      end
  | _ => []
  end.

(** The user-content block with its six texts filled in. *)
Definition user_content_block (system_text diagram_summary config logs code what_if : jsstring)
  : jsstring :=
  js "system_text:" ++ LF ++ system_text ++ LF ++ LF ++
  js "diagram_summary:" ++ LF ++ diagram_summary ++ LF ++ LF ++
  js "snippets:" ++ LF ++
  js "config:" ++ LF ++ config ++ LF ++
  js "logs:" ++ LF ++ logs ++ LF ++
  js "code:" ++ LF ++ code ++ LF ++ LF ++
  js "what_if:" ++ LF ++ what_if.

(** An optional text, empty when absent. *)
Definition or_empty (o : option jsstring) : jsstring :=
  match o with
  | Some s => s
  | None => []
  end.

(** The what-if text, or the marker when there is none. *)
Definition what_if_or_NONE (o : option jsstring) : jsstring :=
  match o with
  | Some s => s
  | None => js "NONE"
  end.

(** No pattern of the list matches the text. *)
Definition unmatched (t : jsstring) : bool :=
  forallb (fun k => negb (occurs (compile k) t)) EXPLOIT_KEYWORDS.

(** A text that neither begins nor ends with white space or a line
    terminator. *)
Definition tight (s : jsstring) : Prop :=
  match s with [] => True | c :: _ => isTrimmed c = false end /\
  match rev s with [] => True | c :: _ => isTrimmed c = false end.

(** The redaction marker, as the design gives it. *)
Definition MARKER : jsstring := js "[redacted]".

(** A text that the pattern matches from its first code unit to its last. *)
Definition matched (p : pattern) (m : jsstring) : Prop :=
  length m = length p /\ match_at p m = true.

(** [t] is [s] with every occurrence of the keyword replaced by the marker:
    going through [s] from the left, a text that the pattern of the keyword
    matches gives way to the marker, and a code unit at which no match begins
    is kept. *)
Inductive replaced (k : jsstring) : jsstring -> jsstring -> Prop :=
| replaced_end : replaced k [] []
| replaced_occurrence (m s t : jsstring) :
    matched (compile k) m -> replaced k s t -> replaced k (m ++ s) (MARKER ++ t)
| replaced_kept (c : code_unit) (s t : jsstring) :
    match_at (compile k) (c :: s) = false -> replaced k s t ->
    replaced k (c :: s) (c :: t).

(** The same for each keyword of a list in turn, each on the text the one
    before has left. *)
Inductive replaced_in_turn : list jsstring -> jsstring -> jsstring -> Prop :=
| in_turn_nil (s : jsstring) : replaced_in_turn [] s s
| in_turn_cons (k : jsstring) (ks : list jsstring) (s t u : jsstring) :
    replaced k s t -> replaced_in_turn ks t u -> replaced_in_turn (k :: ks) s u.

(** The marker stands somewhere in the text. *)
Definition marked (s : jsstring) : Prop := exists a b, s = a ++ MARKER ++ b.

Section Notions.
Context `{Engine}.

(** The strings of a value: the string values at any depth. *)
Fixpoint string_fields (v : json) : list jsstring :=
  match v with
  | JStr s => [s]
  | JArr items => flat_map string_fields items
  | JObj props => flat_map (fun kv => string_fields (snd kv)) props
  | _ => []
  end.

(** The [safe_notes] sequence of an object, empty when the property is absent
    or is not an array. *)
Definition safe_notes_of (props : list (jsstring * json)) : list json :=
  match get_own props SAFE_NOTES with
  | Some (JArr notes) => notes
  | _ => []
  end.

(** The test of route.ts:236 *)
Definition blank (body : AnalysisInput) : bool :=
  falsy (tested (system_text body)) ||
  Nat.eqb (length (trim (tested (system_text body) ?? []))) 0.

Definition CONFIGURATION_ERROR : NextResponse :=
  NextResponse_json (error_body (js "Missing GEMINI_API_KEY environment variable.")) 500.

Definition SNAPSHOT_REQUIRED : NextResponse :=
  NextResponse_json (error_body (js "System snapshot is required.")) 400.

Definition INPUT_TOO_LARGE : NextResponse :=
  NextResponse_json
    (error_body (js "Input too large. Please keep total input under 25k characters.")) 400.

Definition failure (e : thrown) : NextResponse := NextResponse_json (failure_body e) 500.

(** The [error] field of the body of a response. *)
Definition error_field (r : NextResponse) : option json :=
  match response_body r with
  | JObj props => get_own props (js "error")
  | _ => None
  end.

(** The [details] field of the body of a response. *)
Definition details_field (r : NextResponse) : option json :=
  match response_body r with
  | JObj props => get_own props (js "details")
  | _ => None
  end.

(** The caller can tell the two responses apart by status or by the error
    summary. *)
Definition surfaced_distinctly (on_transport on_backend : NextResponse) : Prop :=
  response_status on_transport <> response_status on_backend \/
  error_field on_transport <> error_field on_backend.

(** A failure response: status 400 or 500, with a non-empty [error] text. *)
Definition is_failure_response (r : NextResponse) : Prop :=
  (response_status r = 400 \/ response_status r = 500) /\
  exists message, error_field r = Some (JStr message) /\ message <> [].

(** A mitigation that names no keyword of the list. *)
Definition cmd_execution_advice : json :=
  JObj [(js "mitigations", JArr [JStr (js "Restrict cmd execution on servers")])].

(** The value with the properties of every object set again, one after the
    other, on an empty object: what a parser that reads the serialization
    builds. *)
Fixpoint normalize (v : json) : json :=
  match v with
  | JArr items => JArr (map normalize items)
  | JObj props =>
      JObj (fold_left (fun acc kv => set_own acc (fst kv) (normalize (snd kv))) props [])
  | _ => v
  end.

(** The text of one member of an object. *)
Definition member_text (indent : jsstring) (kv : jsstring * json) : jsstring :=
  QuoteJSONString (fst kv) ++ js ":" ++ js " " ++ SerializeJSONProperty indent (snd kv).

(** A property set with its value normalized. *)
Definition normalized_set (acc : list (jsstring * json)) (kv : jsstring * json)
  : list (jsstring * json) :=
  set_own acc (fst kv) (normalize (snd kv)).

(** What can follow a value in a serialization: the end of the text, a comma
    or a line feed. *)
Definition follows (rest : jsstring) : Prop :=
  match rest with
  | [] => True
  | c :: _ => c = COMMA \/ c = 10
  end.

(** A Number that [JSON.stringify] writes as a number token which reads back
    as the same Number (a finite Number other than negative zero). *)
Definition survives (n : number) : Prop :=
  StringToNumber (NumberToJSON n) = n /\
  forall rest, follows rest ->
    scan_number (NumberToJSON n ++ rest) = Some (NumberToJSON n, rest).

(** All the Numbers of a value survive. *)
Fixpoint numbers_survive (v : json) : Prop :=
  match v with
  | JNum n => survives n
  | JArr items => fold_right (fun item P => numbers_survive item /\ P) True items
  | JObj props => fold_right (fun kv P => numbers_survive (snd kv) /\ P) True props
  | _ => True
  end.

(** [run'] agrees with [run] wherever [run] does not run out of fuel. *)
Definition more1 {X A} (run run' : X -> parse_result A) : Prop :=
  forall x, run x <> OutOfFuel -> run' x = run x.

Definition more2 {X Y A} (run run' : X -> Y -> parse_result A) : Prop :=
  forall x y, run x y <> OutOfFuel -> run' x y = run x y.

(** A text of JSON white space. *)
Definition blanks (ws : jsstring) : Prop := forallb isJSONWhiteSpace ws = true.

(** The first code unit of a value: no white space and no closing bracket. *)
Definition opens_value (t : jsstring) : Prop :=
  match t with
  | [] => False
  | c :: _ => isJSONWhiteSpace c = false /\ c <> RIGHT_BRACE /\ c <> RIGHT_BRACKET
  end.

(** The serialization of the value, followed by anything that can follow a
    value, reads back as the normalized value. *)
Definition reads_back (v : json) : Prop :=
  numbers_survive v ->
  forall indent rest, blanks indent -> follows rest ->
  exists fuel,
    parse_value fuel (SerializeJSONProperty indent v ++ rest) = Parsed (normalize v) rest.

(** The keys of the properties of an object, in order. *)
Definition keys (props : list (jsstring * json)) : list jsstring := map fst props.

(** [a] is enumerated before [b]: they differ, an array index comes before a
    key that is none, and a smaller index before a larger one. *)
Definition precedes (a b : jsstring) : Prop :=
  a <> b /\
  match array_index a, array_index b with
  | Some i, Some j => i < j
  | Some _, None => True
  | None, Some _ => False
  | None, None => True
  end.

(** Keys in the order of [OrdinaryOwnPropertyKeys], without repetition. *)
Definition enumerated (ks : list jsstring) : Prop := ForallOrdPairs precedes ks.

(** A value as the engine holds it: normalizing changes nothing. *)
Definition normal (v : json) : Prop := normalize v = v.

(** A digit string that is empty or does not begin with 0. *)
Definition proper (ds : jsstring) : Prop :=
  forallb isDigit ds = true /\
  match ds with
  | [] => True
  | d :: _ => d <> 48
  end.

(** The answer of the backend to the last call of the resolver: to the
    primary call, or, after a first answer whose text does not parse, to the
    repair call. *)
Definition last_answer (w : World) (apiKey model userPrompt : jsstring)
    (answer : thrown + FetchResponse) : Prop :=
  next_answer w (primary_call apiKey model userPrompt) = answer \/
  exists response1 g1,
    next_answer w (primary_call apiKey model userPrompt) = inr response1 /\
    ok response1 = true /\
    response_json response1 = inr g1 /\
    JSON_parse (extractText g1) = None /\
    next_answer (record_call w (primary_call apiKey model userPrompt))
      (repair_call apiKey model (extractText g1)) = answer.

(** The response for an error that was thrown with a message: status 500,
    the summary, and the message as [details] and as [raw_output]. *)
Definition reported (message : jsstring) : NextResponse :=
  {| response_body :=
       JObj [(js "error", JStr (js "Failed to analyze attack paths."));
             (js "details", JStr message);
             (js "raw_output", JStr message)];
     response_status := 500 |}.

(** What ends a run of the handler before a success. *)
Inductive internal_error :=
| ConfigurationError                     (* the key is not set *)
| ValidationError (message : jsstring)   (* the request is refused *)
| ThrownError (e : thrown).              (* a request that cannot be read, a transport,
                                            backend or parse error, an error of the filter *)

(** The message of a thrown value as the handler reports it. *)
Definition message_of (e : thrown) : jsstring :=
  match e with
  | ErrorObject message => message
  | NotAnError => js "Unknown error."
  end.

(** The stages of a run in their order: configuration, reading the request,
    validation, the resolver, the redaction filter, the serialization of the
    response. The first error ends the run; without one the run ends with the
    filtered value. *)
Definition stages (request : Request) (w : World) : internal_error + json :=
  match GEMINI_API_KEY (env w) with
  | None | Some [] => inl ConfigurationError
  | Some (c :: apiKey) =>
      match request_json request with
      | inl e => inl (ThrownError e)
      | inr body =>
          if missing_or_blank (system_text body) then
            inl (ValidationError (js "System snapshot is required."))
          else if 25000 <? counted_length body then
            inl (ValidationError
                   (js "Input too large. Please keep total input under 25k characters."))
          else
            match fst (parseGeminiJson (c :: apiKey)
                         (match GEMINI_MODEL (env w) with
                          | Some model => model
                          | None => js "gemini-3"
                          end)
                         (buildUserPrompt body) w) with
            | inl e => inl (ThrownError e)
            | inr resolved =>
                match redaction_filter (parsed resolved) with
                | inl e => inl (ThrownError e)
                | inr sanitizedJson =>
                    match JSON_stringify_2 sanitizedJson with
                    | inl e => inl (ThrownError e)
                    | inr _ => inr sanitizedJson
                    end
                end
            end
      end
  end.

End Notions.


(** ** Sample data

    An engine that keeps a Number as its token, and worlds, requests and
    values on which the statements below are run. *)

Module Sample.

Definition engine : Engine :=
  {| number := jsstring;
     StringToNumber := fun token => token;
     NumberToJSON := fun n => n;
     fault_message := fun f =>
       match f with
       | JSON_SyntaxError _ => js "Unexpected token in JSON"
       | ReadOfNullish p => js "Cannot read properties of null (reading '" ++ p ++ js "')"
       | WriteOnPrimitive p => js "Cannot create property '" ++ p ++ js "'"
       | StackExhausted => js "Maximum call stack size exceeded"
       end;
     stack_depth := 1000;
     stack_depth_ample := eq_refl |}.

Definition key : jsstring := js "k-123".
Definition model : jsstring := js "gemini-3".
Definition configured : ProcessEnv :=
  {| GEMINI_API_KEY := Some key; GEMINI_MODEL := None |}.

(** A backend response with one candidate made of the given fragments. *)
Definition candidate_of (fragments : list jsstring) : GeminiResponse :=
  {| candidates :=
       Some [{| content := Some {| parts := Some (map (fun t => {| text := Some t |}) fragments) |} |}] |}.

Definition success (fragments : list jsstring) : thrown + FetchResponse :=
  inr {| status := 200;
         response_text := inr [];
         response_json := inr (candidate_of fragments) |}.

(** The text [{"ok": true}] *)
Definition valid_text : jsstring := js "{" ++ dq ++ js "ok" ++ dq ++ js ": true}".

(** A backend whose every answer is valid JSON. *)
Definition obedient : World :=
  {| env := configured;
     backend := fun _ _ => success [valid_text];
     calls := [] |}.

(** A backend that never answers with JSON: prose first, nothing after. *)
Definition stubborn : World :=
  {| env := configured;
     backend := fun n _ => match n with
                           | O => success [js "not json"]
                           | _ => success []
                           end;
     calls := [] |}.

(** A backend that cannot be reached. *)
Definition unreachable : World :=
  {| env := configured;
     backend := fun _ _ => inl (ErrorObject (js "fetch failed"));
     calls := [] |}.

(** A backend that answers 503. *)
Definition overloaded : World :=
  {| env := configured;
     backend := fun _ _ => inr {| status := 503;
                                  response_text := inr (js "overloaded");
                                  response_json := inl (ErrorObject (js "Unexpected token")) |};
     calls := [] |}.

Definition input (st : jsstring) (wi : option jsstring) : AnalysisInput :=
  {| project_name := Some (js "ChainBreak AI");
     system_text := Present st;
     diagram_summary := Some [];
     snippets := Some {| config := Some []; logs := Some []; code := Some [] |};
     what_if := wi |}.

(** A text of 25000 code units. *)
Definition long_text : jsstring := repeat 120 (N.to_nat 25000).

Definition request (st : jsstring) (wi : option jsstring) : Request :=
  {| request_json := inr (input st wi) |}.

(** A note with a carriage return before [everse shell]: the text
    [{"note": "payload \reverse shell"}] parses to it. *)
Definition carriage_return_note : json (H := engine) :=
  JObj [(js "note", JStr (js "payload " ++ [13] ++ js "everse shell"))].

(** An array around the object, where an object was asked for. *)
Definition array_of_advice : json (H := engine) :=
  JArr [JObj [(js "mitigations", JStr (js "use metasploit to gain access"))]].

(** The text [{"note": "payload \reverse shell"}], as a model may write it. *)
Definition carriage_return_text : jsstring :=
  js "{" ++ dq ++ js "note" ++ dq ++ js ": " ++ dq ++ js "payload " ++ [BACKSLASH] ++
  js "reverse shell" ++ dq ++ js "}".

(** The text [[{"mitigations": "use metasploit to gain access"}]] *)
Definition array_of_advice_text : jsstring :=
  js "[{" ++ dq ++ js "mitigations" ++ dq ++ js ": " ++ dq ++
  js "use metasploit to gain access" ++ dq ++ js "}]".

(** The text [{"mitigations": ["Restrict cmd execution on servers"]}] *)
Definition cmd_execution_text : jsstring :=
  js "{" ++ dq ++ js "mitigations" ++ dq ++ js ": [" ++ dq ++
  js "Restrict cmd execution on servers" ++ dq ++ js "]}".

(** A backend that answers with prose first and with valid JSON after. *)
Definition corrected : World :=
  {| env := configured;
     backend := fun n _ => match n with
                           | O => success [js "not json"]
                           | _ => success [valid_text]
                           end;
     calls := [] |}.

(** A backend that answers with prose first and cannot be reached after. *)
Definition flaky : World :=
  {| env := configured;
     backend := fun n _ => match n with
                           | O => success [js "not json"]
                           | _ => inl (ErrorObject (js "fetch failed"))
                           end;
     calls := [] |}.

(** A backend that answers with white space first and with valid JSON
    after. *)
Definition silent : World :=
  {| env := configured;
     backend := fun n _ => match n with
                           | O => success [js "  "; [10]]
                           | _ => success [valid_text]
                           end;
     calls := [] |}.

(** An environment without the key. *)
Definition unconfigured : World :=
  {| env := {| GEMINI_API_KEY := None; GEMINI_MODEL := Some (js "gemini-pro") |};
     backend := fun _ _ => success [valid_text];
     calls := [] |}.

(** The page after a description was typed into the first text area. *)
Definition typed : Page.State (H := engine) :=
  {| Page.systemText := js "a web shop";
     Page.diagramSummary := [];
     Page.configSnippet := [];
     Page.logSnippet := [];
     Page.codeSnippet := [];
     Page.analysis := None;
     Page.error := None;
     Page.loading := false;
     Page.activeTab := Page.Summary;
     Page.rawOutput := None;
     Page.lastWhatIf := None |}.

End Sample.

(** * Properties *)

Unset Implicit Arguments.

(** ** Strings and matching *)

Lemma jsstring_eqb_eq (a b : jsstring) : jsstring_eqb a b = true <-> a = b.
Proof.
  revert b; induction a as [|x a IH]; intros [|y b]; simpl; split; intro E;
    try discriminate; try reflexivity.
  - apply andb_true_iff in E as [E1 E2].
    apply N.eqb_eq in E1. apply IH in E2. now subst.
  - injection E as -> ->. rewrite N.eqb_refl. now apply IH.
Qed.

Lemma jsstring_eqb_refl (a : jsstring) : jsstring_eqb a a = true.
Proof. now apply jsstring_eqb_eq. Qed.

Lemma jsstring_eqb_neq (a b : jsstring) : jsstring_eqb a b = false <-> a <> b.
Proof.
  split.
  - intros E ->. rewrite jsstring_eqb_refl in E. discriminate.
  - intro N. destruct (jsstring_eqb a b) eqn:E; [|reflexivity].
    apply jsstring_eqb_eq in E. contradiction.
Qed.

Lemma match_at_app (p : pattern) (s t : jsstring) :
  match_at p s = true -> match_at p (s ++ t) = true.
Proof.
  revert s; induction p as [|a p IH]; intros [|c s]; simpl; try easy.
  intro E. apply andb_true_iff in E as [E1 E2].
  rewrite E1. now apply IH.
Qed.

Lemma match_at_length (p : pattern) (s : jsstring) :
  match_at p s = true -> (length p <= length s)%nat.
Proof.
  revert s; induction p as [|a p IH]; intros [|c s]; simpl; try easy; try lia.
  intro E. apply andb_true_iff in E as [_ E]. apply IH in E. lia.
Qed.

Lemma clash_match_at (p : pattern) (x rest : jsstring) :
  clash p x = true -> match_at p (x ++ rest) = false.
Proof.
  revert x; induction p as [|a p IH]; intros [|c x]; simpl; try discriminate.
  intro E. apply orb_true_iff in E as [E|E].
  - apply negb_true_iff in E. now rewrite E.
  - rewrite (IH _ E). apply andb_false_r.
Qed.

Lemma occurs_cons (p : pattern) (c : code_unit) (s : jsstring) :
  occurs p (c :: s) = match_at p (c :: s) || occurs p s.
Proof. reflexivity. Qed.

Lemma occurs_false_tail (p : pattern) (c : code_unit) (s : jsstring) :
  occurs p (c :: s) = false -> occurs p s = false.
Proof. rewrite occurs_cons. intro E. now apply orb_false_iff in E. Qed.

Lemma occurs_false_head (p : pattern) (s : jsstring) :
  occurs p s = false -> match_at p s = false.
Proof. destruct s; simpl; intro E; now apply orb_false_iff in E. Qed.

Lemma occurs_app_r (p : pattern) (a s : jsstring) :
  occurs p s = true -> occurs p (a ++ s) = true.
Proof.
  induction a as [|c a IH]; simpl; [easy|].
  intro E. rewrite (IH E). apply orb_true_r.
Qed.

Lemma occurs_app_l (p : pattern) (s b : jsstring) :
  occurs p s = true -> occurs p (s ++ b) = true.
Proof.
  induction s as [|c s IH].
  - simpl. rewrite orb_false_r. intro E.
    destruct p; [|discriminate]. now destruct b.
  - rewrite <- app_comm_cons, !occurs_cons. intro E.
    apply orb_true_iff in E as [E|E].
    + change (c :: s ++ b) with ((c :: s) ++ b).
      now rewrite (match_at_app _ _ _ E).
    + rewrite (IH E). apply orb_true_r.
Qed.

Lemma search_occurs (p : pattern) (s : jsstring) :
  search p s = None <-> occurs p s = false.
Proof.
  induction s as [|c s IH]; simpl.
  - destruct (match_at p []); simpl; split; easy.
  - destruct (match_at p (c :: s)); simpl; [split; easy|].
    rewrite <- IH. destruct (search p s); simpl; split; easy.
Qed.

(** *** The scan of a replacement *)

Lemma replace_from_skip (p : pattern) (r : jsstring) (k : nat) (s : jsstring) :
  (k <= length s)%nat -> replace_from p r k s = replace_from p r 0 (skipn k s).
Proof.
  revert s; induction k as [|k IH]; intros s Hk; [reflexivity|].
  destruct s as [|c s]; simpl in *; [lia|]. apply IH. lia.
Qed.

(** At a match the replacement is written and the scan goes on after the
    match. *)
Lemma replace_from_match (p : pattern) (r s : jsstring) :
  p <> [] -> match_at p s = true ->
  replace_from p r 0 s = r ++ replace_from p r 0 (skipn (length p) s).
Proof.
  intros Hp Hm. destruct s as [|c s].
  - destruct p; [contradiction|discriminate].
  - cbn [replace_from]. rewrite Hm. f_equal.
    apply match_at_length in Hm.
    destruct p as [|a p]; [contradiction|]. simpl in *.
    apply replace_from_skip. lia.
Qed.

Lemma replace_from_keep (p : pattern) (r : jsstring) (c : code_unit) (s : jsstring) :
  match_at p (c :: s) = false ->
  replace_from p r 0 (c :: s) = c :: replace_from p r 0 s.
Proof. intro Hm. cbn [replace_from]. now rewrite Hm. Qed.

Lemma replace_from_absent (p : pattern) (r s : jsstring) :
  occurs p s = false -> replace_from p r 0 s = s.
Proof.
  induction s as [|c s IH]; [reflexivity|].
  intro E. rewrite replace_from_keep by now apply occurs_false_head.
  f_equal. apply IH. now apply occurs_false_tail in E.
Qed.

Section NoNewMatch.

Variables (p q : pattern) (m : jsstring).
Hypothesis q_apart : apart q m = true.

Lemma apart_suffix (q' : pattern) : In q' (tails q) -> clash q' m = true.
Proof.
  intro Hin. unfold apart in q_apart. destruct q; [discriminate|].
  apply andb_true_iff in q_apart as [E _].
  rewrite forallb_forall in E. now apply E.
Qed.

Lemma apart_inside (m' : jsstring) : In m' (tails m) -> clash q m' = true.
Proof.
  intro Hin. unfold apart in q_apart. destruct q; [discriminate|].
  apply andb_true_iff in q_apart as [_ E].
  rewrite forallb_forall in E. now apply E.
Qed.

Lemma tails_tail {A} (a : A) (l l' : list A) : In l' (tails l) -> In l' (tails (a :: l)).
Proof. intro Hin. now right. Qed.

(** A match of a suffix of [q] at the head of the scanned text is a match in
    the text before the scan: it cannot run into a replacement. *)
Lemma match_at_scanned (q' : pattern) (s : jsstring) :
  (forall t, In t (tails q') -> clash t m = true) ->
  match_at q' (replace_from p m 0 s) = true -> match_at q' s = true.
Proof.
  revert q'; induction s as [|c s IH]; intros q' Hq'.
  - simpl. now destruct q'.
  - destruct q' as [|a q']; [reflexivity|].
    cbn [replace_from]. destruct (match_at p (c :: s)).
    + rewrite clash_match_at; [discriminate|]. apply Hq'. now left.
    + simpl. intro E. apply andb_true_iff in E as [E1 E2]. rewrite E1. simpl.
      apply IH; [|exact E2]. intros t Ht. apply Hq'. now right.
Qed.

(** No match of [q] begins inside a replacement. *)
Lemma occurs_after_replacement (rest : jsstring) :
  occurs q rest = false -> occurs q (m ++ rest) = false.
Proof.
  intro Hrest.
  assert (G : forall m', (forall t, In t (tails m') -> In t (tails m)) ->
                         occurs q (m' ++ rest) = false).
  { induction m' as [|c m' IH]; intro Hsub; [exact Hrest|].
    rewrite <- app_comm_cons, occurs_cons.
    apply orb_false_iff. split.
    - change (c :: m' ++ rest) with ((c :: m') ++ rest).
      apply clash_match_at. apply apart_inside. apply Hsub. now left.
    - apply IH. intros t Ht. apply Hsub. now right. }
  now apply G.
Qed.

(** Replacing the matches of [p] by [m] leaves no match of [q], when [q] is
    [p] itself or had none before. *)
Lemma no_new_match (s : jsstring) (skip : nat) :
  q = p \/ occurs q s = false ->
  occurs q (replace_from p m skip s) = false.
Proof.
  revert skip; induction s as [|c s IH]; intros skip Hq.
  - simpl. rewrite orb_false_r.
    destruct q as [|a q']; [discriminate q_apart|reflexivity].
  - assert (Htail : q = p \/ occurs q s = false).
    { destruct Hq as [Hq|Hq]; [now left|right]. now apply occurs_false_tail in Hq. }
    cbn [replace_from]. destruct skip as [|k]; [|now apply IH].
    destruct (match_at p (c :: s)) eqn:Hp.
    + apply occurs_after_replacement. now apply IH.
    + rewrite occurs_cons. apply orb_false_iff. split; [|now apply IH].
      destruct (match_at q (c :: replace_from p m 0 s)) eqn:Hm; [|reflexivity].
      rewrite <- (replace_from_keep p m c s Hp) in Hm.
      apply match_at_scanned in Hm; [|intros t Ht; now apply apart_suffix].
      destruct Hq as [->|Hq].
      * congruence.
      * apply occurs_false_head in Hq. congruence.
Qed.

End NoNewMatch.

(** *** [sanitizeOutput] *)

Lemma RegExp_test_new (keyword s : jsstring) :
  fst (RegExp_test (new_RegExp keyword) s) = occurs (compile keyword) s.
Proof.
  unfold RegExp_test, new_RegExp. simpl.
  destruct (search (compile keyword) s) eqn:E; simpl.
  - destruct (occurs (compile keyword) s) eqn:O; [reflexivity|].
    apply search_occurs in O. congruence.
  - symmetry. now apply search_occurs.
Qed.

Lemma sanitize_keyword_eq (sanitized : jsstring) (redacted : bool) (keyword : jsstring) :
  sanitize_keyword (sanitized, redacted) keyword =
  if occurs (compile keyword) sanitized
  then (replace_from (compile keyword) REDACTED 0 sanitized, true)
  else (sanitized, redacted).
Proof.
  unfold sanitize_keyword. rewrite <- RegExp_test_new.
  unfold RegExp_test, new_RegExp. simpl.
  now destruct (search (compile keyword) sanitized).
Qed.

Lemma EXPLOIT_KEYWORDS_apart : Forall keyword_apart EXPLOIT_KEYWORDS.
Proof.
  unfold EXPLOIT_KEYWORDS.
  repeat (constructor; [vm_compute; reflexivity|]). constructor.
Qed.

Lemma sanitize_keyword_preserves (st : jsstring * bool) (k : jsstring) (q : pattern) :
  apart q REDACTED = true ->
  occurs q (fst st) = false -> occurs q (fst (sanitize_keyword st k)) = false.
Proof.
  intros Hq Hs. destruct st as [s r]. rewrite sanitize_keyword_eq.
  destruct (occurs (compile k) s); simpl; [|exact Hs].
  apply no_new_match; [exact Hq|now right].
Qed.

Lemma sanitize_keyword_clears (st : jsstring * bool) (k : jsstring) :
  keyword_apart k -> occurs (compile k) (fst (sanitize_keyword st k)) = false.
Proof.
  intros Hk. destruct st as [s r]. rewrite sanitize_keyword_eq.
  destruct (occurs (compile k) s) eqn:E; simpl; [|exact E].
  apply no_new_match; [exact Hk|now left].
Qed.

Lemma sanitize_fold_preserves (ks : list jsstring) (st : jsstring * bool) (q : pattern) :
  apart q REDACTED = true ->
  occurs q (fst st) = false ->
  occurs q (fst (fold_left sanitize_keyword ks st)) = false.
Proof.
  intro Hq. revert st; induction ks as [|k ks IH]; intros st Hs; [exact Hs|].
  simpl. apply IH. now apply sanitize_keyword_preserves.
Qed.

Lemma sanitize_fold_clears (ks : list jsstring) (st : jsstring * bool) (k : jsstring) :
  Forall keyword_apart ks -> In k ks ->
  occurs (compile k) (fst (fold_left sanitize_keyword ks st)) = false.
Proof.
  intro Hks. revert st; induction Hks as [|k0 ks Hk0 Hks IH]; intros st Hin; [easy|].
  simpl. destruct Hin as [->|Hin].
  - apply sanitize_fold_preserves.
    + rewrite Forall_forall in Hks. exact Hk0.
    + now apply sanitize_keyword_clears.
  - now apply IH.
Qed.

Lemma sanitize_fold_flag_true (ks : list jsstring) (s : jsstring) :
  snd (fold_left sanitize_keyword ks (s, true)) = true.
Proof.
  revert s; induction ks as [|k ks IH]; intro s; [reflexivity|].
  cbn [fold_left]. rewrite sanitize_keyword_eq.
  destruct (occurs (compile k) s); apply IH.
Qed.

Lemma sanitize_fold_flag_false (ks : list jsstring) (s : jsstring) :
  snd (fold_left sanitize_keyword ks (s, false)) = false ->
  fold_left sanitize_keyword ks (s, false) = (s, false) /\
  forall k, In k ks -> occurs (compile k) s = false.
Proof.
  induction ks as [|k ks IH]; [easy|].
  cbn [fold_left]. rewrite sanitize_keyword_eq. destruct (occurs (compile k) s) eqn:E.
  - rewrite sanitize_fold_flag_true. discriminate.
  - intro F. destruct (IH F) as [IH1 IH2]. split; [exact IH1|].
    intros k' [<-|Hin]; [exact E|now apply IH2].
Qed.

Lemma sanitize_fold_absent (ks : list jsstring) (st : jsstring * bool) :
  (forall k, In k ks -> occurs (compile k) (fst st) = false) ->
  fold_left sanitize_keyword ks st = st.
Proof.
  revert st; induction ks as [|k ks IH]; intros [s r] Hks; [reflexivity|].
  cbn [fold_left fst] in *. rewrite sanitize_keyword_eq, (Hks k) by now left.
  apply IH. intros k' Hin. apply Hks. now right.
Qed.

(** After [sanitizeOutput] no pattern of the list matches anywhere. *)
Lemma sanitizeOutput_clean (jsonString k : jsstring) :
  In k EXPLOIT_KEYWORDS ->
  occurs (compile k) (fst (sanitizeOutput jsonString)) = false.
Proof. apply sanitize_fold_clears, EXPLOIT_KEYWORDS_apart. Qed.

(** [redacted] is set exactly when a pattern of the list matches the text. *)
Lemma sanitizeOutput_redacted (jsonString : jsstring) :
  snd (sanitizeOutput jsonString) = true <->
  exists k, In k EXPLOIT_KEYWORDS /\ occurs (compile k) jsonString = true.
Proof.
  unfold sanitizeOutput. split.
  - intro R.
    destruct (existsb (fun k => occurs (compile k) jsonString) EXPLOIT_KEYWORDS) eqn:E.
    + apply existsb_exists in E. exact E.
    + rewrite sanitize_fold_absent in R; [discriminate|].
      intros k Hin. simpl.
      destruct (occurs (compile k) jsonString) eqn:O; [|reflexivity].
      assert (T : existsb (fun k => occurs (compile k) jsonString) EXPLOIT_KEYWORDS = true)
        by (apply existsb_exists; eauto).
      congruence.
  - intros (k & Hin & O).
    destruct (snd (fold_left sanitize_keyword EXPLOIT_KEYWORDS (jsonString, false))) eqn:F;
      [reflexivity|].
    apply sanitize_fold_flag_false in F as [_ F]. rewrite (F k Hin) in O. discriminate.
Qed.

(** Without a match the text is returned as it is. *)
Lemma sanitizeOutput_untouched (jsonString : jsstring) :
  snd (sanitizeOutput jsonString) = false ->
  sanitizeOutput jsonString = (jsonString, false).
Proof. intro F. now apply sanitize_fold_flag_false in F. Qed.

(** A first code unit that no pattern of the list can start with is kept. *)
Lemma sanitize_fold_head (c : code_unit) (ks : list jsstring) (s : jsstring) (r : bool) :
  (forall k, In k ks -> clash (compile k) [c] = true) ->
  exists s', fst (fold_left sanitize_keyword ks (c :: s, r)) = c :: s'.
Proof.
  revert s r; induction ks as [|k ks IH]; intros s r Hks; [now exists s|].
  cbn [fold_left]. rewrite sanitize_keyword_eq.
  assert (Hk : match_at (compile k) (c :: s) = false).
  { change (c :: s) with ([c] ++ s). apply clash_match_at, Hks. now left. }
  destruct (occurs (compile k) (c :: s)).
  - rewrite replace_from_keep by exact Hk. apply IH. intros k' Hin. apply Hks. now right.
  - apply IH. intros k' Hin. apply Hks. now right.
Qed.

(** *** Occurrences up to case *)

Lemma match_at_literal (k s : jsstring) :
  match_at (map Lit k) s = true <->
  exists k' b, s = k' ++ b /\ Forall2 same_letter k k'.
Proof.
  revert s; induction k as [|x k IH]; intro s; simpl.
  - split; [intros _; exists [], s; split; [reflexivity|constructor]|reflexivity].
  - destruct s as [|c s].
    + split; [discriminate|]. intros (k' & b & E & F). inversion F; subst. discriminate.
    + rewrite andb_true_iff, IH, N.eqb_eq. split.
      * intros (E & k' & b & -> & F). exists (c :: k'), b. split; [reflexivity|].
        now constructor.
      * intros (k' & b & E & F). inversion F as [|? y ? k'' Hxy F']; subst.
        injection E as -> ->. split; [exact Hxy|]. now exists k'', b.
Qed.

Lemma occurs_literal (k s : jsstring) :
  occurs (map Lit k) s = true <-> occurs_ignoring_case k s.
Proof.
  unfold occurs_ignoring_case. induction s as [|c s IH].
  - simpl. rewrite orb_false_r, match_at_literal. split.
    + intros (k' & b & E & F). now exists [], k', b.
    + intros (a & k' & b & E & F). exists k', b. split; [|exact F].
      destruct a; [exact E|discriminate].
  - rewrite occurs_cons, orb_true_iff, match_at_literal, IH. split.
    + intros [(k' & b & E & F)|(a & k' & b & E & F)].
      * now exists [], k', b.
      * exists (c :: a), k', b. split; [now rewrite E|exact F].
    + intros (a & k' & b & E & F). destruct a as [|c' a].
      * left. now exists k', b.
      * right. injection E as -> E. now exists a, k', b.
Qed.

Lemma atom_match_compile (x c : code_unit) :
  atom_match (Lit x) c = true ->
  atom_match (if x =? FULL_STOP then AnyChar else Lit x) c = true.
Proof.
  destruct (x =? FULL_STOP) eqn:E; [|easy].
  apply N.eqb_eq in E. subst x. unfold atom_match. intro M. apply N.eqb_eq in M.
  change (Canonicalize FULL_STOP) with 46 in M. unfold Canonicalize in M.
  destruct ((97 <=? c) && (c <=? 122)) eqn:L.
  - apply andb_true_iff in L as [L1 L2]. apply N.leb_le in L1, L2. lia.
  - now subst c.
Qed.

Lemma match_at_compile (k s : jsstring) :
  match_at (map Lit k) s = true -> match_at (compile k) s = true.
Proof.
  revert s; induction k as [|x k IH]; intros [|c s]; simpl; try easy.
  intro M. apply andb_true_iff in M as [M1 M2].
  rewrite (atom_match_compile _ _ M1). now apply IH.
Qed.

(** The pattern compiled from a keyword matches wherever the keyword occurs
    in whatever case. *)
Lemma occurs_compile (k s : jsstring) :
  occurs_ignoring_case k s -> occurs (compile k) s = true.
Proof.
  rewrite <- occurs_literal. induction s as [|c s IH].
  - simpl. rewrite !orb_false_r. apply match_at_compile.
  - rewrite !occurs_cons, !orb_true_iff. intros [M|O].
    + left. now apply match_at_compile.
    + right. now apply IH.
Qed.

Lemma occurs_ignoring_case_app (k a s b : jsstring) :
  occurs_ignoring_case k s -> occurs_ignoring_case k (a ++ s ++ b).
Proof.
  intros (x & k' & y & -> & F). exists (a ++ x), k', (y ++ b).
  split; [|exact F]. now rewrite <- !app_assoc.
Qed.

(** ** JSON values and their serialization *)

Section JSONFacts.
Context `{Engine}.

Lemma json_ind (P : json -> Prop) :
  P JNull ->
  (forall b, P (JBool b)) ->
  (forall n, P (JNum n)) ->
  (forall s, P (JStr s)) ->
  (forall items, Forall P items -> P (JArr items)) ->
  (forall props, Forall (fun kv => P (snd kv)) props -> P (JObj props)) ->
  forall v, P v.
Proof.
  intros HNull HBool HNum HStr HArr HObj.
  fix IH 1. intros [|b|n|s|items|props].
  - exact HNull.
  - apply HBool.
  - apply HNum.
  - apply HStr.
  - apply HArr. revert items. fix IHitems 1. intros [|item items].
    + constructor.
    + constructor; [apply IH|apply IHitems].
  - apply HObj. revert props. fix IHprops 1. intros [|[k v] props].
    + constructor.
    + constructor; [apply IH|apply IHprops].
Qed.

Lemma join_In (sep : jsstring) (parts : list jsstring) (x : jsstring) :
  In x parts -> exists a b, join sep parts = a ++ x ++ b.
Proof.
  induction parts as [|p parts IH]; [easy|].
  intros [->|Hin].
  - destruct parts as [|p' parts].
    + exists [], []. simpl. now rewrite app_nil_r.
    + exists [], (sep ++ join sep (p' :: parts)). reflexivity.
  - destruct (IH Hin) as (a & b & E). destruct parts as [|p' parts]; [easy|].
    exists (p ++ sep ++ a), b.
    change (join sep (p :: p' :: parts)) with (p ++ sep ++ join sep (p' :: parts)).
    rewrite E. now rewrite <- !app_assoc.
Qed.

Lemma inside_app (a x b pre post : jsstring) :
  exists a' b', pre ++ (a ++ x ++ b) ++ post = a' ++ x ++ b'.
Proof. exists (pre ++ a), (b ++ post). now rewrite <- !app_assoc. Qed.

(** The text of every string of a value is part of its serialization. *)
Lemma serialize_string_field (v : json) :
  forall indent s, In s (string_fields v) ->
  exists a b, SerializeJSONProperty indent v = a ++ quote_chars s ++ b.
Proof.
  induction v as [|b|n|s0|items IH|props IH] using json_ind; intros indent s Hin;
    try contradiction.
  - destruct Hin as [->|[]]. exists [DQUOTE], [DQUOTE]. reflexivity.
  - simpl in Hin. apply in_flat_map in Hin as (item & Hitem & Hs).
    rewrite Forall_forall in IH.
    destruct (IH item Hitem (indent ++ gap) s Hs) as (a & b & E).
    destruct (join_In (js "," ++ LF ++ indent ++ gap)
                (map (SerializeJSONProperty (indent ++ gap)) items)
                (SerializeJSONProperty (indent ++ gap) item)) as (a' & b' & J).
    { now apply in_map. }
    destruct items as [|i0 items]; [easy|].
    cbn [SerializeJSONProperty]. cbv zeta. rewrite J, E.
    destruct (inside_app a (quote_chars s) b (js "[" ++ LF ++ (indent ++ gap) ++ a')
                (b' ++ LF ++ indent ++ js "]")) as (x & y & G).
    exists x, y. rewrite <- G. now rewrite <- !app_assoc.
  - simpl in Hin. apply in_flat_map in Hin as ([k item] & Hitem & Hs).
    rewrite Forall_forall in IH.
    destruct (IH (k, item) Hitem (indent ++ gap) s Hs) as (a & b & E). simpl in E.
    set (member := fun kv : jsstring * json =>
           QuoteJSONString (fst kv) ++ js ":" ++ js " " ++
           SerializeJSONProperty (indent ++ gap) (snd kv)).
    destruct (join_In (js "," ++ LF ++ indent ++ gap) (map member props)
                (member (k, item))) as (a' & b' & J).
    { now apply in_map. }
    destruct props as [|p0 props]; [easy|].
    cbn [SerializeJSONProperty]. cbv zeta. fold member. rewrite J.
    unfold member at 1. simpl fst. simpl snd. rewrite E.
    destruct (inside_app a (quote_chars s) b
                (js "{" ++ LF ++ (indent ++ gap) ++ a' ++ QuoteJSONString k ++ js ":" ++ js " ")
                (b' ++ LF ++ indent ++ js "}")) as (x & y & G).
    exists x, y. rewrite <- G. now rewrite <- !app_assoc.
Qed.

(** The serialization of an object begins with a brace. *)
Lemma stringify_object_head (props : list (jsstring * json)) :
  exists s, serialization (JObj props) = LEFT_BRACE :: s.
Proof.
  unfold serialization. destruct props as [|p props]; cbn [SerializeJSONProperty].
  - now exists [RIGHT_BRACE].
  - eexists. reflexivity.
Qed.

Lemma parse_members_object (fuel : nat) :
  forall acc s v rest,
  parse_members fuel acc s = Parsed v rest -> exists props, v = JObj props.
Proof.
  induction fuel as [|fuel IH]; intros acc s v rest; [discriminate|].
  cbn [parse_members]. unfold members_step.
  destruct (skip_ws s) as [|q r]; [discriminate|].
  destruct (q =? DQUOTE); [|discriminate].
  destruct (parse_chars r) as [[key r1]|]; [|discriminate].
  destruct (skip_ws r1) as [|colon r2]; [discriminate|].
  destruct (colon =? COLON); [|discriminate].
  destruct (parse_value fuel r2) as [| |v' r3]; try discriminate.
  destruct (skip_ws r3) as [|d r4]; [discriminate|].
  destruct (d =? COMMA); [apply IH|].
  destruct (d =? RIGHT_BRACE); [|discriminate].
  intro E. injection E as <- _. eexists. reflexivity.
Qed.

(** A text that begins with a brace parses to an object, if it parses. *)
Lemma JSON_parse_object (s : jsstring) (v : json) :
  JSON_parse (LEFT_BRACE :: s) = Some v -> exists props, v = JObj props.
Proof.
  unfold JSON_parse. cbn [parse_value]. unfold value_step.
  change (skip_ws (LEFT_BRACE :: s)) with (LEFT_BRACE :: s). cbv iota.
  change (LEFT_BRACE =? LEFT_BRACE) with true. cbv iota.
  destruct (skip_ws s) as [|c' r']; [discriminate|].
  destruct (c' =? RIGHT_BRACE).
  - destruct (skip_ws r'); [|discriminate]. intro E. injection E as <-.
    now exists [].
  - match goal with
    | |- context [parse_members ?f ?a ?t] =>
        destruct (parse_members f a t) as [| |w rest] eqn:E; try discriminate
    end.
    destruct (skip_ws rest); [|discriminate]. intro F. injection F as <-.
    eapply parse_members_object, E.
Qed.

(** *** Own properties *)

Lemma get_own_overwrite (props : list (jsstring * json)) (key : jsstring) (v w : json) :
  get_own props key = Some w -> get_own (overwrite props key v) key = Some v.
Proof.
  induction props as [|[k x] props IH]; simpl; [discriminate|].
  destruct (jsstring_eqb k key) eqn:E; simpl; rewrite E; [reflexivity|exact IH].
Qed.

Lemma get_own_app (props : list (jsstring * json)) (key : jsstring) (v : json) :
  get_own props key = None -> get_own (props ++ [(key, v)]) key = Some v.
Proof.
  induction props as [|[k x] props IH]; simpl.
  - now rewrite jsstring_eqb_refl.
  - destruct (jsstring_eqb k key); [discriminate|exact IH].
Qed.

Lemma get_own_insert_index (props : list (jsstring * json)) (i : N) (key : jsstring) (v : json) :
  get_own props key = None -> get_own (insert_index props i key v) key = Some v.
Proof.
  induction props as [|[k x] props IH]; simpl.
  - now rewrite jsstring_eqb_refl.
  - destruct (jsstring_eqb k key) eqn:E; [discriminate|]. intro G.
    destruct (array_index k) as [j|]; [destruct (j <? i)|]; simpl;
      rewrite ?E, ?jsstring_eqb_refl; auto.
Qed.

(** A property that was set is read back. *)
Lemma get_own_set_own (props : list (jsstring * json)) (key : jsstring) (v : json) :
  get_own (set_own props key v) key = Some v.
Proof.
  unfold set_own. destruct (get_own props key) eqn:G.
  - eapply get_own_overwrite, G.
  - destruct (array_index key).
    + now apply get_own_insert_index.
    + now apply get_own_app.
Qed.

End JSONFacts.

(** ** Keywords inside quoted strings *)

Section Quoting.
Context `{Engine}.

Lemma plain_quote (c : code_unit) :
  plain c = true ->
  isLeadingSurrogate c = false /\ isTrailingSurrogate c = false /\ escape_unit c = [c].
Proof.
  unfold plain, isLeadingSurrogate, isTrailingSurrogate, escape_unit, DQUOTE, BACKSLASH.
  intro P. repeat (apply andb_true_iff in P as [P ?]).
  repeat match goal with
         | H : negb _ = true |- _ => apply negb_true_iff in H
         end.
  apply N.ltb_ge in P.
  assert (S : ~ (0xD800 <= c /\ c <= 0xDFFF)).
  { intros [S1 S2]. apply N.leb_le in S1, S2. rewrite S1, S2 in *. discriminate. }
  repeat split.
  - destruct (0xD800 <=? c) eqn:A; destruct (c <=? 0xDBFF) eqn:B; try reflexivity.
    apply N.leb_le in A, B. lia.
  - destruct (0xDC00 <=? c) eqn:A; destruct (c <=? 0xDFFF) eqn:B; try reflexivity.
    apply N.leb_le in A, B. lia.
  - repeat match goal with
           | |- context [?x =? ?y] =>
               destruct (N.eqb_spec x y); [subst; first [lia|discriminate]|]
           end.
    destruct (N.ltb_spec c 32); [lia|reflexivity].
Qed.

Lemma quote_chars_plain (k b : jsstring) :
  forallb plain k = true -> quote_chars (k ++ b) = k ++ quote_chars b.
Proof.
  induction k as [|c k IH]; [reflexivity|].
  simpl. intro P. apply andb_true_iff in P as [P1 P2].
  destruct (@plain_quote c P1) as (L & T & E). rewrite L, T, E.
  simpl. f_equal. now apply IH.
Qed.

(** What is quoted after a prefix does not depend on the prefix, unless the
    prefix could pair its last code unit with the next one. *)
Lemma quote_chars_suffix (n : nat) :
  forall a rest, (length a <= n)%nat ->
  match rest with [] => True | d :: _ => isTrailingSurrogate d = false end ->
  exists pre, quote_chars (a ++ rest) = pre ++ quote_chars rest.
Proof.
  induction n as [|n IH]; intros a rest Hn Hrest.
  - destruct a; [|simpl in Hn; lia]. now exists [].
  - destruct a as [|c a]; [now exists []|]. simpl in Hn.
    rewrite <- app_comm_cons. cbn [quote_chars].
    destruct (IH a rest ltac:(lia) Hrest) as (pre & E).
    destruct (isLeadingSurrogate c).
    + destruct a as [|d a].
      * simpl. destruct rest as [|d rest].
        -- exists (UnicodeEscape c). now rewrite app_nil_r.
        -- rewrite Hrest. now exists (UnicodeEscape c).
      * rewrite <- app_comm_cons. destruct (isTrailingSurrogate d).
        -- simpl in Hn. destruct (IH a rest ltac:(lia) Hrest) as (pre' & E').
           exists (c :: d :: pre'). now rewrite E'.
        -- rewrite app_comm_cons, E. exists (UnicodeEscape c ++ pre).
           now rewrite app_assoc.
    + destruct (isTrailingSurrogate c).
      * rewrite E. exists (UnicodeEscape c ++ pre). now rewrite app_assoc.
      * rewrite E. exists (escape_unit c ++ pre). now rewrite app_assoc.
Qed.

Lemma keyword_variant_plain (x y : code_unit) :
  keyword_unit x = true -> same_letter x y -> plain y = true.
Proof.
  unfold keyword_unit, same_letter, Canonicalize, plain, DQUOTE, BACKSLASH, FULL_STOP.
  intros K S.
  assert (Y : (65 <= y /\ y <= 90) \/ (97 <= y /\ y <= 122) \/ y = 32 \/ y = 45 \/ y = 46).
  { destruct ((97 <=? x) && (x <=? 122)) eqn:X; destruct ((97 <=? y) && (y <=? 122)) eqn:Yl.
    - apply andb_true_iff in Yl as [Y1 Y2]. apply N.leb_le in Y1, Y2. lia.
    - apply andb_true_iff in X as [X1 X2]. apply N.leb_le in X1, X2. lia.
    - apply andb_true_iff in Yl as [Y1 Y2]. apply N.leb_le in Y1, Y2. lia.
    - simpl in K. subst y.
      destruct (N.eqb_spec x 32); [lia|]. destruct (N.eqb_spec x 45); [lia|].
      destruct (N.eqb_spec x 46); [lia|discriminate]. }
  destruct (N.ltb_spec y 32); [lia|].
  destruct (N.eqb_spec y 34); [lia|]. destruct (N.eqb_spec y 92); [lia|].
  destruct (N.leb_spec 0xD800 y); [lia|]. reflexivity.
Qed.

Lemma keyword_variants_plain (k k' : jsstring) :
  forallb keyword_unit k = true -> Forall2 same_letter k k' -> forallb plain k' = true.
Proof.
  intros K F. induction F as [|x y k k' Hxy F IH]; [reflexivity|].
  simpl in *. apply andb_true_iff in K as [K1 K2].
  rewrite (@keyword_variant_plain x y K1 Hxy). now apply IH.
Qed.

Lemma EXPLOIT_KEYWORDS_units (k : jsstring) :
  In k EXPLOIT_KEYWORDS -> forallb keyword_unit k = true /\ k <> [].
Proof.
  unfold EXPLOIT_KEYWORDS. simpl.
  intros Hin. repeat (destruct Hin as [<-|Hin]; [split; [reflexivity|discriminate]|]).
  contradiction.
Qed.

(** A keyword that occurs in a string occurs in the quoted string. *)
Lemma occurs_ignoring_case_quoted (k s : jsstring) :
  In k EXPLOIT_KEYWORDS ->
  occurs_ignoring_case k s -> occurs_ignoring_case k (quote_chars s).
Proof.
  intros Hk (a & k' & b & -> & F).
  destruct (@EXPLOIT_KEYWORDS_units k Hk) as [U Nk].
  pose proof (@keyword_variants_plain k k' U F) as P.
  destruct (@quote_chars_suffix (length a) a (k' ++ b) (le_n _)) as (pre & E).
  { destruct k' as [|y k']; [inversion F; subst; contradiction|].
    simpl in P |- *. apply andb_true_iff in P as [P _].
    now destruct (@plain_quote y P) as (_ & T & _). }
  rewrite E, (@quote_chars_plain k' b P). now exists pre, k', (quote_chars b).
Qed.

(** A keyword in a string of a value makes [sanitizeOutput] report a
    redaction on the serialization of the value. *)
Lemma string_field_redacted (v : json) (s k : jsstring) :
  In s (string_fields v) -> In k EXPLOIT_KEYWORDS -> occurs_ignoring_case k s ->
  snd (sanitizeOutput (serialization v)) = true.
Proof.
  intros Hs Hk O. apply sanitizeOutput_redacted. exists k. split; [exact Hk|].
  apply occurs_compile.
  destruct (serialize_string_field v [] s Hs) as (a & b & E).
  unfold serialization. rewrite E.
  apply occurs_ignoring_case_app. now apply occurs_ignoring_case_quoted.
Qed.

End Quoting.

(** ** The fuel of the parser is never used up *)

Section Fuel.
Context `{Engine}.

Lemma skip_ws_length (s : jsstring) : (length (skip_ws s) <= length s)%nat.
Proof.
  induction s as [|c s IH]; simpl; [lia|].
  destruct (isJSONWhiteSpace c); simpl; lia.
Qed.

Lemma skip_ws_cons (s : jsstring) (c : code_unit) (r : jsstring) :
  skip_ws s = c :: r -> (length r < length s)%nat.
Proof. intro E. pose proof (skip_ws_length s) as L. rewrite E in L. simpl in L. lia. Qed.

Lemma cons_char_length (c : code_unit) (o : option (jsstring * jsstring)) (n : nat) :
  (forall str rest, o = Some (str, rest) -> (length rest < n)%nat) ->
  forall str rest, cons_char c o = Some (str, rest) -> (length rest < n)%nat.
Proof.
  intros Ho str rest. destruct o as [[str' rest']|]; simpl; [|discriminate].
  intro E. injection E as _ <-. now apply (Ho str').
Qed.

Lemma parse_chars_length (n : nat) :
  forall s str rest, (length s <= n)%nat ->
  parse_chars s = Some (str, rest) -> (length rest < length s)%nat.
Proof.
  induction n as [|n IH]; intros s str rest Hn.
  - destruct s; [discriminate|simpl in Hn; lia].
  - destruct s as [|c s]; [discriminate|]. simpl in Hn. cbn [parse_chars].
    destruct (c =? DQUOTE).
    { intro E. injection E as _ <-. simpl. lia. }
    destruct (c =? BACKSLASH).
    + destruct s as [|e s]; [discriminate|]. simpl in Hn.
      destruct (e =? 117).
      * destruct s as [|h1 [|h2 [|h3 [|h4 s4]]]]; try discriminate.
        destruct (hex4 h1 h2 h3 h4); [|discriminate].
        apply cons_char_length. intros str' rest' E.
        apply IH in E; simpl in *; lia.
      * destruct (simple_escape e); [|discriminate].
        apply cons_char_length. intros str' rest' E.
        apply IH in E; simpl in *; lia.
    + destruct (c <? 32); [discriminate|].
      apply cons_char_length. intros str' rest' E.
      apply IH in E; simpl in *; lia.
Qed.

Lemma span_digits_length (s : jsstring) :
  (length (snd (span_digits s)) <= length s)%nat.
Proof.
  induction s as [|c s IH]; simpl; [lia|].
  destruct (isDigit c); [|simpl; lia].
  destruct (span_digits s); simpl in *. lia.
Qed.

Lemma scan_fraction_length (s frac rest : jsstring) :
  scan_fraction s = Some (frac, rest) -> (length rest <= length s)%nat.
Proof.
  unfold scan_fraction. destruct s as [|c s]; [intro E; injection E as _ <-; simpl; lia|].
  destruct (c =? FULL_STOP).
  - pose proof (span_digits_length s) as L.
    destruct (span_digits s) as [[|d ds] r]; [discriminate|].
    intro E. injection E as _ <-. simpl in *. lia.
  - intro E. injection E as _ <-. lia.
Qed.

Lemma scan_exponent_length (s exp rest : jsstring) :
  scan_exponent s = Some (exp, rest) -> (length rest <= length s)%nat.
Proof.
  unfold scan_exponent. destruct s as [|c s]; [intro E; injection E as _ <-; simpl; lia|].
  destruct ((c =? 101) || (c =? 69)).
  - destruct (scan_sign (fun x => (x =? 43) || (x =? 45)) s) as [sign s1] eqn:S.
    assert (L1 : (length s1 <= length s)%nat).
    { unfold scan_sign in S. destruct s as [|x s']; [injection S as _ <-; simpl; lia|].
      destruct ((x =? 43) || (x =? 45)); injection S as _ <-; simpl; lia. }
    pose proof (span_digits_length s1) as L.
    destruct (span_digits s1) as [[|d ds] r]; [discriminate|].
    intro E. injection E as _ <-. simpl in *. lia.
  - intro E. injection E as _ <-. lia.
Qed.

Lemma scan_number_length (s token rest : jsstring) :
  scan_number s = Some (token, rest) -> (length rest < length s)%nat.
Proof.
  unfold scan_number.
  destruct (scan_sign (fun x => x =? 45) s) as [sign s1] eqn:S.
  assert (L1 : (length s1 <= length s)%nat).
  { unfold scan_sign in S. destruct s as [|x s']; [injection S as _ <-; simpl; lia|].
    destruct (x =? 45); injection S as _ <-; simpl; lia. }
  destruct s1 as [|d r]; [discriminate|].
  destruct (isDigit d) eqn:D; [|discriminate].
  assert (L2 : forall int s2,
             (if d =? 48 then ([d], r) else span_digits (d :: r)) = (int, s2) ->
             (length s2 <= length r)%nat).
  { intros int s2. destruct (d =? 48).
    - intro E. injection E as _ <-. lia.
    - simpl. rewrite D. pose proof (span_digits_length r) as L.
      destruct (span_digits r). intro E. injection E as _ <-. exact L. }
  destruct (if d =? 48 then ([d], r) else span_digits (d :: r)) as [int s2] eqn:I.
  specialize (L2 _ _ eq_refl).
  destruct (scan_fraction s2) as [[frac s3]|] eqn:F; [|discriminate].
  apply scan_fraction_length in F.
  destruct (scan_exponent s3) as [[exp s4]|] eqn:X; [|discriminate].
  apply scan_exponent_length in X.
  intro E. injection E as _ <-. simpl in *. lia.
Qed.

Lemma strip_prefix_length (word s rest : jsstring) :
  strip_prefix word s = Some rest -> (length rest + length word = length s)%nat.
Proof.
  revert s; induction word as [|w word IH]; intros [|c s]; simpl; try discriminate.
  - intro E. now injection E as <-.
  - intro E. injection E as <-. simpl. lia.
  - destruct (w =? c); [|discriminate]. intro E. apply IH in E. lia.
Qed.

Lemma parse_literal_length (s : jsstring) (v : json) (rest : jsstring) :
  parse_literal s = Parsed v rest -> (length rest < length s)%nat.
Proof.
  unfold parse_literal.
  destruct (strip_prefix (js "null") s) eqn:A.
  { intro E. injection E as _ <-. apply strip_prefix_length in A. simpl in A. lia. }
  destruct (strip_prefix (js "true") s) eqn:B.
  { intro E. injection E as _ <-. apply strip_prefix_length in B. simpl in B. lia. }
  destruct (strip_prefix (js "false") s) eqn:C.
  { intro E. injection E as _ <-. apply strip_prefix_length in C. simpl in C. lia. }
  destruct (scan_number s) as [[token r]|] eqn:N; [|discriminate].
  intro E. injection E as _ <-. eapply scan_number_length, N.
Qed.

Lemma parse_literal_fuel (s : jsstring) : parse_literal s <> OutOfFuel.
Proof.
  unfold parse_literal.
  destruct (strip_prefix (js "null") s); [discriminate|].
  destruct (strip_prefix (js "true") s); [discriminate|].
  destruct (strip_prefix (js "false") s); [discriminate|].
  destruct (scan_number s) as [[token r]|]; discriminate.
Qed.

(** With more fuel than twice the text that is left, no part of the parser
    runs out of it, and each part reads at least one code unit. *)
Lemma parse_fuel (fuel : nat) :
  (forall s, (2 * length s < fuel)%nat -> fuelled (parse_value fuel) s) /\
  (forall acc s, (2 * length s + 1 < fuel)%nat -> fuelled (parse_members fuel acc) s) /\
  (forall acc s, (2 * length s + 1 < fuel)%nat -> fuelled (parse_elements fuel acc) s).
Proof.
  induction fuel as [|fuel (IHv & IHm & IHe)].
  { repeat split; intros; lia. }
  split; [|split].
  - intros s Hs. unfold fuelled. cbn [parse_value]. unfold value_step.
    destruct (skip_ws s) as [|c r] eqn:W; [split; [discriminate|discriminate]|].
    apply skip_ws_cons in W as Lr.
    destruct (c =? LEFT_BRACE).
    { destruct (skip_ws r) as [|c' r'] eqn:W'; [split; discriminate|].
      apply skip_ws_cons in W' as Lr'.
      destruct (c' =? RIGHT_BRACE).
      - split; [discriminate|]. intros v rest E. injection E as _ <-. lia.
      - destruct (IHm [] r ltac:(lia)) as [F L]. split; [exact F|].
        intros v rest E. apply L in E. lia. }
    destruct (c =? LEFT_BRACKET).
    { destruct (skip_ws r) as [|c' r'] eqn:W'; [split; discriminate|].
      apply skip_ws_cons in W' as Lr'.
      destruct (c' =? RIGHT_BRACKET).
      - split; [discriminate|]. intros v rest E. injection E as _ <-. lia.
      - destruct (IHe [] r ltac:(lia)) as [F L]. split; [exact F|].
        intros v rest E. apply L in E. lia. }
    destruct (c =? DQUOTE).
    { destruct (parse_chars r) as [[str rest']|] eqn:P; [|split; discriminate].
      eapply parse_chars_length in P; [|apply le_n].
      split; [discriminate|]. intros v rest E. injection E as _ <-. lia. }
    split; [apply parse_literal_fuel|].
    intros v rest E. apply parse_literal_length in E. simpl in E. lia.
  - intros acc s Hs. unfold fuelled. cbn [parse_members]. unfold members_step.
    destruct (skip_ws s) as [|q r] eqn:W; [split; discriminate|].
    apply skip_ws_cons in W as Lr.
    destruct (q =? DQUOTE); [|split; discriminate].
    destruct (parse_chars r) as [[key r1]|] eqn:P; [|split; discriminate].
    eapply parse_chars_length in P; [|apply le_n].
    destruct (skip_ws r1) as [|colon r2] eqn:W1; [split; discriminate|].
    apply skip_ws_cons in W1 as Lr2.
    destruct (colon =? COLON); [|split; discriminate].
    destruct (IHv r2 ltac:(lia)) as [Fv Lv].
    destruct (parse_value fuel r2) as [| |v r3] eqn:V;
      [contradiction|split; discriminate|].
    specialize (Lv _ _ eq_refl).
    destruct (skip_ws r3) as [|d r4] eqn:W3; [split; discriminate|].
    apply skip_ws_cons in W3 as Lr4.
    destruct (d =? COMMA).
    { destruct (IHm (set_own acc key v) r4 ltac:(lia)) as [F L]. split; [exact F|].
      intros v' rest E. apply L in E. lia. }
    destruct (d =? RIGHT_BRACE); [|split; discriminate].
    split; [discriminate|]. intros v' rest E. injection E as _ <-. lia.
  - intros acc s Hs. unfold fuelled. cbn [parse_elements]. unfold elements_step.
    destruct (IHv s ltac:(lia)) as [Fv Lv].
    destruct (parse_value fuel s) as [| |v r] eqn:V;
      [contradiction|split; discriminate|].
    specialize (Lv _ _ eq_refl).
    destruct (skip_ws r) as [|d r'] eqn:W; [split; discriminate|].
    apply skip_ws_cons in W as Lr.
    destruct (d =? COMMA).
    { destruct (IHe (acc ++ [v]) r' ltac:(lia)) as [F L]. split; [exact F|].
      intros v' rest E. apply L in E. lia. }
    destruct (d =? RIGHT_BRACKET); [|split; discriminate].
    split; [discriminate|]. intros v' rest E. injection E as _ <-. lia.
Qed.

(** [JSON_parse] never fails for want of fuel: [None] is a text that is not
    JSON. *)
Lemma JSON_parse_fuel (text : jsstring) :
  parse_value (S (2 * length text)) text <> OutOfFuel.
Proof. apply parse_fuel. lia. Qed.

End Fuel.

(** ** The steps of the Model Client, the resolver and the handler *)

Section Runs.
Context `{Engine}.

(** When [JSON.stringify] completes, it is with the serialization. *)
Lemma JSON_stringify_2_text (v : json) (rawString : jsstring) :
  JSON_stringify_2 v = inr rawString -> rawString = serialization v.
Proof.
  unfold JSON_stringify_2. destruct (Nat.leb (nesting v) stack_depth); [|discriminate].
  intro E. now injection E as <-.
Qed.

(** It completes on a value that is not nested deeper than the schema. *)
Lemma JSON_stringify_2_shallow (v : json) :
  Nat.leb (nesting v) SCHEMA_NESTING = true -> JSON_stringify_2 v = inr (serialization v).
Proof.
  intro L. unfold JSON_stringify_2.
  assert (D : Nat.leb (nesting v) stack_depth = true).
  { pose proof stack_depth_ample as A. apply Nat.leb_le in L, A. apply Nat.leb_le. lia. }
  now rewrite D.
Qed.

(** [NextResponse.json] returns for a body that is not nested deeper than
    the schema, as every body is that the handler builds itself. *)
Lemma respond_shallow (body : json) (status : N) (w : World) :
  Nat.leb (nesting body) SCHEMA_NESTING = true ->
  respond body status w = (inr (NextResponse_json body status), w).
Proof.
  intro L. unfold respond, settle. now rewrite (JSON_stringify_2_shallow body L).
Qed.

Lemma respond_failure (e : thrown) (w : World) :
  respond (failure_body e) 500 w = (inr (failure e), w).
Proof. apply respond_shallow. now destruct e. Qed.

Lemma callGemini_run (apiKey model : jsstring) (messages : list Message) (w : World) :
  callGemini apiKey model messages w =
  let call := generate_call apiKey model messages in
  (match next_answer w call with
   | inl e => inl e
   | inr response =>
       if ok response then response_json response
       else match response_text response with
            | inl e => inl e
            | inr details =>
                inl (ErrorObject (js "Gemini API error: " ++ decimal (status response) ++
                                  js " " ++ details))
            end
   end,
   record_call w call).
Proof.
  unfold callGemini, bind, fetch, next_answer, record_call, generate_call, settle, throw.
  cbv zeta.
  destruct (backend w _ _) as [e|response]; [reflexivity|].
  destruct (ok response); simpl; [reflexivity|].
  now destruct (response_text response).
Qed.

Lemma callGemini_answers (apiKey model : jsstring) (messages : list Message) (w : World)
      (response : FetchResponse) (g : GeminiResponse) :
  next_answer w (generate_call apiKey model messages) = inr response ->
  ok response = true -> response_json response = inr g ->
  callGemini apiKey model messages w =
  (inr g, record_call w (generate_call apiKey model messages)).
Proof.
  intros A O J. rewrite callGemini_run. cbv zeta. now rewrite A, O, J.
Qed.

Lemma parseGeminiJson_run (apiKey model userPrompt : jsstring) (w : World) :
  parseGeminiJson apiKey model userPrompt w =
  match callGemini apiKey model (primary_messages userPrompt) w with
  | (inl e, w1) => (inl e, w1)
  | (inr initialResponse, w1) =>
      let initialText := extractText initialResponse in
      match JSON_parse initialText with
      | Some v => (inr {| parsed := v; raw := initialText |}, w1)
      | None =>
          match callGemini apiKey model (repair_messages initialText) w1 with
          | (inl e, w2) => (inl e, w2)
          | (inr repairResponse, w2) =>
              let repairText := extractText repairResponse in
              match JSON_parse repairText with
              | Some v => (inr {| parsed := v; raw := repairText |}, w2)
              | None => (inl (ErrorObject (or_else repairText initialText)), w2)
              end
          end
      end
  end.
Proof.
  unfold parseGeminiJson, primary_messages, repair_messages, text_part, bind, try_catch,
    settle, ret, throw, JSON_parse_or_throw.
  cbv zeta.
  destruct (callGemini apiKey model _ w) as [[e|r1] w1]; [reflexivity|].
  destruct (JSON_parse (extractText r1)); [reflexivity|].
  destruct (callGemini apiKey model _ w1) as [[e|r2] w2]; [reflexivity|].
  now destruct (JSON_parse (extractText r2)).
Qed.

Lemma POST_run (request : Request) (w : World) :
  POST request w =
  let apiKey := GEMINI_API_KEY (env w) in
  let model := GEMINI_MODEL (env w) ?? js "gemini-3" in
  if falsy apiKey then (inr CONFIGURATION_ERROR, w)
  else
    match request_json request with
    | inl e => (inr (failure e), w)
    | inr body =>
        if blank body then (inr SNAPSHOT_REQUIRED, w)
        else
          match totalInputLength body with
          | None => (inr (failure (raise (ReadOfNullish (js "length")))), w)
          | Some total =>
              if MAX_TOTAL_CHARS <? total then (inr INPUT_TOO_LARGE, w)
              else
                match parseGeminiJson (apiKey ?? []) model (buildUserPrompt body) w with
                | (inl e, w') => (inr (failure e), w')
                | (inr resolved, w') =>
                    match redaction_filter (parsed resolved) with
                    | inl e => (inr (failure e), w')
                    | inr sanitizedJson =>
                        match JSON_stringify_2 sanitizedJson with
                        | inl e => (inr (failure e), w')
                        | inr _ => (inr (NextResponse_json sanitizedJson 200), w')
                        end
                    end
                end
          end
    end.
Proof.
  unfold POST, try_catch, bind, process_env, blank, CONFIGURATION_ERROR,
    SNAPSHOT_REQUIRED, INPUT_TOO_LARGE.
  cbv zeta.
  destruct (falsy (GEMINI_API_KEY (env w))).
  { now rewrite respond_shallow. }
  unfold settle at 1.
  destruct (request_json request) as [e|body]; [apply respond_failure|].
  destruct (falsy (tested (system_text body)) || _).
  { now rewrite respond_shallow. }
  unfold settle at 1.
  destruct (totalInputLength body) as [total|]; [|apply respond_failure].
  destruct (MAX_TOTAL_CHARS <? total).
  { now rewrite respond_shallow. }
  destruct (parseGeminiJson _ _ _ w) as [[e|resolved] w']; [apply respond_failure|].
  unfold settle at 1.
  destruct (redaction_filter (parsed resolved)) as [e|sanitizedJson]; [apply respond_failure|].
  unfold respond, settle.
  destruct (JSON_stringify_2 sanitizedJson); [apply respond_failure|reflexivity].
Qed.

End Runs.

(** ** The JSON Resolver *)

Section Resolver.
Context `{Engine}.

(** C6. If the text extracted from the answer to the first call parses as
    JSON, the resolver returns the parsed value together with that text, and
    the first call is the only one that was made. *)
Theorem resolver_returns_first_parse
    (apiKey model userPrompt : jsstring) (w : World)
    (response : FetchResponse) (g : GeminiResponse) (v : json) :
  next_answer w (primary_call apiKey model userPrompt) = inr response ->
  ok response = true ->
  response_json response = inr g ->
  JSON_parse (extractText g) = Some v ->
  parseGeminiJson apiKey model userPrompt w =
    (inr {| parsed := v; raw := extractText g |},
     record_call w (primary_call apiKey model userPrompt)) /\
  calls (snd (parseGeminiJson apiKey model userPrompt w)) =
    calls w ++ [primary_call apiKey model userPrompt].
Proof.
  intros A O J P.
  assert (E : parseGeminiJson apiKey model userPrompt w =
              (inr {| parsed := v; raw := extractText g |},
               record_call w (primary_call apiKey model userPrompt))).
  { unfold primary_call in *. rewrite parseGeminiJson_run.
    rewrite (callGemini_answers _ _ _ _ response g A O J). cbv zeta. now rewrite P. }
  split; [exact E|]. now rewrite E.
Qed.

(** C2. If the texts extracted from the answers to the primary call and to
    the repair call both fail to parse, the resolver throws an error whose
    message is the repaired text, or the original text when the repaired text
    is empty, and exactly the two calls were made. *)
Theorem resolver_fails_after_one_repair
    (apiKey model userPrompt : jsstring) (w : World)
    (response1 response2 : FetchResponse) (g1 g2 : GeminiResponse) :
  let initialText := extractText g1 in
  let repairText := extractText g2 in
  let call1 := primary_call apiKey model userPrompt in
  let call2 := repair_call apiKey model initialText in
  next_answer w call1 = inr response1 ->
  ok response1 = true ->
  response_json response1 = inr g1 ->
  JSON_parse initialText = None ->
  next_answer (record_call w call1) call2 = inr response2 ->
  ok response2 = true ->
  response_json response2 = inr g2 ->
  JSON_parse repairText = None ->
  exists payload,
    parseGeminiJson apiKey model userPrompt w =
      (inl (ErrorObject payload), record_call (record_call w call1) call2) /\
    (repairText <> [] -> payload = repairText) /\
    (repairText = [] -> payload = initialText) /\
    calls (snd (parseGeminiJson apiKey model userPrompt w)) = calls w ++ [call1; call2].
Proof.
  intros initialText repairText call1 call2 A1 O1 J1 P1 A2 O2 J2 P2.
  exists (or_else repairText initialText).
  assert (E : parseGeminiJson apiKey model userPrompt w =
              (inl (ErrorObject (or_else repairText initialText)),
               record_call (record_call w call1) call2)).
  { subst initialText repairText call1 call2. unfold primary_call, repair_call in *.
    rewrite parseGeminiJson_run.
    rewrite (callGemini_answers _ _ _ _ response1 g1 A1 O1 J1). cbv zeta.
    rewrite P1.
    rewrite (callGemini_answers _ _ _ _ response2 g2 A2 O2 J2).
    now rewrite P2. }
  split; [exact E|]. repeat split.
  - intro N. destruct repairText; [contradiction|reflexivity].
  - now intros ->.
  - rewrite E. simpl. now rewrite <- app_assoc.
Qed.

End Resolver.

(** [resolver_returns_first_parse] on the backend that answers with valid
    JSON. *)
Lemma resolver_returns_first_parse_witness :
  parseGeminiJson (H := Sample.engine) Sample.key Sample.model (js "a web shop") Sample.obedient =
    (inr {| parsed := JObj [(js "ok", JBool true)]; raw := Sample.valid_text |},
     record_call Sample.obedient (primary_call Sample.key Sample.model (js "a web shop"))) /\
  calls (snd (parseGeminiJson (H := Sample.engine) Sample.key Sample.model (js "a web shop")
                Sample.obedient)) =
    [primary_call Sample.key Sample.model (js "a web shop")].
Proof.
  apply (@resolver_returns_first_parse Sample.engine Sample.key Sample.model (js "a web shop")
           Sample.obedient
           {| status := 200; response_text := inr [];
              response_json := inr (Sample.candidate_of [Sample.valid_text]) |}
           (Sample.candidate_of [Sample.valid_text])
           (JObj [(js "ok", JBool true)]));
    reflexivity.
Defined.

(** [resolver_fails_after_one_repair] on the backend that answers with prose
    and then with nothing: the payload is the first text. *)
Lemma resolver_fails_after_one_repair_witness :
  exists payload,
    parseGeminiJson (H := Sample.engine) Sample.key Sample.model (js "a web shop") Sample.stubborn =
      (inl (ErrorObject payload),
       record_call (record_call Sample.stubborn
                      (primary_call Sample.key Sample.model (js "a web shop")))
                   (repair_call Sample.key Sample.model (js "not json"))) /\
    (extractText (Sample.candidate_of []) <> [] ->
     payload = extractText (Sample.candidate_of [])) /\
    (extractText (Sample.candidate_of []) = [] -> payload = js "not json") /\
    calls (snd (parseGeminiJson (H := Sample.engine) Sample.key Sample.model (js "a web shop")
                  Sample.stubborn)) =
      [primary_call Sample.key Sample.model (js "a web shop");
       repair_call Sample.key Sample.model (js "not json")].
Proof.
  apply (@resolver_fails_after_one_repair Sample.engine Sample.key Sample.model
           (js "a web shop") Sample.stubborn
           {| status := 200; response_text := inr [];
              response_json := inr (Sample.candidate_of [js "not json"]) |}
           {| status := 200; response_text := inr [];
              response_json := inr (Sample.candidate_of []) |}
           (Sample.candidate_of [js "not json"]) (Sample.candidate_of []));
    reflexivity.
Defined.

(** ** The Input Validator *)

Lemma trimStart_whitespace (s : jsstring) : whitespace_only s = true -> trimStart s = [].
Proof.
  unfold whitespace_only. induction s as [|c s IH]; simpl; [reflexivity|].
  intro W. apply andb_true_iff in W as [-> W]. now apply IH.
Qed.

Lemma trim_whitespace (s : jsstring) : whitespace_only s = true -> trim s = [].
Proof. intro W. unfold trim. now rewrite trimStart_whitespace. Qed.

Lemma trimStart_keeps (x : code_unit) (s : jsstring) :
  In x s -> isTrimmed x = false -> In x (trimStart s).
Proof.
  intros Hin Hx. induction s as [|c s IH]; [easy|]. simpl.
  destruct (isTrimmed c) eqn:C; [|exact Hin].
  destruct Hin as [->|Hin]; [congruence|now apply IH].
Qed.

Lemma trim_keeps (x : code_unit) (s : jsstring) :
  In x s -> isTrimmed x = false -> In x (trim s).
Proof.
  intros Hin Hx. unfold trim, trimEnd. rewrite <- in_rev.
  apply trimStart_keeps; [|exact Hx].
  rewrite <- in_rev. now apply trimStart_keeps.
Qed.

Lemma trim_not_whitespace (s : jsstring) : whitespace_only s = false -> trim s <> [].
Proof.
  unfold whitespace_only. intros W.
  assert (X : exists x, In x s /\ isTrimmed x = false).
  { induction s as [|c s IH]; [discriminate|]. simpl in W.
    destruct (isTrimmed c) eqn:C.
    - destruct (IH W) as (x & Hx & Tx). exists x. split; [now right|exact Tx].
    - exists c. split; [now left|exact C]. }
  destruct X as (x & Hx & Tx). intro E.
  apply (trim_keeps x s Hx) in Tx. now rewrite E in Tx.
Qed.

(** The test of the handler is the test for a missing or blank text. *)
Lemma blank_missing_or_blank (body : AnalysisInput) :
  blank body = missing_or_blank (system_text body).
Proof.
  unfold blank, missing_or_blank, falsy.
  destruct (system_text body) as [| |[|c st]]; try reflexivity.
  simpl nullish. cbn [orb].
  destruct (whitespace_only (c :: st)) eqn:W.
  - now rewrite trim_whitespace.
  - apply trim_not_whitespace in W. now destruct (trim (c :: st)).
Qed.

Lemma chain_snippet (body : AnalysisInput) (field : Snippets -> option jsstring) :
  snippets body ?. field = snippet body field.
Proof. reflexivity. Qed.

Lemma length_opt_text_length (o : option jsstring) : length_opt o ?? 0 = text_length o.
Proof. now destruct o. Qed.

Lemma totalInputLength_counted (body : AnalysisInput) (st : jsstring) :
  system_text body = Present st -> totalInputLength body = Some (counted_length body).
Proof.
  intro E. unfold totalInputLength, counted_length. rewrite E.
  now rewrite !chain_snippet, !length_opt_text_length.
Qed.

Section Handler.
Context `{Engine}.

(** The handler on a request that passes the configuration, presence and
    size checks. *)
Lemma POST_analyzes (request : Request) (w : World) (body : AnalysisInput) :
  falsy (GEMINI_API_KEY (env w)) = false ->
  request_json request = inr body ->
  missing_or_blank (system_text body) = false ->
  counted_length body <= MAX_TOTAL_CHARS ->
  POST request w =
  match parseGeminiJson (GEMINI_API_KEY (env w) ?? [])
          (GEMINI_MODEL (env w) ?? js "gemini-3") (buildUserPrompt body) w with
  | (inl e, w') => (inr (failure e), w')
  | (inr resolved, w') =>
      match redaction_filter (parsed resolved) with
      | inl e => (inr (failure e), w')
      | inr sanitizedJson =>
          match JSON_stringify_2 sanitizedJson with
          | inl e => (inr (failure e), w')
          | inr _ => (inr (NextResponse_json sanitizedJson 200), w')
          end
      end
  end.
Proof.
  intros K B S L. rewrite POST_run. cbv zeta.
  rewrite K, B, blank_missing_or_blank, S.
  destruct (system_text body) as [| |st] eqn:T; try discriminate.
  rewrite (totalInputLength_counted body st T).
  apply N.ltb_ge in L. now rewrite L.
Qed.

(** C5. A request whose [system_text] is missing, empty or white space only
    is answered, when the API key is configured, with status 400 and the
    error ["System snapshot is required."], and no call to the model backend
    is made. *)
Theorem blank_system_text_rejected (request : Request) (w : World) (body : AnalysisInput) :
  falsy (GEMINI_API_KEY (env w)) = false ->
  request_json request = inr body ->
  missing_or_blank (system_text body) = true ->
  exists response,
    POST request w = (inr response, w) /\
    response_status response = 400 /\
    response_body response = JObj [(js "error", JStr (js "System snapshot is required."))] /\
    calls (snd (POST request w)) = calls w.
Proof.
  intros K B S. exists SNAPSHOT_REQUIRED.
  assert (E : POST request w = (inr SNAPSHOT_REQUIRED, w)).
  { rewrite POST_run. cbv zeta. now rewrite K, B, blank_missing_or_blank, S. }
  rewrite E. repeat split.
Qed.

Lemma failure_is_failure (e : thrown) : is_failure_response (failure e).
Proof.
  split; [now right|].
  exists (js "Failed to analyze attack paths."). split; [now destruct e|discriminate].
Qed.

(** C10. The handler always returns a response and never throws, and the
    response tells how the run ended. When a stage ends the run with an error,
    the response is a failure response, with status 400 or 500 and a non-empty
    [error] text: status 500 for a missing key, status 400 and the message of
    the validation for a refused request, status 500 with the summary and the
    message of the error as [details] for an error that was thrown. When no
    stage fails, the response has status 200 and the filtered value as its
    body. *)
Theorem POST_total (request : Request) (w : World) :
  exists response,
    fst (POST request w) = inr response /\
    match stages request w with
    | inr sanitizedJson =>
        response_status response = 200 /\ response_body response = sanitizedJson
    | inl error =>
        is_failure_response response /\
        match error with
        | ConfigurationError => response_status response = 500
        | ValidationError message =>
            response_status response = 400 /\
            error_field response = Some (JStr message)
        | ThrownError e =>
            response_status response = 500 /\
            error_field response = Some (JStr (js "Failed to analyze attack paths.")) /\
            details_field response = Some (JStr (message_of e))
        end
    end.
Proof.
  assert (F4 : forall message : jsstring, message <> [] ->
               is_failure_response (NextResponse_json (error_body message) 400)).
  { intros message M. split; [now left|]. exists message. split; [|exact M].
    unfold error_field. simpl. reflexivity. }
  assert (FT : forall e, is_failure_response (failure e) /\
                 response_status (failure e) = 500 /\
                 error_field (failure e) = Some (JStr (js "Failed to analyze attack paths.")) /\
                 details_field (failure e) = Some (JStr (message_of e))).
  { intro e. split; [apply failure_is_failure|]. now destruct e. }
  rewrite POST_run. cbv zeta. unfold stages.
  destruct (GEMINI_API_KEY (env w)) as [[|c apiKey]|]; cbn [falsy nullish].
  1, 3: (exists CONFIGURATION_ERROR; split; [reflexivity|]; split; [|reflexivity];
         split; [now right|]; eexists; split; [reflexivity|discriminate]).
  destruct (request_json request) as [e|body].
  { exists (failure e). split; [reflexivity|apply FT]. }
  rewrite blank_missing_or_blank.
  destruct (missing_or_blank (system_text body)) eqn:S.
  { exists SNAPSHOT_REQUIRED. split; [reflexivity|]. split; [now apply F4|now split]. }
  destruct (system_text body) as [| |st] eqn:T; try discriminate.
  rewrite (totalInputLength_counted body st T). unfold MAX_TOTAL_CHARS.
  destruct (25000 <? counted_length body).
  { exists INPUT_TOO_LARGE. split; [reflexivity|]. split; [now apply F4|now split]. }
  change (GEMINI_MODEL (env w) ?? js "gemini-3")
    with (match GEMINI_MODEL (env w) with Some model => model | None => js "gemini-3" end).
  destruct (parseGeminiJson _ _ _ w) as [[e|resolved] w']; cbn [fst].
  { exists (failure e). split; [reflexivity|apply FT]. }
  destruct (redaction_filter (parsed resolved)) as [e|sanitizedJson].
  { exists (failure e). split; [reflexivity|apply FT]. }
  destruct (JSON_stringify_2 sanitizedJson) as [e|text].
  { exists (failure e). split; [reflexivity|apply FT]. }
  eexists. split; [reflexivity|now split].
Qed.

(** C4, amended. When the key is configured and [system_text] is present and
    not blank, the handler answers with the error ["Input too large. ..."]
    and status 400 exactly when the lengths of [system_text],
    [diagram_summary] and the three snippets add up to more than 25000;
    [what_if] is not counted. *)
Theorem size_check_counts_five_fields (request : Request) (w : World) (body : AnalysisInput) :
  falsy (GEMINI_API_KEY (env w)) = false ->
  request_json request = inr body ->
  missing_or_blank (system_text body) = false ->
  (fst (POST request w) = inr INPUT_TOO_LARGE <-> 25000 < counted_length body) /\
  (25000 < counted_length body -> snd (POST request w) = w).
Proof.
  intros K B S.
  destruct (N.lt_ge_cases 25000 (counted_length body)) as [L|L].
  - assert (E : POST request w = (inr INPUT_TOO_LARGE, w)).
    { rewrite POST_run. cbv zeta. rewrite K, B, blank_missing_or_blank, S.
      destruct (system_text body) as [| |st] eqn:T; try discriminate.
      rewrite (totalInputLength_counted body st T).
      apply N.ltb_lt in L. unfold MAX_TOTAL_CHARS. now rewrite L. }
    rewrite E. split; [split; [now intros _|reflexivity]|reflexivity].
  - split; [|intro L'; lia]. split; [|intro L'; lia].
    rewrite (POST_analyzes request w body K B S L).
    destruct (parseGeminiJson _ _ _ w) as [[e|resolved] w']; [discriminate|].
    destruct (redaction_filter (parsed resolved)) as [e|sanitizedJson]; [discriminate|].
    destruct (JSON_stringify_2 sanitizedJson); discriminate.
Qed.

End Handler.

(** [blank_system_text_rejected] on a [system_text] of two spaces. *)
Lemma blank_system_text_rejected_witness :
  exists response,
    POST (H := Sample.engine) (Sample.request (js "  ") None) Sample.obedient =
      (inr response, Sample.obedient) /\
    response_status response = 400 /\
    response_body response = JObj [(js "error", JStr (js "System snapshot is required."))] /\
    calls (snd (POST (H := Sample.engine) (Sample.request (js "  ") None) Sample.obedient)) = [].
Proof.
  apply (@blank_system_text_rejected Sample.engine (Sample.request (js "  ") None)
           Sample.obedient (Sample.input (js "  ") None)); reflexivity.
Defined.

(** [size_check_counts_five_fields] on a short request. *)
Lemma size_check_counts_five_fields_witness :
  (fst (POST (H := Sample.engine) (Sample.request (js "a web shop") None) Sample.obedient) =
     inr INPUT_TOO_LARGE <->
   25000 < counted_length (Sample.input (js "a web shop") None)) /\
  (25000 < counted_length (Sample.input (js "a web shop") None) ->
   snd (POST (H := Sample.engine) (Sample.request (js "a web shop") None) Sample.obedient) =
   Sample.obedient).
Proof.
  apply (@size_check_counts_five_fields Sample.engine (Sample.request (js "a web shop") None)
           Sample.obedient (Sample.input (js "a web shop") None)); reflexivity.
Defined.

(** A request with one code unit of [system_text] and 25000 of [what_if]:
    25001 in all, and the size check passes. *)
Lemma what_if_is_not_counted :
  25000 < all_text_length (Sample.input (js "a") (Some Sample.long_text)) /\
  fst (POST (H := Sample.engine) (Sample.request (js "a") (Some Sample.long_text))
         Sample.unreachable) <> inr INPUT_TOO_LARGE.
Proof.
  split; [vm_compute; reflexivity|].
  rewrite (@POST_analyzes Sample.engine _ _ (Sample.input (js "a") (Some Sample.long_text)));
    try reflexivity.
  - rewrite parseGeminiJson_run, callGemini_run. discriminate.
  - vm_compute. discriminate.
Qed.

(** ** The Model Client: text extraction *)

Lemma concat_present_texts (ps : list Part) :
  concat (map (fun part => text part ?? []) ps) =
  concat (flat_map (fun part => match text part with Some t => [t] | None => [] end) ps).
Proof.
  induction ps as [|[[t|]] ps IH]; simpl; [reflexivity| |exact IH].
  now rewrite IH.
Qed.

(** C8, amended. The extracted text is the concatenation of the text
    fragments of the first candidate with leading and trailing white space
    trimmed off; it is empty when there is no candidate or no fragment. *)
Theorem extractText_trims_concatenation (response : GeminiResponse) :
  extractText response = trim (concat (text_fragments response)) /\
  (text_fragments response = [] -> extractText response = []).
Proof.
  assert (E : extractText response = trim (concat (text_fragments response))).
  { unfold extractText, text_fragments.
    destruct (candidates response) as [[|first cs]|]; try reflexivity. simpl.
    destruct (content first) as [c|]; [|reflexivity]. simpl.
    destruct (parts c) as [ps|]; [|reflexivity]. simpl.
    unfold join_empty. now rewrite concat_present_texts. }
  split; [exact E|]. intro F. now rewrite E, F.
Qed.

(** The fragments [" hi"] and [" there "] are extracted as ["hi there"]. *)
Lemma extractText_is_not_the_concatenation :
  extractText (Sample.candidate_of [js " hi"; js " there "]) <>
  concat (text_fragments (Sample.candidate_of [js " hi"; js " there "])).
Proof. vm_compute. discriminate. Qed.

(** ** The Prompt Assembler *)

(** C9. The user-content block is determined by six texts of the request:
    [system_text], [diagram_summary] and the three snippets, each empty when
    absent, and [what_if], or the marker [NONE] when it is absent. *)
Theorem buildUserPrompt_block (input : AnalysisInput) (st : jsstring) :
  system_text input = Present st ->
  buildUserPrompt input =
  user_content_block st
    (or_empty (diagram_summary input))
    (or_empty (snippet input config))
    (or_empty (snippet input logs))
    (or_empty (snippet input code))
    (what_if_or_NONE (what_if input)).
Proof.
  intro E. unfold buildUserPrompt, user_content_block. rewrite E.
  rewrite !chain_snippet.
  unfold nullish, or_empty, what_if_or_NONE, interpolate.
  now rewrite <- !app_assoc.
Qed.

(** [buildUserPrompt_block] on a request without what-if. *)
Lemma buildUserPrompt_block_witness :
  buildUserPrompt (Sample.input (js "a web shop") None) =
  user_content_block (js "a web shop") [] [] [] [] (js "NONE").
Proof.
  apply (buildUserPrompt_block (Sample.input (js "a web shop") None) (js "a web shop")).
  reflexivity.
Defined.

(** ** Transport failures and backend errors *)

Section Surfacing.
Context `{Engine}.

Lemma parseGeminiJson_last_answer
    (apiKey model userPrompt : jsstring) (w : World) (answer : thrown + FetchResponse)
    (e : thrown) :
  last_answer w apiKey model userPrompt answer ->
  match answer with
  | inl e' => e' = e
  | inr response =>
      ok response = false /\
      match response_text response with
      | inl e' => e' = e
      | inr details =>
          e = ErrorObject (js "Gemini API error: " ++ decimal (status response) ++
                           js " " ++ details)
      end
  end ->
  fst (parseGeminiJson apiKey model userPrompt w) = inl e.
Proof.
  intros [A|(response1 & g1 & A1 & O1 & J1 & P1 & A)] F; unfold primary_call, repair_call in *;
    rewrite parseGeminiJson_run.
  - rewrite callGemini_run. cbv zeta. rewrite A.
    destruct answer as [e'|response]; [now subst|].
    destruct F as (O & F). rewrite O.
    destruct (response_text response); now subst.
  - rewrite (callGemini_answers _ _ _ _ response1 g1 A1 O1 J1). cbv zeta. rewrite P1.
    rewrite callGemini_run. cbv zeta. rewrite A.
    destruct answer as [e'|response]; [now subst|].
    destruct F as (O & F). rewrite O.
    destruct (response_text response); now subst.
Qed.

(** C7, amended. A network call that cannot be completed and a non-success
    answer of the backend are reported alike, whether it is the primary call
    or the repair call that ends so: status 500 and the summary
    ["Failed to analyze attack paths."]. The two responses differ in one
    text only, which each carries as [details] and as [raw_output]: the
    message of the error thrown in the first case, the text built from the
    status and body of the answer in the second. *)
Theorem transport_failure_reported_like_backend_error
    (request : Request) (body : AnalysisInput) (w_down w_up : World)
    (message : jsstring) (response : FetchResponse) (details : jsstring) :
  let ended w := last_answer w (GEMINI_API_KEY (env w) ?? [])
                   (GEMINI_MODEL (env w) ?? js "gemini-3") (buildUserPrompt body) in
  falsy (GEMINI_API_KEY (env w_down)) = false ->
  falsy (GEMINI_API_KEY (env w_up)) = false ->
  request_json request = inr body ->
  missing_or_blank (system_text body) = false ->
  counted_length body <= MAX_TOTAL_CHARS ->
  ended w_down (inl (ErrorObject message)) ->
  ended w_up (inr response) ->
  ok response = false ->
  response_text response = inr details ->
  fst (POST request w_down) = inr (reported message) /\
  fst (POST request w_up) =
    inr (reported (js "Gemini API error: " ++ decimal (status response) ++ js " " ++ details)).
Proof.
  intros ended Kd Ku B S L Ad Au O T. subst ended.
  rewrite (POST_analyzes request w_down body Kd B S L).
  rewrite (POST_analyzes request w_up body Ku B S L).
  pose proof (parseGeminiJson_last_answer _ _ _ _ _ (ErrorObject message) Ad eq_refl) as Ed.
  assert (Fu : ok response = false /\
               match response_text response with
               | inl e' => e' = ErrorObject (js "Gemini API error: " ++
                                             decimal (status response) ++ js " " ++ details)
               | inr details0 =>
                   ErrorObject (js "Gemini API error: " ++ decimal (status response) ++
                                js " " ++ details) =
                   ErrorObject (js "Gemini API error: " ++ decimal (status response) ++
                                js " " ++ details0)
               end) by now rewrite T.
  pose proof (parseGeminiJson_last_answer _ _ _ _ _ _ Au Fu) as Eu.
  destruct (parseGeminiJson _ _ _ w_down) as [[e|r] w']; cbn [fst] in Ed; [|discriminate].
  destruct (parseGeminiJson _ _ _ w_up) as [[e'|r'] w'']; cbn [fst] in Eu; [|discriminate].
  injection Ed as ->. injection Eu as ->. split; reflexivity.
Qed.

End Surfacing.

(** [transport_failure_reported_like_backend_error] on a backend that
    cannot be reached for the repair call and on one that answers 503. *)
Lemma transport_failure_reported_like_backend_error_witness :
  fst (POST (H := Sample.engine) (Sample.request (js "a web shop") None) Sample.flaky) =
    inr (reported (js "fetch failed")) /\
  fst (POST (H := Sample.engine) (Sample.request (js "a web shop") None) Sample.overloaded) =
    inr (reported (js "Gemini API error: " ++ decimal 503 ++ js " " ++ js "overloaded")).
Proof.
  apply (@transport_failure_reported_like_backend_error Sample.engine
           (Sample.request (js "a web shop") None) (Sample.input (js "a web shop") None)
           Sample.flaky Sample.overloaded (js "fetch failed")
           {| status := 503; response_text := inr (js "overloaded");
              response_json := inl (ErrorObject (js "Unexpected token")) |}
           (js "overloaded"));
    try reflexivity.
  - vm_compute. discriminate.
  - right.
    exists {| status := 200; response_text := inr [];
              response_json := inr (Sample.candidate_of [js "not json"]) |},
           (Sample.candidate_of [js "not json"]).
    repeat split; reflexivity.
  - left. reflexivity.
Defined.

(** The responses for a backend that cannot be reached and for one that
    answers 503 have the same status and the same error summary. *)
Lemma transport_failure_is_not_distinct :
  exists on_transport on_backend,
    fst (POST (H := Sample.engine) (Sample.request (js "a web shop") None) Sample.unreachable) =
      inr on_transport /\
    fst (POST (H := Sample.engine) (Sample.request (js "a web shop") None) Sample.overloaded) =
      inr on_backend /\
    ~ surfaced_distinctly on_transport on_backend.
Proof.
  eexists. eexists. split; [vm_compute; reflexivity|]. split; [vm_compute; reflexivity|].
  intros [S|E]; [apply S|apply E]; reflexivity.
Qed.

(** ** The Redaction Filter *)

(** ** Every occurrence gives way to the marker *)

Lemma match_at_firstn (p : pattern) (s : jsstring) :
  match_at p s = true -> match_at p (firstn (length p) s) = true.
Proof.
  revert s; induction p as [|a p IH]; intros [|c s]; simpl; try easy.
  intro E. apply andb_true_iff in E as [E1 E2]. rewrite E1. now apply IH.
Qed.

Lemma matched_firstn (p : pattern) (s : jsstring) :
  match_at p s = true -> matched p (firstn (length p) s).
Proof.
  intro E. split; [|now apply match_at_firstn].
  apply match_at_length in E. rewrite length_firstn. lia.
Qed.

(** The scan of [String.prototype.replace] replaces every occurrence. *)
Lemma replace_from_replaced (k s : jsstring) :
  compile k <> [] -> replaced k s (replace_from (compile k) REDACTED 0 s).
Proof.
  intro Hp.
  assert (G : forall n s, (length s <= n)%nat ->
                replaced k s (replace_from (compile k) REDACTED 0 s)).
  { clear s. induction n as [|n IH]; intros s L.
    - destruct s; [constructor|simpl in L; lia].
    - destruct s as [|c s]; [constructor|].
      destruct (match_at (compile k) (c :: s)) eqn:M.
      + rewrite (replace_from_match (compile k) REDACTED (c :: s) Hp M).
        rewrite <- (firstn_skipn (length (compile k)) (c :: s)) at 1.
        apply replaced_occurrence; [now apply matched_firstn|].
        apply IH. rewrite length_skipn.
        destruct (compile k); [contradiction|]. simpl in *. lia.
      + rewrite (replace_from_keep (compile k) REDACTED c s M).
        apply replaced_kept; [exact M|]. apply IH. simpl in L. lia. }
  apply (G (length s)). lia.
Qed.

(** One iteration of the loop replaces every occurrence of its keyword. *)
Lemma sanitize_keyword_replaced (sanitized : jsstring) (redacted : bool) (k : jsstring) :
  compile k <> [] ->
  replaced k sanitized (fst (sanitize_keyword (sanitized, redacted) k)).
Proof.
  intro Hp. rewrite sanitize_keyword_eq.
  destruct (occurs (compile k) sanitized) eqn:O; cbn [fst].
  - now apply replace_from_replaced.
  - rewrite <- (replace_from_absent (compile k) REDACTED sanitized O) at 2.
    now apply replace_from_replaced.
Qed.

Lemma sanitize_fold_replaced (ks : list jsstring) (s : jsstring) (r : bool) :
  Forall (fun k => compile k <> []) ks ->
  replaced_in_turn ks s (fst (fold_left sanitize_keyword ks (s, r))).
Proof.
  revert s r; induction ks as [|k ks IH]; intros s r F; [constructor|].
  inversion F as [|k' ks' Hk Hks]; subst. cbn [fold_left].
  apply in_turn_cons with (t := fst (sanitize_keyword (s, r) k)).
  - now apply sanitize_keyword_replaced.
  - destruct (sanitize_keyword (s, r) k) as [t r']. apply IH, Hks.
Qed.

Lemma EXPLOIT_KEYWORDS_not_empty : Forall (fun k => compile k <> []) EXPLOIT_KEYWORDS.
Proof. repeat (constructor; [discriminate|]). constructor. Qed.

(** [sanitizeOutput] replaces every occurrence of each keyword, in the order
    of the list. *)
Lemma sanitizeOutput_replaced (jsonString : jsstring) :
  replaced_in_turn EXPLOIT_KEYWORDS jsonString (fst (sanitizeOutput jsonString)).
Proof. apply sanitize_fold_replaced, EXPLOIT_KEYWORDS_not_empty. Qed.

(** *** The marker stays *)

(** A text at none of whose code units a match can begin is passed as it
    is. *)
Lemma replace_from_clash (p : pattern) (r x b : jsstring) :
  Forall (fun x' => clash p x' = true) (tails x) ->
  replace_from p r 0 (x ++ b) = x ++ replace_from p r 0 b.
Proof.
  induction x as [|c x IH]; intro F; [reflexivity|].
  cbn [tails] in F. inversion F as [|x' xs Hc Hx]; subst.
  change ((c :: x) ++ b) with (c :: x ++ b).
  rewrite replace_from_keep.
  - cbn [app]. f_equal. now apply IH.
  - change (c :: x ++ b) with ((c :: x) ++ b). now apply clash_match_at.
Qed.

Lemma replace_from_marked (p : pattern) (s : jsstring) :
  p <> [] -> apart p REDACTED = true ->
  marked s -> marked (replace_from p REDACTED 0 s).
Proof.
  intros Hp A (a & b & ->). induction a as [|c a IH].
  - exists [], (replace_from p REDACTED 0 b). cbn [app].
    change MARKER with REDACTED. apply replace_from_clash.
    apply Forall_forall. intros x' Hx. now apply (apart_inside p REDACTED A).
  - change ((c :: a) ++ MARKER ++ b) with (c :: a ++ MARKER ++ b).
    destruct (match_at p (c :: a ++ MARKER ++ b)) eqn:M.
    + rewrite (replace_from_match p REDACTED _ Hp M).
      now exists [], (replace_from p REDACTED 0 (skipn (length p) (c :: a ++ MARKER ++ b))).
    + rewrite (replace_from_keep p REDACTED c _ M).
      destruct IH as (a' & b' & ->). now exists (c :: a'), b'.
Qed.

Lemma replace_from_marks (p : pattern) (s : jsstring) :
  p <> [] -> occurs p s = true -> marked (replace_from p REDACTED 0 s).
Proof.
  intros Hp. induction s as [|c s IH]; intro O.
  - destruct p; [contradiction|discriminate].
  - destruct (match_at p (c :: s)) eqn:M.
    + rewrite (replace_from_match p REDACTED _ Hp M).
      now exists [], (replace_from p REDACTED 0 (skipn (length p) (c :: s))).
    + rewrite (replace_from_keep p REDACTED c _ M).
      rewrite occurs_cons, M in O. destruct (IH O) as (a & b & ->).
      now exists (c :: a), b.
Qed.

Lemma sanitize_fold_marked (ks : list jsstring) (s : jsstring) (r : bool) :
  Forall keyword_apart ks ->
  marked s \/ (exists k, In k ks /\ occurs (compile k) s = true) ->
  marked (fst (fold_left sanitize_keyword ks (s, r))).
Proof.
  revert s r; induction ks as [|k ks IH]; intros s r F D.
  - destruct D as [D|(k & [] & _)]. exact D.
  - inversion F as [|k' ks' Ak Aks]; subst. cbn [fold_left].
    assert (Hp : compile k <> []).
    { unfold keyword_apart, apart in Ak. now destruct (compile k). }
    rewrite sanitize_keyword_eq.
    destruct (occurs (compile k) s) eqn:O.
    + apply IH; [exact Aks|]. left. now apply replace_from_marks.
    + apply IH; [exact Aks|]. destruct D as [D|(k0 & [<-|Hk0] & O0)].
      * now left.
      * congruence.
      * right. now exists k0.
Qed.

(** When [sanitizeOutput] reports a redaction, the marker stands in the text
    it returns. *)
Lemma sanitizeOutput_marked (jsonString : jsstring) :
  snd (sanitizeOutput jsonString) = true -> marked (fst (sanitizeOutput jsonString)).
Proof.
  intro R. apply sanitizeOutput_redacted in R.
  apply sanitize_fold_marked; [apply EXPLOIT_KEYWORDS_apart|now right].
Qed.

Section Redaction.
Context `{Engine}.

Lemma EXPLOIT_KEYWORDS_not_brace (k : jsstring) :
  In k EXPLOIT_KEYWORDS -> clash (compile k) [LEFT_BRACE] = true.
Proof.
  unfold EXPLOIT_KEYWORDS. simpl.
  intros Hin. repeat (destruct Hin as [<-|Hin]; [reflexivity|]). contradiction.
Qed.

(** The text after redaction of the serialization of an object still begins
    with its brace. *)
Lemma sanitized_object_head (props : list (jsstring * json)) :
  exists s, fst (sanitizeOutput (serialization (JObj props))) = LEFT_BRACE :: s.
Proof.
  destruct (stringify_object_head props) as (t & ->).
  apply sanitize_fold_head, EXPLOIT_KEYWORDS_not_brace.
Qed.

(** The filter after a serialization that completes. *)
Lemma redaction_filter_run (v : json) (rawString : jsstring) :
  JSON_stringify_2 v = inr rawString ->
  redaction_filter v =
  match JSON_parse_or_throw (fst (sanitizeOutput rawString)) with
  | inl e => inl e
  | inr sanitizedJson =>
      if snd (sanitizeOutput rawString) then prepend_note sanitizedJson
      else inr sanitizedJson
  end.
Proof.
  intro E. unfold redaction_filter. rewrite E.
  now destruct (sanitizeOutput rawString).
Qed.

(** Without a match of a pattern of the list the filter returns what the
    serialization of the value parses to, with no note. *)
Lemma redaction_filter_untouched (v : json) (rawString : jsstring) :
  JSON_stringify_2 v = inr rawString ->
  snd (sanitizeOutput rawString) = false ->
  redaction_filter v = JSON_parse_or_throw rawString.
Proof.
  intros E F. rewrite (redaction_filter_run v rawString E), F.
  rewrite (sanitizeOutput_untouched _ F). cbn [fst].
  now destruct (JSON_parse_or_throw rawString).
Qed.

Lemma prepend_note_object (props : list (jsstring * json)) :
  prepend_note (JObj props) =
  inr (JObj (set_own props SAFE_NOTES (JArr (JStr NOTE :: safe_notes_of props)))).
Proof.
  unfold prepend_note, safe_notes_of.
  now destruct (get_own props SAFE_NOTES) as [[| | | |notes|]|].
Qed.

(** C1, amended. For a resolved JSON object with a keyword of the list, in
    whatever case, inside one of its strings, whose serialization completes
    and whose redacted serialization parses again: the redacted text is the
    serialization with every occurrence of each keyword of the list in turn
    replaced by the marker [[redacted]] and nothing else changed; the marker
    stands in it and no keyword of the list occurs in it any more, in
    whatever case; and the filter returns the object the redacted text parses
    to with the disclosure note as the first element of [safe_notes], before
    the elements the sequence had, if it was there and was an array. *)
Theorem redaction_replaces_and_notes
    (props : list (jsstring * json)) (s k rawString : jsstring) (sanitizedJson : json) :
  In s (string_fields (JObj props)) ->
  In k EXPLOIT_KEYWORDS ->
  occurs_ignoring_case k s ->
  JSON_stringify_2 (JObj props) = inr rawString ->
  JSON_parse (fst (sanitizeOutput rawString)) = Some sanitizedJson ->
  exists sanitized props' returned,
    rawString = serialization (JObj props) /\
    sanitizeOutput rawString = (sanitized, true) /\
    replaced_in_turn EXPLOIT_KEYWORDS rawString sanitized /\
    marked sanitized /\
    (forall k', In k' EXPLOIT_KEYWORDS -> ~ occurs_ignoring_case k' sanitized) /\
    sanitizedJson = JObj props' /\
    JSON_parse sanitized = Some (JObj props') /\
    redaction_filter (JObj props) = inr (JObj returned) /\
    returned =
      set_own props' (js "safe_notes")
        (JArr (JStr (js "Some potentially unsafe terms were redacted.") ::
               safe_notes_of props')) /\
    get_own returned (js "safe_notes") =
      Some (JArr (JStr (js "Some potentially unsafe terms were redacted.") ::
                  safe_notes_of props')).
Proof.
  intros Hs Hk O E P.
  pose proof (JSON_stringify_2_text _ _ E) as T.
  assert (R : snd (sanitizeOutput rawString) = true).
  { rewrite T. exact (string_field_redacted (JObj props) s k Hs Hk O). }
  destruct (sanitized_object_head props) as (t & Ht). rewrite <- T in Ht.
  rewrite Ht in P. destruct (JSON_parse_object t sanitizedJson P) as (props' & ->).
  rewrite <- Ht in P.
  exists (fst (sanitizeOutput rawString)), props',
    (set_own props' SAFE_NOTES (JArr (JStr NOTE :: safe_notes_of props'))).
  split; [exact T|].
  split; [rewrite <- R; now destruct (sanitizeOutput rawString)|].
  split; [apply sanitizeOutput_replaced|].
  split; [now apply sanitizeOutput_marked|].
  split.
  { intros k' Hk' O'. apply occurs_compile in O'.
    now rewrite sanitizeOutput_clean in O'. }
  split; [reflexivity|].
  split; [exact P|].
  split; [|split; [reflexivity|apply get_own_set_own]].
  rewrite (redaction_filter_run (JObj props) rawString E), R.
  unfold JSON_parse_or_throw. rewrite P. apply prepend_note_object.
Qed.

(** C3, at a value the code changes. The advice to restrict cmd execution
    names no keyword of the list, in whatever case, and yet the filter
    rewrites it and adds the disclosure note: the full stop of the keyword
    [cmd.exe] is read as the wildcard of the regular expression and matches
    the space. *)
Theorem wildcard_redacts_unlisted_text :
  (forall k, In k EXPLOIT_KEYWORDS ->
     ~ occurs_ignoring_case k (serialization cmd_execution_advice)) /\
  redaction_filter cmd_execution_advice =
    inr (JObj [(js "mitigations", JArr [JStr (js "Restrict [redacted]cution on servers")]);
               (SAFE_NOTES, JArr [JStr NOTE])]).
Proof.
  split.
  - unfold EXPLOIT_KEYWORDS. simpl. intros k Hin O. apply occurs_literal in O.
    repeat (destruct Hin as [<-|Hin]; [vm_compute in O; discriminate O|]).
    contradiction.
  - rewrite (redaction_filter_run cmd_execution_advice (serialization cmd_execution_advice))
      by (apply JSON_stringify_2_shallow; reflexivity).
    vm_compute. reflexivity.
Qed.

End Redaction.

(** [redaction_replaces_and_notes] on a mitigation that names Metasploit. *)
Lemma redaction_replaces_and_notes_witness :
  exists sanitized props' returned,
    serialization (H := Sample.engine)
      (JObj [(js "mitigations", JStr (js "use Metasploit to gain access"))]) =
    serialization (H := Sample.engine)
      (JObj [(js "mitigations", JStr (js "use Metasploit to gain access"))]) /\
    sanitizeOutput
      (serialization (H := Sample.engine)
         (JObj [(js "mitigations", JStr (js "use Metasploit to gain access"))])) =
      (sanitized, true) /\
    replaced_in_turn EXPLOIT_KEYWORDS
      (serialization (H := Sample.engine)
         (JObj [(js "mitigations", JStr (js "use Metasploit to gain access"))]))
      sanitized /\
    marked sanitized /\
    (forall k', In k' EXPLOIT_KEYWORDS -> ~ occurs_ignoring_case k' sanitized) /\
    JObj [(js "mitigations", JStr (js "use [redacted] to gain access"))] = JObj props' /\
    JSON_parse sanitized = Some (JObj props') /\
    redaction_filter (H := Sample.engine)
      (JObj [(js "mitigations", JStr (js "use Metasploit to gain access"))]) =
      inr (JObj returned) /\
    returned =
      set_own props' (js "safe_notes")
        (JArr (JStr (js "Some potentially unsafe terms were redacted.") ::
               safe_notes_of props')) /\
    get_own returned (js "safe_notes") =
      Some (JArr (JStr (js "Some potentially unsafe terms were redacted.") ::
                  safe_notes_of props')).
Proof.
  apply (@redaction_replaces_and_notes Sample.engine
           [(js "mitigations", JStr (js "use Metasploit to gain access"))]
           (js "use Metasploit to gain access") (js "metasploit")
           (serialization (H := Sample.engine)
              (JObj [(js "mitigations", JStr (js "use Metasploit to gain access"))]))
           (JObj [(js "mitigations", JStr (js "use [redacted] to gain access"))])).
  - simpl. now left.
  - simpl. tauto.
  - apply occurs_literal. vm_compute. reflexivity.
  - reflexivity.
  - vm_compute. reflexivity.
Defined.

(** The sample values are resolved values: each is what [JSON.parse] returns
    on a text. *)
Lemma sample_values_resolved :
  JSON_parse Sample.carriage_return_text = Some Sample.carriage_return_note /\
  JSON_parse Sample.array_of_advice_text = Some Sample.array_of_advice /\
  JSON_parse (H := Sample.engine) Sample.cmd_execution_text = Some cmd_execution_advice.
Proof. repeat split; vm_compute; reflexivity. Qed.

(** Two values with a keyword in a string for which no note is returned: on
    the first the redacted text ["[redacted] \[redacted]"] is not JSON and
    the filter throws; the second is an array, and comes back without
    [safe_notes]. *)
Lemma redaction_can_fail_or_drop_the_note :
  (In (js "payload " ++ [13] ++ js "everse shell") (string_fields Sample.carriage_return_note) /\
   occurs_ignoring_case (js "payload") (js "payload " ++ [13] ++ js "everse shell") /\
   forall returned, redaction_filter Sample.carriage_return_note <> inr returned) /\
  (In (js "use metasploit to gain access") (string_fields Sample.array_of_advice) /\
   occurs_ignoring_case (js "metasploit") (js "use metasploit to gain access") /\
   redaction_filter Sample.array_of_advice =
     inr (JArr [JObj [(js "mitigations", JStr (js "use [redacted] to gain access"))]])).
Proof.
  split; (split; [simpl; now left|]); (split; [apply occurs_literal; vm_compute; reflexivity|]).
  - intros returned E. vm_compute in E. discriminate E.
  - vm_compute. reflexivity.
Qed.

(** ** Reading a serialization back *)

Section ReadingBack.
Context `{Engine}.

Lemma hex_value_digit (d : N) : d < 16 -> hex_value (hex_digit d) = Some d.
Proof.
  intro L. unfold hex_digit, hex_value, isDigit.
  destruct (N.ltb_spec d 10).
  - replace ((48 <=? 48 + d) && (48 + d <=? 57)) with true.
    + f_equal. lia.
    + symmetry. apply andb_true_iff. split; apply N.leb_le; lia.
  - replace ((48 <=? 87 + d) && (87 + d <=? 57)) with false.
    + replace ((97 <=? 87 + d) && (87 + d <=? 102)) with true.
      * f_equal. lia.
      * symmetry. apply andb_true_iff. split; apply N.leb_le; lia.
    + symmetry. apply andb_false_iff. right. apply N.leb_gt. lia.
Qed.

Lemma hex4_UnicodeEscape (c : code_unit) :
  c < 65536 ->
  hex4 (hex_digit (c / 4096 mod 16)) (hex_digit (c / 256 mod 16))
       (hex_digit (c / 16 mod 16)) (hex_digit (c mod 16)) = Some c.
Proof.
  intro L. unfold hex4.
  rewrite !hex_value_digit by (apply N.mod_lt; discriminate).
  f_equal.
  pose proof (N.Div0.mod_mul_r c 16 16) as E1.
  pose proof (N.Div0.mod_mul_r c 256 16) as E2.
  pose proof (N.div_mod c 4096 ltac:(discriminate)) as E3.
  change (16 * 16) with 256 in E1. change (256 * 16) with 4096 in E2.
  assert (S : c / 4096 mod 16 = c / 4096).
  { apply N.mod_small. apply N.Div0.div_lt_upper_bound. lia. }
  rewrite S. lia.
Qed.

Lemma parse_chars_raw (c : code_unit) (t : jsstring) :
  32 <= c -> c <> DQUOTE -> c <> BACKSLASH ->
  parse_chars (c :: t) = cons_char c (parse_chars t).
Proof.
  intros L Q B. cbn [parse_chars].
  destruct (N.eqb_spec c DQUOTE); [contradiction|].
  destruct (N.eqb_spec c BACKSLASH); [contradiction|].
  destruct (N.ltb_spec c 32); [lia|reflexivity].
Qed.

Lemma parse_chars_UnicodeEscape (c : code_unit) (t : jsstring) :
  c < 65536 -> parse_chars (UnicodeEscape c ++ t) = cons_char c (parse_chars t).
Proof.
  intro L. unfold UnicodeEscape. cbn [app parse_chars].
  change (BACKSLASH =? DQUOTE) with false. change (BACKSLASH =? BACKSLASH) with true.
  change (117 =? 117) with true. cbv iota.
  now rewrite hex4_UnicodeEscape.
Qed.

Lemma parse_chars_escape_unit (c : code_unit) (t : jsstring) :
  parse_chars (escape_unit c ++ t) = cons_char c (parse_chars t).
Proof.
  unfold escape_unit.
  repeat match goal with
         | |- context [if ?x =? ?y then _ else _] =>
             destruct (N.eqb_spec x y) as [->|?]; [reflexivity|]
         end.
  destruct (N.ltb_spec c 32).
  - apply parse_chars_UnicodeEscape. lia.
  - now apply parse_chars_raw.
Qed.

Lemma surrogate_raw (c : code_unit) :
  isLeadingSurrogate c = true \/ isTrailingSurrogate c = true ->
  32 <= c /\ c <> DQUOTE /\ c <> BACKSLASH /\ c < 65536.
Proof.
  unfold isLeadingSurrogate, isTrailingSurrogate, DQUOTE, BACKSLASH.
  intros [S|S]; apply andb_true_iff in S as [S1 S2]; apply N.leb_le in S1, S2; lia.
Qed.

(** A quoted string reads back as the string. *)
Lemma parse_chars_quote_chars (n : nat) :
  forall s rest, (length s <= n)%nat ->
  parse_chars (quote_chars s ++ DQUOTE :: rest) = Some (s, rest).
Proof.
  induction n as [|n IH]; intros s rest Hn.
  - destruct s; [reflexivity|simpl in Hn; lia].
  - destruct s as [|c s]; [reflexivity|]. simpl in Hn. cbn [quote_chars].
    destruct (isLeadingSurrogate c) eqn:Lc.
    + destruct (surrogate_raw c (or_introl Lc)) as (C1 & C2 & C3 & C4).
      destruct s as [|d s].
      * rewrite parse_chars_UnicodeEscape by exact C4. reflexivity.
      * destruct (isTrailingSurrogate d) eqn:Td.
        -- destruct (surrogate_raw d (or_intror Td)) as (D1 & D2 & D3 & D4).
           rewrite <- !app_comm_cons.
           rewrite parse_chars_raw by assumption.
           rewrite parse_chars_raw by assumption.
           simpl in Hn. now rewrite IH by lia.
        -- rewrite <- app_assoc, parse_chars_UnicodeEscape by exact C4.
           now rewrite IH by (simpl in *; lia).
    + destruct (isTrailingSurrogate c) eqn:Tc.
      * destruct (surrogate_raw c (or_intror Tc)) as (C1 & C2 & C3 & C4).
        rewrite <- app_assoc, parse_chars_UnicodeEscape by exact C4.
        now rewrite IH by lia.
      * rewrite <- app_assoc, parse_chars_escape_unit.
        now rewrite IH by lia.
Qed.

Lemma parse_value_S (fuel : nat) (s : jsstring) :
  parse_value (S fuel) s = value_step (parse_members fuel) (parse_elements fuel) s.
Proof. reflexivity. Qed.

Lemma parse_members_S (fuel : nat) (acc : list (jsstring * json)) (s : jsstring) :
  parse_members (S fuel) acc s =
  members_step (parse_value fuel) (parse_members fuel) acc s.
Proof. reflexivity. Qed.

Lemma parse_elements_S (fuel : nat) (acc : list json) (s : jsstring) :
  parse_elements (S fuel) acc s =
  elements_step (parse_value fuel) (parse_elements fuel) acc s.
Proof. reflexivity. Qed.

Lemma value_step_more members members' elements elements' :
  more2 members members' -> more2 elements elements' ->
  more1 (value_step members elements) (value_step members' elements').
Proof.
  intros Mm Me s. unfold value_step.
  destruct (skip_ws s) as [|c r]; [reflexivity|].
  destruct (c =? LEFT_BRACE).
  { destruct (skip_ws r) as [|c' r']; [reflexivity|].
    destruct (c' =? RIGHT_BRACE); [reflexivity|apply Mm]. }
  destruct (c =? LEFT_BRACKET).
  { destruct (skip_ws r) as [|c' r']; [reflexivity|].
    destruct (c' =? RIGHT_BRACKET); [reflexivity|apply Me]. }
  reflexivity.
Qed.

Lemma members_step_more value value' members members' :
  more1 value value' -> more2 members members' ->
  more2 (members_step value members) (members_step value' members').
Proof.
  intros Mv Mm acc s. unfold members_step.
  destruct (skip_ws s) as [|q r]; [reflexivity|].
  destruct (q =? DQUOTE); [|reflexivity].
  destruct (parse_chars r) as [[key r1]|]; [|reflexivity].
  destruct (skip_ws r1) as [|colon r2]; [reflexivity|].
  destruct (colon =? COLON); [|reflexivity].
  specialize (Mv r2). destruct (value r2) as [| |v r3]; [contradiction|now rewrite Mv|].
  rewrite Mv by discriminate. cbv zeta.
  destruct (skip_ws r3) as [|d r4]; [reflexivity|].
  destruct (d =? COMMA); [apply Mm|reflexivity].
Qed.

Lemma elements_step_more value value' elements elements' :
  more1 value value' -> more2 elements elements' ->
  more2 (elements_step value elements) (elements_step value' elements').
Proof.
  intros Mv Me acc s. unfold elements_step.
  specialize (Mv s). destruct (value s) as [| |v r]; [contradiction|now rewrite Mv|].
  rewrite Mv by discriminate. cbv zeta.
  destruct (skip_ws r) as [|d r']; [reflexivity|].
  destruct (d =? COMMA); [apply Me|reflexivity].
Qed.

(** One more unit of fuel does not change a result. *)
Lemma parse_more_fuel (fuel : nat) :
  more1 (parse_value fuel) (parse_value (S fuel)) /\
  more2 (parse_members fuel) (parse_members (S fuel)) /\
  more2 (parse_elements fuel) (parse_elements (S fuel)).
Proof.
  induction fuel as [|fuel (IHv & IHm & IHe)].
  - repeat split; intros ? **; contradiction.
  - split; [|split].
    + intros s. rewrite (parse_value_S (S fuel)), (parse_value_S fuel).
      now apply value_step_more.
    + intros acc s. rewrite (parse_members_S (S fuel)), (parse_members_S fuel).
      now apply members_step_more.
    + intros acc s. rewrite (parse_elements_S (S fuel)), (parse_elements_S fuel).
      now apply elements_step_more.
Qed.

Lemma parse_value_more_fuel (fuel fuel' : nat) (s : jsstring) (v : json) (rest : jsstring) :
  (fuel <= fuel')%nat ->
  parse_value fuel s = Parsed v rest -> parse_value fuel' s = Parsed v rest.
Proof.
  induction 1 as [|fuel' Hle IH]; [easy|].
  intro E. apply IH in E. destruct (parse_more_fuel fuel') as (Mv & _).
  rewrite Mv; [exact E|]. rewrite E. discriminate.
Qed.

Lemma parse_members_more_fuel (fuel fuel' : nat) acc (s : jsstring) (v : json) (rest : jsstring) :
  (fuel <= fuel')%nat ->
  parse_members fuel acc s = Parsed v rest -> parse_members fuel' acc s = Parsed v rest.
Proof.
  induction 1 as [|fuel' Hle IH]; [easy|].
  intro E. apply IH in E. destruct (parse_more_fuel fuel') as (_ & Mm & _).
  rewrite Mm; [exact E|]. rewrite E. discriminate.
Qed.

Lemma parse_elements_more_fuel (fuel fuel' : nat) acc (s : jsstring) (v : json) (rest : jsstring) :
  (fuel <= fuel')%nat ->
  parse_elements fuel acc s = Parsed v rest -> parse_elements fuel' acc s = Parsed v rest.
Proof.
  induction 1 as [|fuel' Hle IH]; [easy|].
  intro E. apply IH in E. destruct (parse_more_fuel fuel') as (_ & _ & Me).
  rewrite Me; [exact E|]. rewrite E. discriminate.
Qed.


Lemma skip_ws_blanks (ws t : jsstring) : blanks ws -> skip_ws (ws ++ t) = skip_ws t.
Proof.
  unfold blanks. induction ws as [|c ws IH]; simpl; [reflexivity|].
  intro B. apply andb_true_iff in B as [-> B]. now apply IH.
Qed.

Lemma blanks_app (a b : jsstring) : blanks a -> blanks b -> blanks (a ++ b).
Proof. unfold blanks. intros A B. rewrite forallb_app. now rewrite A, B. Qed.

Lemma blanks_gap : blanks gap.
Proof. reflexivity. Qed.

Lemma blanks_LF : blanks LF.
Proof. reflexivity. Qed.

Lemma parse_value_blanks (fuel : nat) (ws t : jsstring) :
  blanks ws -> parse_value fuel (ws ++ t) = parse_value fuel t.
Proof.
  intro B. destruct fuel as [|fuel]; [reflexivity|].
  rewrite !parse_value_S. unfold value_step. now rewrite skip_ws_blanks.
Qed.

Lemma parse_members_blanks (fuel : nat) acc (ws t : jsstring) :
  blanks ws -> parse_members fuel acc (ws ++ t) = parse_members fuel acc t.
Proof.
  intro B. destruct fuel as [|fuel]; [reflexivity|].
  rewrite !parse_members_S. unfold members_step. now rewrite skip_ws_blanks.
Qed.


Lemma scan_number_head (s token rest : jsstring) :
  scan_number s = Some (token, rest) ->
  exists c r, s = c :: r /\ (c = 45 \/ isDigit c = true).
Proof.
  unfold scan_number, scan_sign. destruct s as [|c r]; [discriminate|].
  intros E. exists c, r. split; [reflexivity|].
  destruct (N.eqb_spec c 45); [now left|right].
  destruct (isDigit c); [reflexivity|discriminate].
Qed.

Lemma digit_or_minus (c : code_unit) :
  c = 45 \/ isDigit c = true ->
  isJSONWhiteSpace c = false /\ c <> LEFT_BRACE /\ c <> RIGHT_BRACE /\
  c <> LEFT_BRACKET /\ c <> RIGHT_BRACKET /\ c <> DQUOTE /\
  c <> 110 /\ c <> 116 /\ c <> 102.
Proof.
  unfold isDigit, isJSONWhiteSpace, LEFT_BRACE, RIGHT_BRACE, LEFT_BRACKET, RIGHT_BRACKET, DQUOTE.
  intros [->|D]; [repeat split; discriminate|].
  apply andb_true_iff in D as [D1 D2]. apply N.leb_le in D1, D2.
  repeat split; try lia.
  repeat match goal with
         | |- context [?x =? ?y] => destruct (N.eqb_spec x y); [lia|]
         end.
  reflexivity.
Qed.

Lemma serialize_opens (v : json) (indent rest : jsstring) :
  numbers_survive v -> follows rest ->
  opens_value (SerializeJSONProperty indent v ++ rest).
Proof.
  intros N F. destruct v as [|[|]|n|s|[|i items]|[|p props]];
    try (cbn; repeat split; discriminate).
  cbn [SerializeJSONProperty]. destruct N as [_ N].
  destruct (scan_number_head _ _ _ (N rest F)) as (c & r & E & D). rewrite E.
  destruct (digit_or_minus c D) as (W & _ & B & _ & K & _). now repeat split.
Qed.


Lemma numbers_survive_items (items : list json) :
  fold_right (fun item P => numbers_survive item /\ P) True items <->
  Forall numbers_survive items.
Proof.
  induction items as [|item items IH]; simpl; [split; [constructor|easy]|].
  rewrite IH. split; [intros [A B]; now constructor|intro F; now inversion F].
Qed.

Lemma numbers_survive_props (props : list (jsstring * json)) :
  fold_right (fun kv P => numbers_survive (snd kv) /\ P) True props <->
  Forall (fun kv => numbers_survive (snd kv)) props.
Proof.
  induction props as [|kv props IH]; simpl; [split; [constructor|easy]|].
  rewrite IH. split; [intros [A B]; now constructor|intro F; now inversion F].
Qed.

Lemma join_cons2 (sep x y : jsstring) (l : list jsstring) :
  join sep (x :: y :: l) = x ++ sep ++ join sep (y :: l).
Proof. reflexivity. Qed.

Section Elements.
Variables (indent closing rest : jsstring).
Hypothesis blanks_indent : blanks indent.
Hypothesis blanks_closing : blanks closing.

Lemma elements_read_back (items : list json) :
  Forall reads_back items -> Forall numbers_survive items ->
  forall first acc ws,
  blanks ws -> reads_back first -> numbers_survive first ->
  exists fuel,
    parse_elements fuel acc
      (ws ++ join (COMMA :: LF ++ indent)
                  (map (SerializeJSONProperty indent) (first :: items)) ++
       LF ++ closing ++ RIGHT_BRACKET :: rest) =
    Parsed (JArr (acc ++ map normalize (first :: items))) rest.
Proof.
  intros R N. revert N. induction R as [|second items Rsecond R IH];
    intros N first acc ws Bws Rfirst Nfirst.
  - destruct (Rfirst Nfirst indent (LF ++ closing ++ RIGHT_BRACKET :: rest) blanks_indent)
      as (f1 & E1); [now right|].
    exists (S f1). rewrite parse_elements_S. unfold elements_step.
    cbn [map join]. rewrite parse_value_blanks, E1 by exact Bws. cbv zeta.
    rewrite (app_assoc LF closing), skip_ws_blanks
      by (apply blanks_app; [apply blanks_LF|exact blanks_closing]).
    reflexivity.
  - inversion N as [|? ? Nsecond N']; subst.
    destruct (IH N' second (acc ++ [normalize first]) (LF ++ indent)
                (blanks_app _ _ blanks_LF blanks_indent) Rsecond Nsecond) as (f2 & E2).
    cbn [map] in E2 |- *. rewrite join_cons2, <- !app_assoc.
    set (tail := join (COMMA :: LF ++ indent)
                   (SerializeJSONProperty indent second ::
                    map (SerializeJSONProperty indent) items) ++
                 LF ++ closing ++ RIGHT_BRACKET :: rest) in *.
    destruct (Rfirst Nfirst indent (COMMA :: LF ++ indent ++ tail) blanks_indent)
      as (f1 & E1); [now left|].
    exists (S (Nat.max f1 f2)). rewrite parse_elements_S. unfold elements_step.
    rewrite parse_value_blanks by exact Bws.
    rewrite <- app_comm_cons, <- app_assoc.
    rewrite (parse_value_more_fuel f1 _ _ _ _ (Nat.le_max_l f1 f2) E1). cbv zeta.
    cbn [skip_ws]. change (isJSONWhiteSpace COMMA) with false. cbv iota.
    change (COMMA =? COMMA) with true. cbv iota.
    rewrite <- app_assoc in E2.
    rewrite (parse_elements_more_fuel f2 _ _ _ _ _ (Nat.le_max_r f1 f2) E2).
    now rewrite <- app_assoc.
Qed.

End Elements.

Section Members.
Variables (indent closing rest : jsstring).
Hypothesis blanks_indent : blanks indent.
Hypothesis blanks_closing : blanks closing.

Lemma member_read (fuel : nat) (acc : list (jsstring * json)) (ws : jsstring)
      (kv : jsstring * json) (tail : jsstring) :
  blanks ws ->
  parse_value fuel (SerializeJSONProperty indent (snd kv) ++ tail) =
    Parsed (normalize (snd kv)) tail ->
  parse_members (S fuel) acc (ws ++ member_text indent kv ++ tail) =
  match skip_ws tail with
  | [] => Unexpected
  | d :: r4 =>
      if d =? COMMA then parse_members fuel (normalized_set acc kv) r4
      else if d =? RIGHT_BRACE then Parsed (JObj (normalized_set acc kv)) r4
      else Unexpected
  end.
Proof.
  intros Bws E. rewrite parse_members_S. unfold members_step.
  rewrite skip_ws_blanks by exact Bws.
  unfold member_text, QuoteJSONString. rewrite <- !app_assoc.
  change ([DQUOTE] ++ ?x) with (DQUOTE :: x).
  cbn [skip_ws]. change (isJSONWhiteSpace DQUOTE) with false. cbv iota.
  change (DQUOTE =? DQUOTE) with true. cbv iota.
  change ([DQUOTE] ++ ?x) with (DQUOTE :: x).
  rewrite (parse_chars_quote_chars _ _ _ (le_n _)).
  change (js ":" ++ ?x) with (COLON :: x).
  cbn [skip_ws]. change (isJSONWhiteSpace COLON) with false. cbv iota.
  change (COLON =? COLON) with true. cbv iota.
  rewrite (parse_value_blanks fuel (js " ")) by reflexivity.
  now rewrite E.
Qed.

Lemma members_read_back (props : list (jsstring * json)) :
  Forall (fun kv => reads_back (snd kv)) props ->
  Forall (fun kv => numbers_survive (snd kv)) props ->
  forall first acc ws,
  blanks ws -> reads_back (snd first) -> numbers_survive (snd first) ->
  exists fuel,
    parse_members fuel acc
      (ws ++ join (COMMA :: LF ++ indent) (map (member_text indent) (first :: props)) ++
       LF ++ closing ++ RIGHT_BRACE :: rest) =
    Parsed (JObj (fold_left normalized_set (first :: props) acc)) rest.
Proof.
  intros R N. revert N. induction R as [|second props Rsecond R IH];
    intros N first acc ws Bws Rfirst Nfirst.
  - destruct (Rfirst Nfirst indent (LF ++ closing ++ RIGHT_BRACE :: rest) blanks_indent)
      as (f1 & E1); [now right|].
    exists (S f1). cbn [map join]. rewrite (member_read f1 acc ws first _ Bws E1).
    rewrite (app_assoc LF closing), skip_ws_blanks
      by (apply blanks_app; [apply blanks_LF|exact blanks_closing]).
    reflexivity.
  - inversion N as [|? ? Nsecond N']; subst.
    destruct (IH N' second (normalized_set acc first) (LF ++ indent)
                (blanks_app _ _ blanks_LF blanks_indent) Rsecond Nsecond) as (f2 & E2).
    cbn [map] in E2 |- *. rewrite join_cons2, <- !app_assoc.
    set (tail := join (COMMA :: LF ++ indent)
                   (member_text indent second :: map (member_text indent) props) ++
                 LF ++ closing ++ RIGHT_BRACE :: rest) in *.
    destruct (Rfirst Nfirst indent (COMMA :: LF ++ indent ++ tail) blanks_indent)
      as (f1 & E1); [now left|].
    exists (S (Nat.max f1 f2)).
    rewrite <- app_comm_cons, <- app_assoc.
    rewrite (member_read (Nat.max f1 f2) acc ws first _ Bws
               (parse_value_more_fuel f1 _ _ _ _ (Nat.le_max_l f1 f2) E1)).
    cbn [skip_ws]. change (isJSONWhiteSpace COMMA) with false. cbv iota.
    change (COMMA =? COMMA) with true. cbv iota.
    rewrite <- app_assoc in E2.
    exact (parse_members_more_fuel f2 _ _ _ _ _ (Nat.le_max_r f1 f2) E2).
Qed.

End Members.

Lemma skip_ws_opens (t : jsstring) :
  opens_value t -> exists c r, skip_ws t = c :: r /\ t = c :: r /\
                               c <> RIGHT_BRACE /\ c <> RIGHT_BRACKET.
Proof.
  destruct t as [|c r]; [easy|]. intros (W & B & K). exists c, r.
  simpl. rewrite W. now repeat split.
Qed.

(** Every value reads back. *)
Lemma serialize_reads_back (v : json) : reads_back v.
Proof.
  induction v as [|b|n|s|items IH|props IH] using json_ind; intros N indent rest Bi F.
  - exists 1%nat. reflexivity.
  - exists 1%nat. now destruct b.
  - exists 1%nat. destruct N as [Nn Nscan]. specialize (Nscan rest F).
    cbn [SerializeJSONProperty normalize].
    destruct (scan_number_head _ _ _ Nscan) as (c & r & E & D).
    destruct (digit_or_minus c D) as (W & B1 & B2 & K1 & K2 & Q & Cn & Ct & Cf).
    rewrite parse_value_S. unfold value_step. rewrite E. cbn [skip_ws]. rewrite W.
    destruct (N.eqb_spec c LEFT_BRACE); [contradiction|].
    destruct (N.eqb_spec c LEFT_BRACKET); [contradiction|].
    destruct (N.eqb_spec c DQUOTE); [contradiction|].
    unfold parse_literal. cbn [strip_prefix js map list_ascii_of_string].
    change (N_of_ascii "n") with 110. change (N_of_ascii "t") with 116.
    change (N_of_ascii "f") with 102.
    destruct (N.eqb_spec 110 c); [congruence|].
    destruct (N.eqb_spec 116 c); [congruence|].
    destruct (N.eqb_spec 102 c); [congruence|].
    rewrite <- E, Nscan. now rewrite Nn.
  - exists 1%nat. cbn [SerializeJSONProperty normalize]. unfold QuoteJSONString.
    rewrite <- !app_assoc. change ([DQUOTE] ++ ?x) with (DQUOTE :: x).
    rewrite parse_value_S. unfold value_step. cbn [skip_ws].
    change (isJSONWhiteSpace DQUOTE) with false. cbv iota.
    change (DQUOTE =? LEFT_BRACE) with false. change (DQUOTE =? LEFT_BRACKET) with false.
    change (DQUOTE =? DQUOTE) with true. cbv iota.
    change ([DQUOTE] ++ ?x) with (DQUOTE :: x).
    now rewrite (parse_chars_quote_chars _ _ _ (le_n _)).
  - destruct items as [|first items]; [exists 1%nat; reflexivity|].
    inversion IH as [|? ? Rfirst R]; subst.
    cbn [numbers_survive] in N. apply numbers_survive_items in N.
    inversion N as [|? ? Nfirst N']; subst.
    destruct (elements_read_back (indent ++ gap) indent rest
                (blanks_app _ _ Bi blanks_gap) Bi items R N' first [] (LF ++ indent ++ gap)
                (blanks_app _ _ blanks_LF (blanks_app _ _ Bi blanks_gap)) Rfirst Nfirst)
      as (f & E).
    exists (S f). cbn [SerializeJSONProperty normalize]. cbv zeta.
    change (js "," ++ LF ++ indent ++ gap) with (COMMA :: LF ++ indent ++ gap).
    change (js "]") with [RIGHT_BRACKET]. change (js "[" ++ ?x) with (LEFT_BRACKET :: x).
    rewrite <- app_comm_cons. repeat rewrite <- app_assoc.
    repeat rewrite <- app_assoc in E.
    change ([RIGHT_BRACKET] ++ rest) with (RIGHT_BRACKET :: rest).
    rewrite parse_value_S. unfold value_step. cbn [skip_ws].
    change (isJSONWhiteSpace LEFT_BRACKET) with false. cbv iota.
    change (LEFT_BRACKET =? LEFT_BRACE) with false.
    change (LEFT_BRACKET =? LEFT_BRACKET) with true. cbv iota.
    cbn [app] in E. rewrite E.
    assert (O : exists c r, skip_ws (LF ++ indent ++ gap ++
                  join (COMMA :: LF ++ indent ++ gap)
                       (map (SerializeJSONProperty (indent ++ gap)) (first :: items)) ++
                  LF ++ indent ++ RIGHT_BRACKET :: rest) = c :: r /\ c <> RIGHT_BRACKET).
    { rewrite (app_assoc LF), (app_assoc (LF ++ indent)), skip_ws_blanks
        by (apply blanks_app; [apply blanks_app; [apply blanks_LF|exact Bi]|apply blanks_gap]).
      assert (Op : opens_value
                     (join (COMMA :: LF ++ indent ++ gap)
                        (map (SerializeJSONProperty (indent ++ gap)) (first :: items)) ++
                      LF ++ indent ++ RIGHT_BRACKET :: rest)).
      { destruct items as [|second items]; cbn [map]; [cbn [join]|rewrite join_cons2, <- !app_assoc].
        - apply serialize_opens; [exact Nfirst|now right].
        - apply serialize_opens; [exact Nfirst|now left]. }
      destruct (skip_ws_opens _ Op) as (c & r & Es & _ & _ & K). now exists c, r. }
    destruct O as (c & r & Es & K). cbn [app] in Es. rewrite Es.
    destruct (N.eqb_spec c RIGHT_BRACKET); [contradiction|reflexivity].
  - destruct props as [|first props]; [exists 1%nat; reflexivity|].
    inversion IH as [|? ? Rfirst R]; subst.
    cbn [numbers_survive] in N. apply numbers_survive_props in N.
    inversion N as [|? ? Nfirst N']; subst.
    destruct (members_read_back (indent ++ gap) indent rest
                (blanks_app _ _ Bi blanks_gap) Bi props R N' first [] (LF ++ indent ++ gap)
                (blanks_app _ _ blanks_LF (blanks_app _ _ Bi blanks_gap)) Rfirst Nfirst)
      as (f & E).
    exists (S f). cbn [SerializeJSONProperty normalize]. cbv zeta.
    change (js "," ++ LF ++ indent ++ gap) with (COMMA :: LF ++ indent ++ gap).
    change (js "}") with [RIGHT_BRACE]. change (js "{" ++ ?x) with (LEFT_BRACE :: x).
    rewrite <- app_comm_cons. repeat rewrite <- app_assoc.
    repeat rewrite <- app_assoc in E.
    change ([RIGHT_BRACE] ++ rest) with (RIGHT_BRACE :: rest).
    rewrite parse_value_S. unfold value_step. cbn [skip_ws].
    change (isJSONWhiteSpace LEFT_BRACE) with false. cbv iota.
    change (LEFT_BRACE =? LEFT_BRACE) with true. cbv iota.
    match goal with
    | |- context [skip_ws ?t] =>
        assert (O : exists c r, skip_ws t = c :: r /\ c <> RIGHT_BRACE)
    end.
    { rewrite (app_assoc LF), (app_assoc (LF ++ indent)), skip_ws_blanks
        by (apply blanks_app; [apply blanks_app; [apply blanks_LF|exact Bi]|apply blanks_gap]).
      match goal with
      | |- context [skip_ws ?t] => assert (Op : opens_value t)
      end.
      { destruct props as [|second props]; cbn [map]; [cbn [join]|rewrite join_cons2];
          unfold QuoteJSONString; rewrite <- !app_assoc; cbn [app opens_value];
          repeat split; discriminate. }
      destruct (skip_ws_opens _ Op) as (c & r & Es & _ & K & _). now exists c, r. }
    destruct O as (c & r & Es & K). rewrite Es.
    destruct (N.eqb_spec c RIGHT_BRACE); [contradiction|exact E].
Qed.


Lemma parse_value_settled (fuel fuel' : nat) (s : jsstring) :
  (fuel <= fuel')%nat -> parse_value fuel s <> OutOfFuel ->
  parse_value fuel' s = parse_value fuel s.
Proof.
  induction 1 as [|fuel' Hle IH]; [easy|].
  intro E. specialize (IH E). destruct (parse_more_fuel fuel') as (Mv & _).
  rewrite Mv; [exact IH|]. now rewrite IH.
Qed.

(** The serialization of a value parses to the normalized value. *)
Lemma JSON_parse_stringify (v : json) :
  numbers_survive v -> JSON_parse (serialization v) = Some (normalize v).
Proof.
  intro N. destruct (serialize_reads_back v N [] [] eq_refl I) as (fuel & E).
  rewrite app_nil_r in E. fold (serialization v) in E.
  unfold JSON_parse.
  set (F := S (2 * length (serialization v))).
  assert (EF : parse_value F (serialization v) = Parsed (normalize v) []).
  { destruct (Nat.le_ge_cases fuel F) as [L|L].
    - exact (parse_value_more_fuel fuel F _ _ _ L E).
    - rewrite <- (parse_value_settled F fuel _ L); [exact E|].
      apply JSON_parse_fuel. }
  now rewrite EF.
Qed.

End ReadingBack.

(** ** Resolved values are normal *)

Section Normal.
Context `{Engine}.

Lemma digits_value_snoc (ds : jsstring) (d : code_unit) :
  digits_value (ds ++ [d]) = 10 * digits_value ds + (d - 48).
Proof. unfold digits_value. now rewrite fold_left_app. Qed.

Lemma isDigit_range (d : code_unit) : isDigit d = true -> 48 <= d <= 57.
Proof.
  unfold isDigit. intro D. apply andb_true_iff in D as [D1 D2].
  apply N.leb_le in D1, D2. lia.
Qed.

Lemma digits_value_grows (ds : jsstring) (acc : N) :
  acc <= fold_left (fun acc d => 10 * acc + (d - 48)) ds acc.
Proof.
  revert acc; induction ds as [|d ds IH]; intro acc; cbn [fold_left]; [lia|].
  specialize (IH (10 * acc + (d - 48))). lia.
Qed.

Lemma proper_positive (ds : jsstring) : proper ds -> ds <> [] -> 0 < digits_value ds.
Proof.
  intros [D P] Nn. destruct ds as [|d ds]; [contradiction|].
  simpl in D. apply andb_true_iff in D as [D _]. apply isDigit_range in D.
  unfold digits_value. cbn [fold_left].
  pose proof (digits_value_grows ds (10 * 0 + (d - 48))). lia.
Qed.

Lemma proper_prefix (ds : jsstring) (d : code_unit) :
  proper (ds ++ [d]) -> proper ds /\ isDigit d = true.
Proof.
  intros [D P]. rewrite forallb_app in D. apply andb_true_iff in D as [D1 D2].
  simpl in D2. rewrite andb_true_r in D2. split; [|exact D2].
  split; [exact D1|]. now destruct ds.
Qed.

Lemma digits_value_injective (a : jsstring) :
  forall b, proper a -> proper b -> digits_value a = digits_value b -> a = b.
Proof.
  induction a as [|x a IH] using rev_ind; intros b Pa Pb E.
  - destruct b as [|y b]; [reflexivity|].
    pose proof (proper_positive (y :: b) Pb ltac:(discriminate)) as L.
    rewrite <- E in L. cbv in L. discriminate.
  - destruct b as [|y b _] using rev_ind.
    + pose proof (proper_positive (a ++ [x]) Pa) as L.
      rewrite E in L. cbv in L.
      assert (a ++ [x] <> []) by (destruct a; discriminate). now apply L in H0.
    + rewrite !digits_value_snoc in E.
      apply proper_prefix in Pa as [Pa Dx]. apply proper_prefix in Pb as [Pb Dy].
      apply isDigit_range in Dx, Dy.
      assert (x = y) by lia. assert (digits_value a = digits_value b) by lia.
      subst y. f_equal. now apply IH.
Qed.

Lemma array_index_canonical (k : jsstring) (i : N) :
  array_index k = Some i ->
  digits_value k = i /\ (k = [48] \/ (proper k /\ k <> [])).
Proof.
  unfold array_index. destruct k as [|d ds]; [discriminate|].
  destruct (forallb isDigit (d :: ds)) eqn:D; [|discriminate].
  destruct (negb (d =? 48) || match ds with [] => true | _ :: _ => false end) eqn:Z;
    [|discriminate].
  destruct (Nat.leb (length (d :: ds)) 10); [|discriminate].
  destruct (digits_value (d :: ds) <? 4294967295); [|discriminate].
  simpl. intro E. injection E as <-. split; [reflexivity|].
  apply orb_true_iff in Z as [Z|Z].
  - right. split; [|discriminate]. split; [exact D|].
    apply negb_true_iff in Z. now apply N.eqb_neq in Z.
  - destruct ds; [|discriminate]. destruct (N.eqb_spec d 48) as [->|Nz]; [now left|].
    right. split; [|discriminate]. now split.
Qed.

(** Two keys with the same array index are the same key. *)
Lemma array_index_injective (a b : jsstring) (i : N) :
  array_index a = Some i -> array_index b = Some i -> a = b.
Proof.
  intros A B. apply array_index_canonical in A as [Va [->|[Pa Na]]];
    apply array_index_canonical in B as [Vb [->|[Pb Nb]]]; try reflexivity.
  - pose proof (proper_positive b Pb Nb) as L. rewrite Vb, <- Va in L. cbv in L. discriminate.
  - pose proof (proper_positive a Pa Na) as L. rewrite Va, <- Vb in L. cbv in L. discriminate.
  - apply digits_value_injective; congruence.
Qed.

Lemma keys_overwrite (props : list (jsstring * json)) (k : jsstring) (v : json) :
  keys (overwrite props k v) = keys props.
Proof.
  induction props as [|[a w] props IH]; [reflexivity|]. simpl.
  destruct (jsstring_eqb a k); simpl; [reflexivity|now rewrite IH].
Qed.

Lemma get_own_None (props : list (jsstring * json)) (k : jsstring) :
  get_own props k = None <-> ~ In k (keys props).
Proof.
  induction props as [|[a w] props IH]; simpl; [now split|].
  destruct (jsstring_eqb a k) eqn:E.
  - apply jsstring_eqb_eq in E. split; [discriminate|]. intro N. exfalso. apply N. now left.
  - apply jsstring_eqb_neq in E. rewrite IH. split.
    + intros N [A|I]; [contradiction|now apply N].
    + intros N I. apply N. now right.
Qed.

Lemma ordered_pairs_app {A} (R : A -> A -> Prop) (l1 l2 : list A) :
  ForallOrdPairs R (l1 ++ l2) ->
  ForallOrdPairs R l1 /\ ForallOrdPairs R l2 /\
  forall a b, In a l1 -> In b l2 -> R a b.
Proof.
  induction l1 as [|x l1 IH]; simpl.
  - intro F. repeat split; [constructor|exact F|easy].
  - intro F. inversion F as [|? ? Fx F']; subst.
    destruct (IH F') as (F1 & F2 & F12). rewrite Forall_app in Fx. destruct Fx as [Fx1 Fx2].
    repeat split; [now constructor|exact F2|].
    intros a b [<-|Ia] Ib; [|now apply F12].
    rewrite Forall_forall in Fx2. now apply Fx2.
Qed.

Lemma enumerated_snoc (ks : list jsstring) (k : jsstring) :
  enumerated ks -> (forall a, In a ks -> precedes a k) -> enumerated (ks ++ [k]).
Proof.
  unfold enumerated. induction 1 as [|a ks Fa F IH]; intro P; simpl.
  - constructor; constructor.
  - constructor.
    + apply Forall_app. split; [exact Fa|]. constructor; [|constructor]. apply P. now left.
    + apply IH. intros b Ib. apply P. now right.
Qed.

Lemma keys_app (a b : list (jsstring * json)) : keys (a ++ b) = keys a ++ keys b.
Proof. apply map_app. Qed.

Lemma enumerated_insert_index (props : list (jsstring * json)) (i : N) (k : jsstring) (v : json) :
  enumerated (keys props) -> ~ In k (keys props) -> array_index k = Some i ->
  enumerated (keys (insert_index props i k v)).
Proof.
  unfold enumerated. intros F Nk Ak.
  induction props as [|[a w] props IH]; simpl.
  - constructor; constructor.
  - simpl in F, Nk. inversion F as [|? ? Fa F']; subst.
    assert (Na : a <> k) by (intro; apply Nk; now left).
    assert (Nk' : ~ In k (keys props)) by (intro; apply Nk; now right).
    rewrite Forall_forall in Fa.
    destruct (array_index a) as [j|] eqn:Aa.
    + destruct (N.ltb_spec j i) as [L|L]; simpl.
      * constructor; [|now apply IH].
        apply Forall_forall. intros x Ix.
        assert (Cx : x = k \/ In x (keys props)).
        { clear - Ix. induction props as [|[b u] props IH]; simpl in *.
          - destruct Ix as [<-|[]]. now left.
          - destruct (array_index b) as [jb|]; [destruct (jb <? i)|]; simpl in Ix.
            + destruct Ix as [<-|Ix]; [right; now left|].
              destruct (IH Ix) as [->|I]; [now left|right; now right].
            + destruct Ix as [<-|Ix]; [now left|now right].
            + destruct Ix as [<-|Ix]; [now left|now right]. }
        destruct Cx as [->|Ix']; [|now apply Fa].
        split; [exact Na|]. now rewrite Aa, Ak.
      * constructor; [|exact F].
        apply Forall_forall. intros x [<-|Ix].
        -- split; [congruence|]. rewrite Ak, Aa.
           assert (j <> i).
           { intros ->. apply Na. exact (array_index_injective a k i Aa Ak). }
           lia.
        -- split; [intros <-; contradiction|].
           destruct (Fa x Ix) as [_ P]. rewrite Aa in P. rewrite Ak.
           destruct (array_index x); [lia|exact I].
    + simpl. constructor; [|exact F].
      apply Forall_forall. intros x [<-|Ix].
      * split; [congruence|]. now rewrite Ak, Aa.
      * split; [intros <-; contradiction|].
        destruct (Fa x Ix) as [_ P]. rewrite Aa in P. rewrite Ak.
        destruct (array_index x); [contradiction|exact I].
Qed.

(** Setting a property keeps the keys in enumeration order. *)
Lemma enumerated_set_own (props : list (jsstring * json)) (k : jsstring) (v : json) :
  enumerated (keys props) -> enumerated (keys (set_own props k v)).
Proof.
  intro F. unfold set_own. destruct (get_own props k) eqn:G.
  - now rewrite keys_overwrite.
  - apply get_own_None in G. destruct (array_index k) as [i|] eqn:A.
    + now apply enumerated_insert_index.
    + rewrite keys_app. change (keys [(k, v)]) with [k].
      apply enumerated_snoc; [exact F|].
      intros a Ia. split; [intro E; subst a; contradiction|].
      rewrite A. now destruct (array_index a).
Qed.

Lemma insert_index_last (acc : list (jsstring * json)) (i : N) (k : jsstring) (v : json) :
  array_index k = Some i -> (forall a, In a (keys acc) -> precedes a k) ->
  insert_index acc i k v = acc ++ [(k, v)].
Proof.
  intros Ak P. induction acc as [|[a w] acc IH]; [reflexivity|]. simpl.
  destruct (P a (or_introl eq_refl)) as [_ Pa]. rewrite Ak in Pa.
  destruct (array_index a) as [j|]; [|contradiction].
  apply N.ltb_lt in Pa. rewrite Pa. f_equal. apply IH. intros b Ib. apply P. now right.
Qed.

(** Setting the properties of an object again, in their order, gives the
    same object. *)
Lemma fold_set_own_enumerated (props : list (jsstring * json)) :
  forall acc, enumerated (keys (acc ++ props)) ->
  fold_left (fun acc kv => set_own acc (fst kv) (snd kv)) props acc = acc ++ props.
Proof.
  induction props as [|[k v] props IH]; intros acc F; [now rewrite app_nil_r|].
  cbn [fold_left fst snd].
  assert (E : set_own acc k v = acc ++ [(k, v)]).
  { rewrite keys_app in F. apply ordered_pairs_app in F as (_ & _ & P).
    assert (Pk : forall a, In a (keys acc) -> precedes a k).
    { intros a Ia. apply P; [exact Ia|now left]. }
    unfold set_own.
    assert (G : get_own acc k = None).
    { apply get_own_None. intro Ik. now destruct (Pk k Ik). }
    rewrite G. destruct (array_index k) as [i|] eqn:A; [|reflexivity].
    now apply insert_index_last. }
  rewrite E, IH; rewrite <- app_assoc; [reflexivity|exact F].
Qed.

Lemma fold_set_own_normal (props : list (jsstring * json)) :
  Forall (fun kv => normal (snd kv)) props ->
  forall acc,
  fold_left (fun acc kv => set_own acc (fst kv) (normalize (snd kv))) props acc =
  fold_left (fun acc kv => set_own acc (fst kv) (snd kv)) props acc.
Proof.
  induction 1 as [|kv props Nkv N IH]; intro acc; [reflexivity|].
  cbn [fold_left]. rewrite Nkv. apply IH.
Qed.

Lemma normal_object (props : list (jsstring * json)) :
  enumerated (keys props) -> Forall (fun kv => normal (snd kv)) props ->
  normal (JObj props).
Proof.
  intros F N. unfold normal. cbn [normalize]. f_equal.
  rewrite (fold_set_own_normal props N). now apply (fold_set_own_enumerated props []).
Qed.

Lemma normal_array (items : list json) : Forall normal items -> normal (JArr items).
Proof.
  intro N. unfold normal. cbn [normalize]. f_equal.
  induction N as [|item items Ni N IH]; [reflexivity|]. simpl. now rewrite Ni, IH.
Qed.

Lemma normal_overwrite (props : list (jsstring * json)) (k : jsstring) (v : json) :
  Forall (fun kv => normal (snd kv)) props -> normal v ->
  Forall (fun kv => normal (snd kv)) (overwrite props k v).
Proof.
  intros N Nv. induction N as [|[a w] props Na N IH]; simpl; [constructor|].
  destruct (jsstring_eqb a k); constructor; assumption.
Qed.

Lemma normal_insert_index (props : list (jsstring * json)) (i : N) (k : jsstring) (v : json) :
  Forall (fun kv => normal (snd kv)) props -> normal v ->
  Forall (fun kv => normal (snd kv)) (insert_index props i k v).
Proof.
  intros N Nv. induction N as [|[a w] props Na N IH]; simpl.
  - now repeat constructor.
  - destruct (array_index a) as [j|]; [destruct (j <? i)|]; repeat constructor; assumption.
Qed.

Lemma normal_set_own (props : list (jsstring * json)) (k : jsstring) (v : json) :
  Forall (fun kv => normal (snd kv)) props -> normal v ->
  Forall (fun kv => normal (snd kv)) (set_own props k v).
Proof.
  intros N Nv. unfold set_own. destruct (get_own props k).
  - now apply normal_overwrite.
  - destruct (array_index k).
    + now apply normal_insert_index.
    + apply Forall_app. split; [exact N|now repeat constructor].
Qed.

Lemma parse_literal_normal (s : jsstring) (v : json) (rest : jsstring) :
  parse_literal s = Parsed v rest -> normal v.
Proof.
  unfold parse_literal.
  destruct (strip_prefix (js "null") s); [intro E; now injection E as <- _|].
  destruct (strip_prefix (js "true") s); [intro E; now injection E as <- _|].
  destruct (strip_prefix (js "false") s); [intro E; now injection E as <- _|].
  destruct (scan_number s) as [[token r]|]; [|discriminate].
  intro E. now injection E as <- _.
Qed.

(** Whatever the parser returns is normal. *)
Lemma parse_normal (fuel : nat) :
  (forall s v rest, parse_value fuel s = Parsed v rest -> normal v) /\
  (forall acc s v rest,
      enumerated (keys acc) -> Forall (fun kv => normal (snd kv)) acc ->
      parse_members fuel acc s = Parsed v rest -> normal v) /\
  (forall acc s v rest,
      Forall normal acc -> parse_elements fuel acc s = Parsed v rest -> normal v).
Proof.
  induction fuel as [|fuel (IHv & IHm & IHe)]; [repeat split; discriminate|].
  split; [|split].
  - intros s v rest. rewrite parse_value_S. unfold value_step.
    destruct (skip_ws s) as [|c r]; [discriminate|].
    destruct (c =? LEFT_BRACE).
    { destruct (skip_ws r) as [|c' r']; [discriminate|].
      destruct (c' =? RIGHT_BRACE); [intro E; now injection E as <- _|].
      apply IHm; constructor. }
    destruct (c =? LEFT_BRACKET).
    { destruct (skip_ws r) as [|c' r']; [discriminate|].
      destruct (c' =? RIGHT_BRACKET); [intro E; now injection E as <- _|].
      apply IHe; constructor. }
    destruct (c =? DQUOTE).
    { destruct (parse_chars r) as [[str rest']|]; [|discriminate].
      intro E. now injection E as <- _. }
    apply parse_literal_normal.
  - intros acc s v rest F N. rewrite parse_members_S. unfold members_step.
    destruct (skip_ws s) as [|q r]; [discriminate|].
    destruct (q =? DQUOTE); [|discriminate].
    destruct (parse_chars r) as [[key r1]|]; [|discriminate].
    destruct (skip_ws r1) as [|colon r2]; [discriminate|].
    destruct (colon =? COLON); [|discriminate].
    destruct (parse_value fuel r2) as [| |x r3] eqn:V; try discriminate.
    apply IHv in V. cbv zeta.
    destruct (skip_ws r3) as [|d r4]; [discriminate|].
    destruct (d =? COMMA).
    { apply IHm; [now apply enumerated_set_own|now apply normal_set_own]. }
    destruct (d =? RIGHT_BRACE); [|discriminate].
    intro E. injection E as <- _.
    apply normal_object; [now apply enumerated_set_own|now apply normal_set_own].
  - intros acc s v rest N. rewrite parse_elements_S. unfold elements_step.
    destruct (parse_value fuel s) as [| |x r] eqn:V; try discriminate.
    apply IHv in V. cbv zeta.
    assert (N' : Forall normal (acc ++ [x])).
    { apply Forall_app. split; [exact N|now repeat constructor]. }
    destruct (skip_ws r) as [|d r']; [discriminate|].
    destruct (d =? COMMA); [now apply IHe|].
    destruct (d =? RIGHT_BRACKET); [|discriminate].
    intro E. injection E as <- _. now apply normal_array.
Qed.

(** A resolved value is normal. *)
Lemma JSON_parse_normal (text : jsstring) (v : json) :
  JSON_parse text = Some v -> normal v.
Proof.
  unfold JSON_parse.
  destruct (parse_value (S (2 * length text)) text) as [| |x rest] eqn:E; try discriminate.
  destruct (skip_ws rest); [|discriminate]. intro S. injection S as <-.
  destruct (parse_normal (S (2 * length text))) as (Nv & _). exact (Nv _ _ _ E).
Qed.

(** A resolved value all of whose Numbers survive passes the Redaction Filter
    unchanged when no pattern of the list matches its serialization. *)
Lemma redaction_filter_resolved (text : jsstring) (v : json) (rawString : jsstring) :
  JSON_parse text = Some v -> numbers_survive v ->
  JSON_stringify_2 v = inr rawString ->
  (forall k, In k EXPLOIT_KEYWORDS -> occurs (compile k) rawString = false) ->
  redaction_filter v = inr v.
Proof.
  intros P N E K.
  assert (R : snd (sanitizeOutput rawString) = false).
  { destruct (snd (sanitizeOutput rawString)) eqn:R; [|reflexivity].
    apply sanitizeOutput_redacted in R as (k & Hk & O). rewrite (K k Hk) in O. discriminate. }
  rewrite (redaction_filter_untouched v rawString E R). unfold JSON_parse_or_throw.
  rewrite (JSON_stringify_2_text v rawString E).
  rewrite (JSON_parse_stringify v N). f_equal. exact (JSON_parse_normal text v P).
Qed.

End Normal.

(** * Further properties of the route and of the page *)

(** ** [sanitizeOutput] on any text *)

(** X1. Whatever the text, no keyword of the list occurs in the text that
    [sanitizeOutput] returns, in whatever case. *)
Theorem sanitizeOutput_removes_every_keyword (jsonString : jsstring) :
  Forall (fun k => ~ occurs_ignoring_case k (fst (sanitizeOutput jsonString)))
         EXPLOIT_KEYWORDS.
Proof.
  apply Forall_forall. intros k Hk O. apply occurs_compile in O.
  now rewrite sanitizeOutput_clean in O.
Qed.

(** X2. The flag [redacted] tells whether the text was changed: it is false
    exactly when the returned text is the given one. *)
Theorem sanitizeOutput_flag_tells_change (jsonString : jsstring) :
  snd (sanitizeOutput jsonString) = false <-> fst (sanitizeOutput jsonString) = jsonString.
Proof.
  split.
  - intro F. now rewrite (sanitizeOutput_untouched _ F).
  - intro E. destruct (snd (sanitizeOutput jsonString)) eqn:R; [|reflexivity].
    apply sanitizeOutput_redacted in R as (k & Hk & O).
    pose proof (sanitizeOutput_clean jsonString k Hk) as C.
    rewrite E in C. congruence.
Qed.

(** X3. Sanitizing a sanitized text changes nothing and reports no
    redaction. *)
Theorem sanitizeOutput_idempotent (jsonString : jsstring) :
  sanitizeOutput (fst (sanitizeOutput jsonString)) = (fst (sanitizeOutput jsonString), false).
Proof.
  unfold sanitizeOutput at 1. apply sanitize_fold_absent.
  intros k Hk. apply sanitizeOutput_clean, Hk.
Qed.

(** X4. A text in which a keyword of the list occurs, in whatever case, is
    reported as redacted and is not returned as it was. *)
Theorem sanitizeOutput_detects_keyword (jsonString k : jsstring) :
  In k EXPLOIT_KEYWORDS ->
  occurs_ignoring_case k jsonString ->
  snd (sanitizeOutput jsonString) = true /\ fst (sanitizeOutput jsonString) <> jsonString.
Proof.
  intros Hk O.
  assert (R : snd (sanitizeOutput jsonString) = true).
  { apply sanitizeOutput_redacted. exists k. split; [exact Hk|now apply occurs_compile]. }
  split; [exact R|]. intro E.
  pose proof (sanitizeOutput_clean jsonString k Hk) as C.
  rewrite E, (occurs_compile k jsonString O) in C. discriminate.
Qed.

(** [sanitizeOutput_detects_keyword] on a sentence that names SQLMap. *)
Lemma sanitizeOutput_detects_keyword_witness :
  snd (sanitizeOutput (js "run SQLMap against the login form")) = true /\
  fst (sanitizeOutput (js "run SQLMap against the login form")) <>
    js "run SQLMap against the login form".
Proof.
  apply (sanitizeOutput_detects_keyword (js "run SQLMap against the login form") (js "sqlmap")).
  - simpl. tauto.
  - apply occurs_literal. vm_compute. reflexivity.
Defined.

Lemma isLineTerminator_cases (c : code_unit) :
  isLineTerminator c = true -> c = 0xA \/ c = 0xD \/ c = 0x2028 \/ c = 0x2029.
Proof.
  unfold isLineTerminator. intro L.
  repeat (apply orb_true_iff in L as [L|L]); apply N.eqb_eq in L; auto.
Qed.

(** X5. The full stop of the keyword [cmd.exe] stands for any code unit but a
    line terminator: the text made of [cmd], one code unit and [exe] is
    reported as redacted exactly when that code unit is not a line
    terminator. *)
Theorem sanitizeOutput_cmd_any_exe (c : code_unit) :
  snd (sanitizeOutput (js "cmd" ++ [c] ++ js "exe")) = negb (isLineTerminator c).
Proof.
  destruct (isLineTerminator c) eqn:L.
  - apply isLineTerminator_cases in L as [E|[E|[E|E]]]; subst c; vm_compute; reflexivity.
  - apply sanitizeOutput_redacted. exists (js "cmd.exe"). split; [simpl; tauto|].
    change (js "cmd" ++ [c] ++ js "exe") with (99 :: 109 :: 100 :: c :: js "exe").
    change (compile (js "cmd.exe")) with
      [Lit 99; Lit 109; Lit 100; AnyChar; Lit 101; Lit 120; Lit 101].
    cbn [occurs match_at atom_match]. rewrite L. reflexivity.
Qed.

(** ** [trim] and the extracted text *)

Lemma trimStart_head (s : jsstring) :
  match trimStart s with [] => True | c :: _ => isTrimmed c = false end.
Proof.
  induction s as [|c s IH]; simpl; [exact I|].
  destruct (isTrimmed c) eqn:T; [exact IH|exact T].
Qed.

Lemma trimStart_fixed (s : jsstring) :
  match s with [] => True | c :: _ => isTrimmed c = false end -> trimStart s = s.
Proof. destruct s as [|c s]; simpl; [reflexivity|]. now intros ->. Qed.

Lemma trimStart_snoc (s : jsstring) (c : code_unit) :
  isTrimmed c = false -> trimStart (s ++ [c]) = trimStart s ++ [c].
Proof.
  intro T. induction s as [|x s IH]; simpl; [now rewrite T|].
  destruct (isTrimmed x); [exact IH|reflexivity].
Qed.

Lemma trimEnd_cons (c : code_unit) (s : jsstring) :
  isTrimmed c = false -> trimEnd (c :: s) = c :: trimEnd s.
Proof.
  intro T. unfold trimEnd. simpl rev.
  now rewrite trimStart_snoc, rev_app_distr.
Qed.

Lemma trim_tight (s : jsstring) : tight (trim s).
Proof.
  unfold tight, trim, trimEnd. rewrite rev_involutive. split; [|apply trimStart_head].
  pose proof (trimStart_head s) as Hd. destruct (trimStart s) as [|c t]; [exact I|].
  fold (trimEnd (c :: t)). now rewrite trimEnd_cons.
Qed.

Lemma trim_fixed (s : jsstring) : tight s -> trim s = s.
Proof.
  intros [Hd Tl]. unfold trim. rewrite (trimStart_fixed s Hd).
  unfold trimEnd. rewrite (trimStart_fixed (rev s) Tl). apply rev_involutive.
Qed.

Lemma extractText_eq (response : GeminiResponse) :
  extractText response = trim (concat (text_fragments response)).
Proof.
  unfold extractText, text_fragments.
  destruct (candidates response) as [[|first cs]|]; try reflexivity. simpl.
  destruct (content first) as [c|]; [|reflexivity]. simpl.
  destruct (parts c) as [ps|]; [|reflexivity]. simpl.
  unfold join_empty. now rewrite concat_present_texts.
Qed.

(** X6. The text extracted from a response never begins or ends with white
    space or a line terminator, and trimming it again gives the same text. *)
Theorem extractText_tight (response : GeminiResponse) :
  tight (extractText response) /\ trim (extractText response) = extractText response.
Proof.
  rewrite extractText_eq.
  split; [apply trim_tight|apply trim_fixed, trim_tight].
Qed.

(** ** The JSON Resolver: the repair call and its failures *)

Section ResolverFurther.
Context `{Engine}.

(** X7. If the first text does not parse and the text extracted from the
    answer to the repair call does, the resolver returns the value of the
    repaired text together with that text, after exactly the two calls. *)
Theorem resolver_returns_repaired_parse
    (apiKey model userPrompt : jsstring) (w : World)
    (response1 response2 : FetchResponse) (g1 g2 : GeminiResponse) (v : json) :
  let initialText := extractText g1 in
  let call1 := primary_call apiKey model userPrompt in
  let call2 := repair_call apiKey model initialText in
  next_answer w call1 = inr response1 ->
  ok response1 = true ->
  response_json response1 = inr g1 ->
  JSON_parse initialText = None ->
  next_answer (record_call w call1) call2 = inr response2 ->
  ok response2 = true ->
  response_json response2 = inr g2 ->
  JSON_parse (extractText g2) = Some v ->
  parseGeminiJson apiKey model userPrompt w =
    (inr {| parsed := v; raw := extractText g2 |},
     record_call (record_call w call1) call2) /\
  calls (snd (parseGeminiJson apiKey model userPrompt w)) = calls w ++ [call1; call2].
Proof.
  intros initialText call1 call2 A1 O1 J1 P1 A2 O2 J2 P2.
  assert (E : parseGeminiJson apiKey model userPrompt w =
              (inr {| parsed := v; raw := extractText g2 |},
               record_call (record_call w call1) call2)).
  { subst initialText call1 call2. unfold primary_call, repair_call in *.
    rewrite parseGeminiJson_run.
    rewrite (callGemini_answers _ _ _ _ response1 g1 A1 O1 J1). cbv zeta.
    rewrite P1.
    rewrite (callGemini_answers _ _ _ _ response2 g2 A2 O2 J2). cbv zeta.
    now rewrite P2. }
  split; [exact E|]. rewrite E. simpl. now rewrite <- app_assoc.
Qed.

(** X8. If the Model Client throws on the primary call, the resolver throws
    the same value after that one call: a failed call is not retried and no
    repair is asked for. *)
Theorem resolver_does_not_retry
    (apiKey model userPrompt : jsstring) (w : World) (e : thrown) :
  fst (callGemini apiKey model (primary_messages userPrompt) w) = inl e ->
  parseGeminiJson apiKey model userPrompt w =
    (inl e, record_call w (primary_call apiKey model userPrompt)).
Proof.
  intro F. rewrite parseGeminiJson_run. rewrite callGemini_run in F |- *.
  cbv zeta in F |- *. cbn [fst] in F. unfold primary_call. now rewrite F.
Qed.

(** X9. If the first text does not parse and the Model Client throws on the
    repair call, the resolver throws the same value, after the two calls. *)
Theorem resolver_passes_on_repair_failure
    (apiKey model userPrompt : jsstring) (w : World)
    (response1 : FetchResponse) (g1 : GeminiResponse) (e : thrown) :
  let initialText := extractText g1 in
  let call1 := primary_call apiKey model userPrompt in
  let call2 := repair_call apiKey model initialText in
  next_answer w call1 = inr response1 ->
  ok response1 = true ->
  response_json response1 = inr g1 ->
  JSON_parse initialText = None ->
  fst (callGemini apiKey model (repair_messages initialText) (record_call w call1)) = inl e ->
  parseGeminiJson apiKey model userPrompt w =
    (inl e, record_call (record_call w call1) call2).
Proof.
  intros initialText call1 call2 A1 O1 J1 P1 F.
  subst initialText call1 call2. unfold primary_call, repair_call in *.
  rewrite parseGeminiJson_run.
  rewrite (callGemini_answers _ _ _ _ response1 g1 A1 O1 J1). cbv zeta.
  rewrite P1. rewrite callGemini_run in F |- *. cbv zeta in F |- *. cbn [fst] in F.
  now rewrite F.
Qed.

Lemma parseGeminiJson_calls (apiKey model userPrompt : jsstring) (w : World) :
  let w' := snd (parseGeminiJson apiKey model userPrompt w) in
  env w' = env w /\ backend w' = backend w /\
  (calls w' = calls w ++ [primary_call apiKey model userPrompt] \/
   exists initialText,
     calls w' = calls w ++ [primary_call apiKey model userPrompt;
                            repair_call apiKey model initialText]).
Proof.
  cbv zeta. rewrite parseGeminiJson_run, callGemini_run. cbv zeta.
  fold (primary_call apiKey model userPrompt).
  set (w1 := record_call w (primary_call apiKey model userPrompt)).
  match goal with |- context [(?r, w1)] => destruct r as [e|g1] end.
  - repeat split; now left.
  - cbv zeta. destruct (JSON_parse (extractText g1)).
    + repeat split; now left.
    + rewrite callGemini_run. cbv zeta. fold (repair_call apiKey model (extractText g1)).
      set (w2 := record_call w1 (repair_call apiKey model (extractText g1))).
      assert (C : calls w2 = calls w ++ [primary_call apiKey model userPrompt;
                                         repair_call apiKey model (extractText g1)]).
      { unfold w2, w1. simpl. now rewrite <- app_assoc. }
      match goal with |- context [(?r, w2)] => destruct r as [e|g2] end.
      * repeat split. right. now exists (extractText g1).
      * cbv zeta. destruct (JSON_parse (extractText g2)); repeat split; right;
          now exists (extractText g1).
Qed.

(** X10. Whatever the backend does, the resolver leaves the environment and
    the backend as they were and adds to the calls either the primary call
    alone, or the primary call followed by one repair call. *)
Theorem resolver_makes_one_or_two_calls
    (apiKey model userPrompt : jsstring) (w : World) :
  let w' := snd (parseGeminiJson apiKey model userPrompt w) in
  env w' = env w /\ backend w' = backend w /\
  (calls w' = calls w ++ [primary_call apiKey model userPrompt] \/
   exists initialText,
     calls w' = calls w ++ [primary_call apiKey model userPrompt;
                            repair_call apiKey model initialText]).
Proof. exact (parseGeminiJson_calls apiKey model userPrompt w). Qed.

(** X11. What the resolver returns is consistent: the value is what its raw
    text parses to. *)
Theorem resolver_raw_parses_to_parsed
    (apiKey model userPrompt : jsstring) (w : World) (r : Resolved) :
  fst (parseGeminiJson apiKey model userPrompt w) = inr r ->
  JSON_parse (raw r) = Some (parsed r).
Proof.
  rewrite parseGeminiJson_run.
  destruct (callGemini apiKey model (primary_messages userPrompt) w) as [[e|g1] w1];
    [discriminate|].
  cbv zeta. destruct (JSON_parse (extractText g1)) eqn:P1.
  - intro E. injection E as <-. exact P1.
  - destruct (callGemini apiKey model _ w1) as [[e|g2] w2]; [discriminate|].
    cbv zeta. destruct (JSON_parse (extractText g2)) eqn:P2; [|discriminate].
    intro E. injection E as <-. exact P2.
Qed.

(** X12. An answer without text, or whose text is white space only, is sent
    for repair: the second call is the repair call for the empty text. *)
Theorem blank_answer_is_sent_for_repair
    (apiKey model userPrompt : jsstring) (w : World)
    (response1 : FetchResponse) (g1 : GeminiResponse) :
  next_answer w (primary_call apiKey model userPrompt) = inr response1 ->
  ok response1 = true ->
  response_json response1 = inr g1 ->
  whitespace_only (concat (text_fragments g1)) = true ->
  calls (snd (parseGeminiJson apiKey model userPrompt w)) =
    calls w ++ [primary_call apiKey model userPrompt; repair_call apiKey model []].
Proof.
  intros A1 O1 J1 W. unfold primary_call in *.
  rewrite parseGeminiJson_run.
  rewrite (callGemini_answers _ _ _ _ response1 g1 A1 O1 J1). cbv zeta.
  rewrite extractText_eq, (trim_whitespace _ W).
  change (JSON_parse []) with (@None json).
  rewrite callGemini_run. cbv zeta. fold (repair_call apiKey model []).
  match goal with |- context [(?r, ?w2)] => destruct r as [e|g2] end.
  - simpl. now rewrite <- app_assoc.
  - cbv zeta. destruct (JSON_parse (extractText g2)); simpl; now rewrite <- app_assoc.
Qed.

End ResolverFurther.

(** [resolver_returns_repaired_parse] on the backend that answers with prose
    and then with valid JSON. *)
Lemma resolver_returns_repaired_parse_witness :
  parseGeminiJson (H := Sample.engine) Sample.key Sample.model (js "a web shop") Sample.corrected =
    (inr {| parsed := JObj [(js "ok", JBool true)]; raw := Sample.valid_text |},
     record_call
       (record_call Sample.corrected (primary_call Sample.key Sample.model (js "a web shop")))
       (repair_call Sample.key Sample.model (js "not json"))) /\
  calls (snd (parseGeminiJson (H := Sample.engine) Sample.key Sample.model (js "a web shop")
                Sample.corrected)) =
    [primary_call Sample.key Sample.model (js "a web shop");
     repair_call Sample.key Sample.model (js "not json")].
Proof.
  apply (@resolver_returns_repaired_parse Sample.engine Sample.key Sample.model
           (js "a web shop") Sample.corrected
           {| status := 200; response_text := inr [];
              response_json := inr (Sample.candidate_of [js "not json"]) |}
           {| status := 200; response_text := inr [];
              response_json := inr (Sample.candidate_of [Sample.valid_text]) |}
           (Sample.candidate_of [js "not json"])
           (Sample.candidate_of [Sample.valid_text])
           (JObj [(js "ok", JBool true)]));
    reflexivity.
Defined.

(** [resolver_does_not_retry] on the backend that cannot be reached. *)
Lemma resolver_does_not_retry_witness :
  parseGeminiJson (H := Sample.engine) Sample.key Sample.model (js "a web shop")
    Sample.unreachable =
    (inl (ErrorObject (js "fetch failed")),
     record_call Sample.unreachable (primary_call Sample.key Sample.model (js "a web shop"))).
Proof.
  apply (@resolver_does_not_retry Sample.engine Sample.key Sample.model (js "a web shop")
           Sample.unreachable (ErrorObject (js "fetch failed"))).
  reflexivity.
Defined.

(** [resolver_passes_on_repair_failure] on the backend that answers with
    prose and cannot be reached after. *)
Lemma resolver_passes_on_repair_failure_witness :
  parseGeminiJson (H := Sample.engine) Sample.key Sample.model (js "a web shop") Sample.flaky =
    (inl (ErrorObject (js "fetch failed")),
     record_call
       (record_call Sample.flaky (primary_call Sample.key Sample.model (js "a web shop")))
       (repair_call Sample.key Sample.model (js "not json"))).
Proof.
  apply (@resolver_passes_on_repair_failure Sample.engine Sample.key Sample.model
           (js "a web shop") Sample.flaky
           {| status := 200; response_text := inr [];
              response_json := inr (Sample.candidate_of [js "not json"]) |}
           (Sample.candidate_of [js "not json"])
           (ErrorObject (js "fetch failed")));
    reflexivity.
Defined.

(** [resolver_raw_parses_to_parsed] on the backend that answers with valid
    JSON. *)
Lemma resolver_raw_parses_to_parsed_witness :
  JSON_parse (H := Sample.engine) Sample.valid_text = Some (JObj [(js "ok", JBool true)]).
Proof.
  apply (@resolver_raw_parses_to_parsed Sample.engine Sample.key Sample.model
           (js "a web shop") Sample.obedient
           {| parsed := JObj [(js "ok", JBool true)]; raw := Sample.valid_text |}).
  reflexivity.
Defined.

(** [blank_answer_is_sent_for_repair] on the backend that answers with white
    space first. *)
Lemma blank_answer_is_sent_for_repair_witness :
  calls (snd (parseGeminiJson (H := Sample.engine) Sample.key Sample.model (js "a web shop")
                Sample.silent)) =
    [primary_call Sample.key Sample.model (js "a web shop");
     repair_call Sample.key Sample.model []].
Proof.
  apply (@blank_answer_is_sent_for_repair Sample.engine Sample.key Sample.model
           (js "a web shop") Sample.silent
           {| status := 200; response_text := inr [];
              response_json := inr (Sample.candidate_of [js "  "; [10]]) |}
           (Sample.candidate_of [js "  "; [10]]));
    reflexivity.
Defined.

(** ** The handler: its error paths and its calls *)

Section HandlerFurther.
Context `{Engine}.

(** X13. Without the key, unset or empty, every request is answered with
    status 500 and the message that the key is missing; the request is not
    read and the backend is not called. *)
Theorem POST_without_key (request : Request) (w : World) :
  falsy (GEMINI_API_KEY (env w)) = true ->
  POST request w =
    (inr (NextResponse_json
            (JObj [(js "error", JStr (js "Missing GEMINI_API_KEY environment variable."))])
            500),
     w).
Proof. intro K. rewrite POST_run. cbv zeta. now rewrite K. Qed.

(** X14. With the key set, a request whose body cannot be read as JSON is
    answered with status 500 and the analysis failure summary, the message of
    the error as [details] and [raw_output]; the backend is not called. *)
Theorem POST_unreadable_request (request : Request) (w : World) (message : jsstring) :
  falsy (GEMINI_API_KEY (env w)) = false ->
  request_json request = inl (ErrorObject message) ->
  POST request w =
    (inr (NextResponse_json
            (JObj [(js "error", JStr (js "Failed to analyze attack paths."));
                   (js "details", JStr message);
                   (js "raw_output", JStr message)])
            500),
     w).
Proof. intros K B. rewrite POST_run. cbv zeta. now rewrite K, B. Qed.

(** X15. Whatever the request and the backend, the handler leaves the
    environment and the backend as they were and makes at most two calls, each
    of them the generation request for the key and the model of the
    environment, the model being [gemini-3] when none is set, with the safety
    instruction as its first message. *)
Theorem POST_calls_only_the_model (request : Request) (w : World) :
  let w' := snd (POST request w) in
  env w' = env w /\ backend w' = backend w /\
  exists new,
    calls w' = calls w ++ new /\ (length new <= 2)%nat /\
    Forall (fun call => exists messages,
              call = generate_call (GEMINI_API_KEY (env w) ?? [])
                       (GEMINI_MODEL (env w) ?? js "gemini-3") messages /\
              hd_error messages =
                Some {| role := js "system"; msg_parts := [{| text := Some SYSTEM_PROMPT |}] |})
           new.
Proof.
  cbv zeta.
  assert (Same : env w = env w /\ backend w = backend w /\
                 exists new, calls w = calls w ++ new /\ (length new <= 2)%nat /\
                   Forall (fun call => exists messages,
                     call = generate_call (GEMINI_API_KEY (env w) ?? [])
                              (GEMINI_MODEL (env w) ?? js "gemini-3") messages /\
                     hd_error messages =
                       Some {| role := js "system";
                               msg_parts := [{| text := Some SYSTEM_PROMPT |}] |}) new).
  { repeat split. exists []. rewrite app_nil_r. repeat split; [simpl; lia|constructor]. }
  rewrite POST_run. cbv zeta.
  destruct (falsy (GEMINI_API_KEY (env w))); [exact Same|].
  destruct (request_json request) as [e|body]; [exact Same|].
  destruct (blank body); [exact Same|].
  destruct (totalInputLength body) as [total|]; [|exact Same].
  destruct (MAX_TOTAL_CHARS <? total); [exact Same|].
  pose proof (parseGeminiJson_calls (GEMINI_API_KEY (env w) ?? [])
                (GEMINI_MODEL (env w) ?? js "gemini-3") (buildUserPrompt body) w) as C.
  cbv zeta in C.
  destruct (parseGeminiJson _ _ _ w) as [[e|resolved] w'].
  all: cbn [snd] in C; destruct C as (Ev & Bk & C).
  all: assert (G : env w' = env w /\ backend w' = backend w /\
                 exists new, calls w' = calls w ++ new /\ (length new <= 2)%nat /\
                   Forall (fun call => exists messages,
                     call = generate_call (GEMINI_API_KEY (env w) ?? [])
                              (GEMINI_MODEL (env w) ?? js "gemini-3") messages /\
                     hd_error messages =
                       Some {| role := js "system";
                               msg_parts := [{| text := Some SYSTEM_PROMPT |}] |}) new)
    by (split; [exact Ev|]; split; [exact Bk|];
        destruct C as [C|(t & C)]; eexists; (split; [exact C|]);
        (split; [simpl; lia|]);
        repeat (constructor; [eexists; split; reflexivity|]); constructor).
  - exact G.
  - destruct (redaction_filter (parsed resolved)) as [e|sanitizedJson]; [exact G|].
    now destruct (JSON_stringify_2 sanitizedJson).
Qed.

(** X16. A response with status 400 is given before any call: the world is
    as it was. *)
Theorem POST_rejects_before_calling (request : Request) (w : World) (response : NextResponse) :
  fst (POST request w) = inr response ->
  response_status response = 400 ->
  snd (POST request w) = w.
Proof.
  rewrite POST_run. cbv zeta.
  destruct (falsy (GEMINI_API_KEY (env w))); [reflexivity|].
  destruct (request_json request) as [e|body]; [reflexivity|].
  destruct (blank body); [reflexivity|].
  destruct (totalInputLength body) as [total|]; [|reflexivity].
  destruct (MAX_TOTAL_CHARS <? total); [reflexivity|].
  destruct (parseGeminiJson _ _ _ w) as [[e|resolved] w'].
  - cbn [fst]. intros E S. injection E as <-. discriminate.
  - destruct (redaction_filter (parsed resolved)) as [e|sanitizedJson];
      [|destruct (JSON_stringify_2 sanitizedJson)]; cbn [fst]; intros E S;
      injection E as <-; discriminate.
Qed.

(** X17. End to end, when neither the first answer nor the repaired one
    parses: the handler answers with status 500 and the analysis failure
    summary, and gives the text that failed to parse (the repaired text, or
    the first one when the repaired text is empty) as [details] and as
    [raw_output]. *)
Theorem POST_reports_unparseable_output
    (request : Request) (w : World) (body : AnalysisInput)
    (response1 response2 : FetchResponse) (g1 g2 : GeminiResponse) :
  let apiKey := GEMINI_API_KEY (env w) ?? [] in
  let model := GEMINI_MODEL (env w) ?? js "gemini-3" in
  let call1 := primary_call apiKey model (buildUserPrompt body) in
  let call2 := repair_call apiKey model (extractText g1) in
  let payload := match extractText g2 with [] => extractText g1 | _ :: _ => extractText g2 end in
  falsy (GEMINI_API_KEY (env w)) = false ->
  request_json request = inr body ->
  missing_or_blank (system_text body) = false ->
  counted_length body <= MAX_TOTAL_CHARS ->
  next_answer w call1 = inr response1 ->
  ok response1 = true ->
  response_json response1 = inr g1 ->
  JSON_parse (extractText g1) = None ->
  next_answer (record_call w call1) call2 = inr response2 ->
  ok response2 = true ->
  response_json response2 = inr g2 ->
  JSON_parse (extractText g2) = None ->
  POST request w =
    (inr (NextResponse_json
            (JObj [(js "error", JStr (js "Failed to analyze attack paths."));
                   (js "details", JStr payload);
                   (js "raw_output", JStr payload)])
            500),
     record_call (record_call w call1) call2).
Proof.
  intros apiKey model call1 call2 payload K B S L A1 O1 J1 P1 A2 O2 J2 P2.
  rewrite (POST_analyzes request w body K B S L).
  fold apiKey model. subst call1 call2. unfold primary_call, repair_call in *.
  rewrite parseGeminiJson_run.
  rewrite (callGemini_answers _ _ _ _ response1 g1 A1 O1 J1). cbv zeta.
  rewrite P1.
  rewrite (callGemini_answers _ _ _ _ response2 g2 A2 O2 J2). cbv zeta.
  now rewrite P2.
Qed.

(** X18. End to end, when the first answer parses to a value whose
    serialization completes, whose Numbers survive serialization and in whose
    serialization no pattern of the list matches: the handler answers with
    status 200 and that value as the body, after the one call. *)
Theorem POST_returns_clean_value
    (request : Request) (w : World) (body : AnalysisInput)
    (response : FetchResponse) (g : GeminiResponse) (v : json) (rawString : jsstring) :
  let apiKey := GEMINI_API_KEY (env w) ?? [] in
  let model := GEMINI_MODEL (env w) ?? js "gemini-3" in
  let call := primary_call apiKey model (buildUserPrompt body) in
  falsy (GEMINI_API_KEY (env w)) = false ->
  request_json request = inr body ->
  missing_or_blank (system_text body) = false ->
  counted_length body <= MAX_TOTAL_CHARS ->
  next_answer w call = inr response ->
  ok response = true ->
  response_json response = inr g ->
  JSON_parse (extractText g) = Some v ->
  JSON_stringify_2 v = inr rawString ->
  numbers_survive v ->
  unmatched rawString = true ->
  POST request w = (inr (NextResponse_json v 200), record_call w call).
Proof.
  intros apiKey model call K B S L A O J P E N U.
  rewrite (POST_analyzes request w body K B S L).
  fold apiKey model. subst call. unfold primary_call in *.
  rewrite parseGeminiJson_run.
  rewrite (callGemini_answers _ _ _ _ response g A O J). cbv zeta.
  rewrite P. cbn [parsed].
  rewrite (redaction_filter_resolved (extractText g) v rawString P N E);
    [now rewrite E|].
  intros k Hk. unfold unmatched in U. rewrite forallb_forall in U.
  apply U in Hk. now apply negb_true_iff in Hk.
Qed.

End HandlerFurther.

(** [POST_without_key] in the environment without the key. *)
Lemma POST_without_key_witness :
  POST (H := Sample.engine) (Sample.request (js "a web shop") None) Sample.unconfigured =
    (inr (NextResponse_json
            (JObj [(js "error", JStr (js "Missing GEMINI_API_KEY environment variable."))])
            500),
     Sample.unconfigured).
Proof.
  apply (@POST_without_key Sample.engine (Sample.request (js "a web shop") None)
           Sample.unconfigured).
  reflexivity.
Defined.

(** [POST_unreadable_request] on a request whose body is not JSON. *)
Lemma POST_unreadable_request_witness :
  POST (H := Sample.engine)
    {| request_json := inl (ErrorObject (js "Unexpected end of JSON input")) |}
    Sample.obedient =
    (inr (NextResponse_json
            (JObj [(js "error", JStr (js "Failed to analyze attack paths."));
                   (js "details", JStr (js "Unexpected end of JSON input"));
                   (js "raw_output", JStr (js "Unexpected end of JSON input"))])
            500),
     Sample.obedient).
Proof.
  apply (@POST_unreadable_request Sample.engine
           {| request_json := inl (ErrorObject (js "Unexpected end of JSON input")) |}
           Sample.obedient (js "Unexpected end of JSON input"));
    reflexivity.
Defined.

(** [POST_rejects_before_calling] on a request with a blank snapshot. *)
Lemma POST_rejects_before_calling_witness :
  snd (POST (H := Sample.engine) (Sample.request (js "   ") None) Sample.obedient) =
  Sample.obedient.
Proof.
  apply (@POST_rejects_before_calling Sample.engine (Sample.request (js "   ") None)
           Sample.obedient SNAPSHOT_REQUIRED);
    reflexivity.
Defined.

(** [POST_reports_unparseable_output] on the backend that answers with prose
    and then with nothing: the prose is reported. *)
Lemma POST_reports_unparseable_output_witness :
  POST (H := Sample.engine) (Sample.request (js "a web shop") None) Sample.stubborn =
    (inr (NextResponse_json
            (JObj [(js "error", JStr (js "Failed to analyze attack paths."));
                   (js "details", JStr (js "not json"));
                   (js "raw_output", JStr (js "not json"))])
            500),
     record_call
       (record_call Sample.stubborn
          (primary_call Sample.key Sample.model
             (buildUserPrompt (Sample.input (js "a web shop") None))))
       (repair_call Sample.key Sample.model (js "not json"))).
Proof.
  apply (@POST_reports_unparseable_output Sample.engine
           (Sample.request (js "a web shop") None) Sample.stubborn
           (Sample.input (js "a web shop") None)
           {| status := 200; response_text := inr [];
              response_json := inr (Sample.candidate_of [js "not json"]) |}
           {| status := 200; response_text := inr [];
              response_json := inr (Sample.candidate_of []) |}
           (Sample.candidate_of [js "not json"])
           (Sample.candidate_of []));
    try reflexivity.
  vm_compute. discriminate.
Defined.

(** [POST_returns_clean_value] on the backend that answers with valid
    JSON. *)
Lemma POST_returns_clean_value_witness :
  POST (H := Sample.engine) (Sample.request (js "a web shop") None) Sample.obedient =
    (inr (NextResponse_json (JObj [(js "ok", JBool true)]) 200),
     record_call Sample.obedient
       (primary_call Sample.key Sample.model
          (buildUserPrompt (Sample.input (js "a web shop") None)))).
Proof.
  apply (@POST_returns_clean_value Sample.engine
           (Sample.request (js "a web shop") None) Sample.obedient
           (Sample.input (js "a web shop") None)
           {| status := 200; response_text := inr [];
              response_json := inr (Sample.candidate_of [Sample.valid_text]) |}
           (Sample.candidate_of [Sample.valid_text])
           (JObj [(js "ok", JBool true)])
           (serialization (H := Sample.engine) (JObj [(js "ok", JBool true)])));
    try reflexivity.
  - vm_compute. discriminate.
  - simpl. tauto.
Defined.

(** ** The Redaction Filter: the note and the values that are not objects *)

Section FilterFurther.
Context `{Engine}.

Lemma get_own_overwrite_other (props : list (jsstring * json)) (key k : jsstring) (v : json) :
  k <> key -> get_own (overwrite props key v) k = get_own props k.
Proof.
  intro D. induction props as [|[a x] props IH]; [reflexivity|]. simpl.
  destruct (jsstring_eqb a key) eqn:E; simpl.
  - apply jsstring_eqb_eq in E. subst a.
    assert (F : jsstring_eqb key k = false) by (apply jsstring_eqb_neq; congruence).
    now rewrite F.
  - now rewrite IH.
Qed.

Lemma get_own_app_other (props : list (jsstring * json)) (key k : jsstring) (v : json) :
  k <> key -> get_own (props ++ [(key, v)]) k = get_own props k.
Proof.
  intro D. induction props as [|[a x] props IH]; simpl.
  - assert (F : jsstring_eqb key k = false) by (apply jsstring_eqb_neq; congruence).
    now rewrite F.
  - now rewrite IH.
Qed.

(** X19. The note is added to an object without touching its other
    properties: after the statement, [safe_notes] is the array of the note
    followed by the notes there were, and every other property reads as
    before. *)
Theorem note_keeps_the_other_properties (props : list (jsstring * json)) (k : jsstring) :
  jsstring_eqb k SAFE_NOTES = false ->
  exists returned,
    prepend_note (JObj props) = inr (JObj returned) /\
    get_own returned SAFE_NOTES = Some (JArr (JStr NOTE :: safe_notes_of props)) /\
    get_own returned k = get_own props k.
Proof.
  intro D. apply jsstring_eqb_neq in D.
  rewrite prepend_note_object. eexists. split; [reflexivity|].
  split; [apply get_own_set_own|].
  unfold set_own. destruct (get_own props SAFE_NOTES).
  - now apply get_own_overwrite_other.
  - change (array_index SAFE_NOTES) with (@None N). now apply get_own_app_other.
Qed.

Lemma EXPLOIT_KEYWORDS_not_quote (k : jsstring) :
  In k EXPLOIT_KEYWORDS -> clash (compile k) [DQUOTE] = true.
Proof.
  unfold EXPLOIT_KEYWORDS. simpl.
  intros Hin. repeat (destruct Hin as [<-|Hin]; [reflexivity|]). contradiction.
Qed.

(** A text that begins with a quotation mark parses to a string, if it
    parses. *)
Lemma JSON_parse_quoted (t : jsstring) (v : json) :
  JSON_parse (DQUOTE :: t) = Some v -> exists s, v = JStr s.
Proof.
  unfold JSON_parse. rewrite parse_value_S. unfold value_step.
  change (skip_ws (DQUOTE :: t)) with (DQUOTE :: t). cbv beta iota.
  change (N.eqb DQUOTE LEFT_BRACE) with false.
  change (N.eqb DQUOTE LEFT_BRACKET) with false.
  change (N.eqb DQUOTE DQUOTE) with true. cbv iota.
  destruct (parse_chars t) as [[str rest]|]; [|discriminate].
  destruct (skip_ws rest); [|discriminate].
  intro E. injection E as <-. now exists str.
Qed.

(** X20. A resolved value that is a bare string in which a keyword of the
    list occurs, in whatever case, is not returned redacted: the filter
    throws, the note having no object to go to. *)
Theorem redacted_bare_string_is_refused (s k : jsstring) :
  In k EXPLOIT_KEYWORDS ->
  occurs_ignoring_case k s ->
  exists e, redaction_filter (JStr s) = inl e.
Proof.
  intros Hk O.
  assert (R : snd (sanitizeOutput (serialization (JStr s))) = true).
  { apply (string_field_redacted (JStr s) s k); [now left|exact Hk|exact O]. }
  destruct (sanitize_fold_head DQUOTE EXPLOIT_KEYWORDS (quote_chars s ++ [DQUOTE]) false
              EXPLOIT_KEYWORDS_not_quote) as (s' & Hd).
  change (fold_left sanitize_keyword EXPLOIT_KEYWORDS (DQUOTE :: quote_chars s ++ [DQUOTE], false))
    with (sanitizeOutput (serialization (JStr s))) in Hd.
  rewrite (redaction_filter_run (JStr s) (serialization (JStr s)))
    by (apply JSON_stringify_2_shallow; reflexivity).
  rewrite R, Hd. unfold JSON_parse_or_throw.
  destruct (JSON_parse (DQUOTE :: s')) as [v|] eqn:P.
  - apply JSON_parse_quoted in P as (str & ->). simpl. eexists. reflexivity.
  - eexists. reflexivity.
Qed.

End FilterFurther.

(** [note_keeps_the_other_properties] on an object with a summary and one
    note. *)
Lemma note_keeps_the_other_properties_witness :
  exists returned,
    prepend_note (H := Sample.engine)
      (JObj [(js "summary", JStr (js "a [redacted] was found"));
             (js "safe_notes", JArr [JStr (js "authorized testing only")])]) =
      inr (JObj returned) /\
    get_own returned SAFE_NOTES =
      Some (JArr (JStr NOTE ::
                  safe_notes_of [(js "summary", JStr (js "a [redacted] was found"));
                                 (js "safe_notes", JArr [JStr (js "authorized testing only")])])) /\
    get_own returned (js "summary") =
      get_own [(js "summary", JStr (js "a [redacted] was found"));
               (js "safe_notes", JArr [JStr (js "authorized testing only")])] (js "summary").
Proof.
  apply (@note_keeps_the_other_properties Sample.engine
           [(js "summary", JStr (js "a [redacted] was found"));
            (js "safe_notes", JArr [JStr (js "authorized testing only")])]
           (js "summary")).
  reflexivity.
Defined.

(** [redacted_bare_string_is_refused] on a sentence as the whole answer. *)
Lemma redacted_bare_string_is_refused_witness :
  exists e, redaction_filter (H := Sample.engine) (JStr (js "use Metasploit here")) = inl e.
Proof.
  apply (@redacted_bare_string_is_refused Sample.engine (js "use Metasploit here")
           (js "metasploit")).
  - simpl. tauto.
  - apply occurs_literal. vm_compute. reflexivity.
Defined.

(** ** The page and the route *)

Section PageFurther.
Context `{Engine}.


Lemma blank_request_body (st : Page.State) (whatIf : option jsstring) :
  blank (Page.request_body st whatIf) =
  Nat.eqb (length (trim (Page.systemText st))) 0.
Proof.
  unfold blank, Page.request_body. cbn [system_text].
  now destruct (Page.systemText st).
Qed.

(** Two returned responses of different status are different. *)
Lemma status_differs (r r' : thrown + NextResponse) (x x' : NextResponse) :
  r = inr x -> r' = inr x' -> response_status x <> response_status x' -> r <> r'.
Proof. intros -> -> D E. injection E as ->. now apply D. Qed.

(** X22. The page and the route agree on what a missing snapshot is: with
    the key set and no request under way, the Analyze button is disabled
    exactly when the route would answer the request of the page with
    [System snapshot is required.] *)
Theorem page_check_matches_presence_check
    (st : Page.State) (whatIf : option jsstring) (w : World) :
  falsy (GEMINI_API_KEY (env w)) = false ->
  Page.loading st = false ->
  Page.isAnalyzeDisabled st = true <->
  fst (POST {| request_json := inr (Page.request_body st whatIf) |} w) = inr SNAPSHOT_REQUIRED.
Proof.
  intros K L. unfold Page.isAnalyzeDisabled. rewrite L. cbn [orb].
  rewrite <- (blank_request_body st whatIf).
  rewrite POST_run. cbv zeta. rewrite K. cbn [request_json].
  destruct (blank (Page.request_body st whatIf)); [now split|].
  split; [discriminate|]. intro E. exfalso. revert E.
  destruct (totalInputLength _) as [total|].
  - destruct (MAX_TOTAL_CHARS <? total).
    + cbn [fst]. intro E. vm_compute in E. discriminate E.
    + destruct (parseGeminiJson _ _ _ w) as [[e|resolved] w'].
      * cbn [fst]. eapply status_differs; [reflexivity|reflexivity|discriminate].
      * destruct (redaction_filter (parsed resolved)) as [e|sanitizedJson];
          [|destruct (JSON_stringify_2 sanitizedJson)]; cbn [fst];
          (eapply status_differs; [reflexivity|reflexivity|discriminate]).
  - cbn [fst]. eapply status_differs; [reflexivity|reflexivity|discriminate].
Qed.

(** X23. A request that the page lets through reaches the model: with the
    key set, the button enabled and at most 25000 code units in the five text
    areas together, the first call the route makes is the primary call for
    the user content block of what the page holds. *)
Theorem page_request_reaches_the_model
    (st : Page.State) (whatIf : option jsstring) (w : World) :
  falsy (GEMINI_API_KEY (env w)) = false ->
  Page.isAnalyzeDisabled st = false ->
  N.of_nat (length (Page.systemText st) + length (Page.diagramSummary st) +
            length (Page.configSnippet st) + length (Page.logSnippet st) +
            length (Page.codeSnippet st)) <= 25000 ->
  exists rest,
    calls (snd (POST {| request_json := inr (Page.request_body st whatIf) |} w)) =
    calls w ++
    primary_call (GEMINI_API_KEY (env w) ?? []) (GEMINI_MODEL (env w) ?? js "gemini-3")
      (buildUserPrompt (Page.request_body st whatIf)) :: rest.
Proof.
  intros K D L. unfold Page.isAnalyzeDisabled in D.
  apply orb_false_iff in D as [_ D].
  rewrite <- (blank_request_body st whatIf), blank_missing_or_blank in D.
  rewrite (POST_analyzes {| request_json := inr (Page.request_body st whatIf) |} w
             (Page.request_body st whatIf) K eq_refl D).
  - pose proof (parseGeminiJson_calls (GEMINI_API_KEY (env w) ?? [])
                  (GEMINI_MODEL (env w) ?? js "gemini-3")
                  (buildUserPrompt (Page.request_body st whatIf)) w) as C.
    cbv zeta in C. destruct C as (_ & _ & C).
    destruct (parseGeminiJson _ _ _ w) as [[e|resolved] w']; cbn [snd] in C |- *.
    + destruct C as [C|(t & C)]; rewrite C; eexists; reflexivity.
    + assert (G : exists rest, calls w' = calls w ++ primary_call (GEMINI_API_KEY (env w) ?? [])
                    (GEMINI_MODEL (env w) ?? js "gemini-3")
                    (buildUserPrompt (Page.request_body st whatIf)) :: rest)
        by (destruct C as [C|(t & C)]; rewrite C; eexists; reflexivity).
      destruct (redaction_filter (parsed resolved)) as [e|sanitizedJson]; [exact G|].
      now destruct (JSON_stringify_2 sanitizedJson).
  - unfold counted_length, snippet, text_length, Page.request_body, MAX_TOTAL_CHARS.
    cbn [system_text diagram_summary snippets config logs code tested]. lia.
Qed.

End PageFurther.

(** [page_check_matches_presence_check] on the page with a description. *)
Lemma page_check_matches_presence_check_witness :
  Page.isAnalyzeDisabled Sample.typed = true <->
  fst (POST (H := Sample.engine)
         {| request_json := inr (Page.request_body Sample.typed None) |} Sample.obedient) =
    inr SNAPSHOT_REQUIRED.
Proof.
  apply (@page_check_matches_presence_check Sample.engine Sample.typed None Sample.obedient);
    reflexivity.
Defined.

(** [page_request_reaches_the_model] on the page with a description. *)
Lemma page_request_reaches_the_model_witness :
  exists rest,
    calls (snd (POST (H := Sample.engine)
                  {| request_json := inr (Page.request_body Sample.typed None) |}
                  Sample.obedient)) =
    primary_call Sample.key Sample.model
      (buildUserPrompt (Page.request_body Sample.typed None)) :: rest.
Proof.
  apply (@page_request_reaches_the_model Sample.engine Sample.typed None Sample.obedient).
  - reflexivity.
  - reflexivity.
  - vm_compute. discriminate.
Defined.
